(** * ImPlot3D internals: colormap tables, tickers and axis fitting

    A shallow embedding of [implot3d_internal.h] (ImPlot3D v0.1) and the
    properties its specification states about it.

    Conventions of the embedding.
    - [ImU32] is a [Z] in [[0, 2^32)]; unsigned arithmetic wraps and the
      wrap-around is written out ([wrap32], [wrap64]).
    - [int] is a [Z].  An [ImVector] holds at most [INT_MAX] elements, so
      its sizes and indices are plain integers.  Signed overflow is
      undefined in C++: where the header computes an [int] of its own
      that one call can take out of range, the table size of line 182,
      the computation goes through [as_int] and stops there.
    - [float] is IEEE-754 binary32, given by the Standard Library's
      [SpecFloat] at precision 24; every operation rounds to nearest,
      ties to even.
    - An operation returns [None] where the C++ code stops on an
      [IM_ASSERT] or reads outside an array; [Some] carries the result.
    - What the host toolkit (Dear ImGui) supplies -- string hashing, text
      measurement -- and the build switch [IMPLOT_MIX64] are the fields
      of the class [Host]. *)

From Stdlib Require Import ZArith Lia Bool List String Ascii.
From Stdlib Require Import Floats.SpecFloat.
From stdpp Require Import base option list gmap.

Local Open Scope Z_scope.

(* ================================================================== *)
(** * Machine integers *)

Definition is_u32 (x : Z) : Prop := 0 <= x < 2 ^ 32.
Definition wrap32 (x : Z) : Z := x mod 2 ^ 32.
Definition wrap64 (x : Z) : Z := x mod 2 ^ 64.

Definition INT_MIN : Z := - 2 ^ 31.
Definition INT_MAX : Z := 2 ^ 31 - 1.

(** An [int] expression: its value, [None] where it overflows. *)
Definition as_int (x : Z) : option Z :=
  if decide (INT_MIN <= x <= INT_MAX) then Some x else None.

(** [ImClamp] of imgui_internal.h:
    [(v < mn) ? mn : (v > mx) ? mx : v]. *)
Definition ImClamp (v mn mx : Z) : Z :=
  if v <? mn then mn else if mx <? v then mx else v.

(* ================================================================== *)
(** * Generic helpers (lines 66-89) *)

(** [ImMixU32] compiled with [IMPLOT_MIX64]: one 64-bit product. *)
Definition ImMixU32_mix64 (a b s : Z) : Z :=
  let af := wrap32 (256 - s) in
  let bf := s in
  let al := Z.lor (Z.land a 0x00ff00ff) (wrap64 (Z.shiftl (Z.land a 0xff00ff00) 24)) in
  let bl := Z.lor (Z.land b 0x00ff00ff) (wrap64 (Z.shiftl (Z.land b 0xff00ff00) 24)) in
  let mix := wrap64 (al * af + bl * bf) in
  wrap32 (Z.lor (Z.land (Z.shiftr mix 32) 0xff00ff00)
                (Z.shiftr (Z.land mix 0xff00ff00) 8)).

(** [ImMixU32] compiled without it: two 32-bit products. *)
Definition ImMixU32_mix32 (a b s : Z) : Z :=
  let af := wrap32 (256 - s) in
  let bf := s in
  let al := Z.land a 0x00ff00ff in
  let ah := Z.shiftr (Z.land a 0xff00ff00) 8 in
  let bl := Z.land b 0x00ff00ff in
  let bh := Z.shiftr (Z.land b 0xff00ff00) 8 in
  let ml := wrap32 (al * af + bl * bf) in
  let mh := wrap32 (ah * af + bh * bf) in
  Z.lor (Z.land mh 0xff00ff00) (Z.shiftr (Z.land ml 0xff00ff00) 8).

(* ================================================================== *)
(** * Single and double precision floats *)

Module F32.
Definition prec : Z := 24.
Definition emax : Z := 128.

Definition zero : spec_float := S754_zero false.
Definition half : spec_float := S754_finite false 8388608 (-24).
Definition one : spec_float := S754_finite false 8388608 (-23).
Definition infinity : spec_float := S754_infinity false.
Definition neg_infinity : spec_float := S754_infinity true.

Definition valid (x : spec_float) : bool := valid_binary prec emax x.

Definition mul : spec_float -> spec_float -> spec_float := SFmul prec emax.
Definition add : spec_float -> spec_float -> spec_float := SFadd prec emax.
Definition leb : spec_float -> spec_float -> bool := SFleb.

(** Conversion [int -> float]. *)
Definition of_int (n : Z) : spec_float := binary_normalize prec emax n 0 false.

(** Conversion [double -> float], from a double given as a [spec_float]. *)
Definition of_double (x : spec_float) : spec_float :=
  match x with
  | S754_finite s m e => binary_round prec emax s m e
  | _ => x
  end.

(** The integer part of [m * 2^e], for a positive mantissa. *)
Definition trunc_mag (m : positive) (e : Z) : Z :=
  match e with
  | Zneg p => Z.shiftr (Zpos m) (Zpos p)
  | _ => Z.shiftl (Zpos m) e
  end.

(** Conversion [float -> int]: truncation toward zero.  The conversion is
    undefined when the truncated value is not an [int]. *)
Definition to_int (x : spec_float) : option Z :=
  match x with
  | S754_zero _ => Some 0
  | S754_finite s m e =>
      let v := if s then - trunc_mag m e else trunc_mag m e in
      if (INT_MIN <=? v) && (v <=? INT_MAX) then Some v else None
  | _ => None
  end.

(** [t] is a float of the closed interval [[0, 1]]. *)
Definition in_unit (t : spec_float) : bool :=
  valid t && leb zero t && leb t one.

Definition sub : spec_float -> spec_float -> spec_float := SFsub prec emax.

(** Conversion [float -> ImU32]: truncation toward zero, undefined when
    the truncated value is not an [unsigned int]. *)
Definition to_u32 (x : spec_float) : option Z :=
  match x with
  | S754_zero _ => Some 0
  | S754_finite s m e =>
      let v := if s then - trunc_mag m e else trunc_mag m e in
      if (0 <=? v) && (v <? 2 ^ 32) then Some v else None
  | _ => None
  end.
End F32.

Module F64.
Definition prec : Z := 53.
Definition emax : Z := 1024.

Definition DBL_MAX : spec_float := SFmax_float prec emax.

(** Conversion [float -> double]; it is exact. *)
Definition of_float (x : spec_float) : spec_float :=
  match x with
  | S754_finite s m e => binary_round prec emax s m e
  | _ => x
  end.

Definition valid (x : spec_float) : bool := valid_binary prec emax x.

Definition add : spec_float -> spec_float -> spec_float := SFadd prec emax.
Definition sub : spec_float -> spec_float -> spec_float := SFsub prec emax.
Definition mul : spec_float -> spec_float -> spec_float := SFmul prec emax.

(** Conversion [int -> double]. *)
Definition of_int (n : Z) : spec_float := binary_normalize prec emax n 0 false.

(** [DBL_EPSILON = 2^-52] and [DBL_MIN = 2^-1022]. *)
Definition DBL_EPSILON : spec_float := S754_finite false (2 ^ 52) (-104).
Definition DBL_MIN : spec_float := S754_finite false (2 ^ 52) (-1074).
End F64.

(** A zero or a finite float of sign [s]. *)
Definition zero_or_finite (s : bool) (x : spec_float) : Prop :=
  match x with
  | S754_zero s' | S754_finite s' _ _ => s' = s
  | _ => False
  end.

(** Where a rounded value lies: on the grid [2^g], between [L * 2^g] and
    [U * 2^g]. *)
Definition between (g L U : Z) (y : spec_float) : Prop :=
  match y with
  | S754_zero _ => L <= 0
  | S754_finite false m e =>
      e <= g ∧ L * 2 ^ (g - e) <= Zpos m <= U * 2 ^ (g - e)
  | _ => False
  end.

(** [ImNan] and [ImNanOrInf] (lines 60-62), on doubles. *)
Definition ImNan (val : spec_float) : bool :=
  match val with S754_nan => true | _ => false end.

Definition ImNanOrInf (val : spec_float) : bool :=
  negb (SFleb (SFopp F64.DBL_MAX) val && SFleb val F64.DBL_MAX) || ImNan val.

(** [ImHasFlag] (lines 56-58), on the integers that hold the flag sets. *)
Definition ImHasFlag (set flag : Z) : bool := Z.land set flag =? flag.

(** [ImAbs(double)] of imgui_internal.h is [fabs]. *)
Definition ImAbs (x : spec_float) : spec_float := SFabs x.

(** [ImAlmostEqual] (line 64); [ulp] is an [int], converted to [double]
    for the product. *)
Definition ImAlmostEqual (v1 v2 : spec_float) (ulp : Z) : bool :=
  SFltb (ImAbs (F64.sub v1 v2))
        (F64.mul (F64.mul F64.DBL_EPSILON (ImAbs (F64.add v1 v2))) (F64.of_int ulp))
  || SFltb (ImAbs (F64.sub v1 v2)) F64.DBL_MIN.

(** [IM_COL32_A_SHIFT] of imgui.h, 24 in both byte orders. *)
Definition IM_COL32_A_SHIFT : Z := 24.

(** [~x] on an [ImU32]. *)
Definition not32 (x : Z) : Z := Z.lxor x 0xFFFFFFFF.

(** [ImAlphaU32] (lines 66-68): the [int] 255 is converted to [float]
    for the product, and the product to [ImU32] for the shift. *)
Definition ImAlphaU32 (col : Z) (alpha : spec_float) : option Z :=
  v ← F32.to_u32 (F32.mul (F32.sub F32.one alpha) (F32.of_int 255));
  Some (Z.land col (not32 (wrap32 (Z.shiftl v IM_COL32_A_SHIFT)))).

(** Byte [i] of a packed color: [(x >> 8 * i) & 0xff]. *)
Definition channel (i x : Z) : Z := Z.land (Z.shiftr x (8 * i)) 0xff.

(** The packed color with the given bytes, lowest first. *)
Definition of_channels (c0 c1 c2 c3 : Z) : Z := c0 + 256 * (c1 + 256 * (c2 + 256 * c3)).

Definition is_byte (c : Z) : Prop := 0 <= c < 256.

(* ================================================================== *)
(** * The host toolkit's containers *)

(** [ImVector<T>]: [operator[]] asserts [0 <= i < Size]. *)
Module ImVector.
Definition size {A} (v : list A) : Z := Z.of_nat (length v).
Definition at_ {A} (v : list A) (i : Z) : option A :=
  if decide (0 <= i) then v !! Z.to_nat i else None.
Definition push_back {A} (v : list A) (x : A) : list A := v ++ [x].
Definition set {A} (v : list A) (i : Z) (x : A) : option (list A) :=
  if decide (0 <= i < size v) then Some (<[Z.to_nat i := x]> v) else None.
End ImVector.

(** A C string: the characters before the terminator.  [c_str] is what
    the range [[s, s + strlen(s) + 1)] holds. *)
Definition NUL : ascii := Ascii.zero.
Definition c_str (s : string) : list ascii := list_ascii_of_string s ++ [NUL].
Definition no_nul (s : string) : Prop := NUL ∉ list_ascii_of_string s.

(** [ImGuiTextBuffer]: [Buf] ends with a terminator once it is not empty;
    [size()] does not count it, [append] writes over it. *)
Module ImGuiTextBuffer.
Definition size (buf : list ascii) : Z :=
  if decide (length buf = 0%nat) then 0 else ImVector.size buf - 1.
Definition append (buf : list ascii) (chars : list ascii) : list ascii :=
  let write_off := if decide (length buf = 0%nat) then 1%nat else length buf in
  take (write_off - 1) buf ++ chars ++ [NUL].

(** The C string that starts at [buf]; [None] when nothing terminates it. *)
Fixpoint read (buf : list ascii) : option (list ascii) :=
  match buf with
  | [] => None
  | c :: rest =>
      if Ascii.eqb c NUL then Some [] else cs ← read rest; Some (c :: cs)
  end.
(** The C string at [Buf.Data + off]. *)
Definition c_str_at (buf : list ascii) (off : Z) : option string :=
  if decide (0 <= off) then
    cs ← read (drop (Z.to_nat off) buf); Some (string_of_list_ascii cs)
  else None.
End ImGuiTextBuffer.

(** [ImGuiStorage], used as a map from [ImGuiID] to [int]. *)
Module ImGuiStorage.
Definition GetInt (m : gmap Z Z) (key default_val : Z) : Z :=
  default default_val (m !! key).
Definition SetInt (m : gmap Z Z) (key val : Z) : gmap Z Z := <[key := val]> m.
End ImGuiStorage.

Record ImVec2 := mkImVec2 { vec_x : spec_float; vec_y : spec_float }.

(** What the code takes from outside this header. *)
Class Host := {
  (** [ImHashStr(const char* )] of Dear ImGui. *)
  ImHashStr : string -> Z;
  (** [ImGui::CalcTextSize(const char* )] of Dear ImGui. *)
  CalcTextSize : string -> ImVec2;
  (** Whether the build defines [IMPLOT_MIX64]. *)
  IMPLOT_MIX64 : bool
}.

(** [for (int i = lo; i < hi; ++i) body], over the state the body changes. *)
Fixpoint for_loop {S : Type} (n : nat) (i : Z) (body : Z -> S -> option S) (s : S)
  : option S :=
  match n with
  | O => Some s
  | Datatypes.S n' => s' ← body i s; for_loop n' (i + 1) body s'
  end.
Definition for_range {S : Type} (lo hi : Z) (body : Z -> S -> option S) (s : S)
  : option S :=
  for_loop (Z.to_nat (hi - lo)) lo body s.

(* ================================================================== *)
(** * Colormap data storage (lines 138-242) *)

Record ImPlot3DColormapData := mkColormapData {
  Keys : list Z;
  KeyCounts : list Z;
  KeyOffsets : list Z;
  Tables : list Z;
  TableSizes : list Z;
  TableOffsets : list Z;
  Text : list ascii;
  TextOffsets : list Z;
  Quals : list bool;
  Map : gmap Z Z;
  Count : Z
}.

(** The constructor: empty vectors, [Count = 0]. *)
Definition ImPlot3DColormapData_new : ImPlot3DColormapData :=
  mkColormapData [] [] [] [] [] [] [] [] [] ∅ 0.

(** The three vectors [_AppendTable] and [RebuildTables] write. *)
Definition with_tables (d : ImPlot3DColormapData) (tables sizes offsets : list Z)
  : ImPlot3DColormapData :=
  mkColormapData (Keys d) (KeyCounts d) (KeyOffsets d) tables sizes offsets
    (Text d) (TextOffsets d) (Quals d) (Map d) (Count d).

Definition with_keys (d : ImPlot3DColormapData) (keys : list Z)
  : ImPlot3DColormapData :=
  mkColormapData keys (KeyCounts d) (KeyOffsets d) (Tables d) (TableSizes d)
    (TableOffsets d) (Text d) (TextOffsets d) (Quals d) (Map d) (Count d).

Section ColormapData.
Context `{Host}.

Definition ImMixU32 (a b s : Z) : Z :=
  if IMPLOT_MIX64 then ImMixU32_mix64 a b s else ImMixU32_mix32 a b s.

Definition IsQual (d : ImPlot3DColormapData) (cmap : Z) : option bool :=
  ImVector.at_ (Quals d) cmap.

Definition GetIndex (d : ImPlot3DColormapData) (name : string) : Z :=
  let key := ImHashStr name in
  ImGuiStorage.GetInt (Map d) key (-1).

(** [GetName]: the outer [None] is a failed assertion, [Some None] is
    [nullptr], [Some (Some s)] the C string the returned pointer starts. *)
Definition GetName (d : ImPlot3DColormapData) (cmap : Z) : option (option string) :=
  if cmap <? Count d then
    off ← ImVector.at_ (TextOffsets d) cmap;
    s ← ImGuiTextBuffer.c_str_at (Text d) off;
    Some (Some s)
  else Some None.

(** [GetKeys] returns [&Keys[KeyOffsets[cmap]]]: the pointer is its offset
    into [Keys], and taking it asserts that the offset is an index. *)
Definition GetKeys (d : ImPlot3DColormapData) (cmap : Z) : option Z :=
  off ← ImVector.at_ (KeyOffsets d) cmap;
  _ ← ImVector.at_ (Keys d) off;
  Some off.

Definition GetKeyCount (d : ImPlot3DColormapData) (cmap : Z) : option Z :=
  ImVector.at_ (KeyCounts d) cmap.

Definition GetKeyColor (d : ImPlot3DColormapData) (cmap idx : Z) : option Z :=
  off ← ImVector.at_ (KeyOffsets d) cmap;
  ImVector.at_ (Keys d) (off + idx).

(** [GetTable] returns [&Tables[TableOffsets[cmap]]], again as an offset. *)
Definition GetTable (d : ImPlot3DColormapData) (cmap : Z) : option Z :=
  off ← ImVector.at_ (TableOffsets d) cmap;
  _ ← ImVector.at_ (Tables d) off;
  Some off.

Definition GetTableSize (d : ImPlot3DColormapData) (cmap : Z) : option Z :=
  ImVector.at_ (TableSizes d) cmap.

Definition GetTableColor (d : ImPlot3DColormapData) (cmap idx : Z) : option Z :=
  off ← ImVector.at_ (TableOffsets d) cmap;
  ImVector.at_ (Tables d) (off + idx).

(** The [GetTableSize] entries that start at [GetTable]: what a caller of
    the two reads as the colormap's table. *)
Definition table_contents (d : ImPlot3DColormapData) (cmap : Z) : option (list Z) :=
  off ← GetTable d cmap;
  siz ← GetTableSize d cmap;
  Some (take (Z.to_nat siz) (drop (Z.to_nat off) (Tables d))).

(** The key colors of a colormap, read one by one with [GetKeyColor]. *)
Definition key_colors (d : ImPlot3DColormapData) (cmap : Z) : option (list Z) :=
  n ← GetKeyCount d cmap;
  mapM (GetKeyColor d cmap) (seqZ 0 n).

(** [_AppendTable] (lines 171-207).  [max_size] is an [int] that the
    header computes from the key count: [255 * (key_count - 1) + 1], step
    by step.  The [reserve] calls set capacity only. *)
Definition _AppendTable (d : ImPlot3DColormapData) (cmap : Z)
  : option ImPlot3DColormapData :=
  key_count ← GetKeyCount d cmap;
  keys ← GetKeys d cmap;
  let off := ImVector.size (Tables d) in
  let offsets := ImVector.push_back (TableOffsets d) off in
  qual ← IsQual d cmap;
  if (qual : bool) then
    tables ← for_range 0 key_count (λ i tables,
                c ← ImVector.at_ (Keys d) (keys + i);
                Some (ImVector.push_back tables c)) (Tables d);
    Some (with_tables d tables (ImVector.push_back (TableSizes d) key_count) offsets)
  else
    segments ← as_int (key_count - 1);
    samples ← as_int (255 * segments);
    max_size ← as_int (samples + 1);
    tables ← for_range 0 (key_count - 1) (λ i tables,
                for_range 0 255 (λ s tables,
                  a ← ImVector.at_ (Keys d) (keys + i);
                  b ← ImVector.at_ (Keys d) (keys + (i + 1));
                  let c := ImMixU32 a b s in
                  Some (ImVector.push_back tables c)) tables) (Tables d);
    c ← ImVector.at_ (Keys d) (keys + (key_count - 1));
    Some (with_tables d (ImVector.push_back tables c)
            (ImVector.push_back (TableSizes d) max_size) offsets).

(** [keys] and [count] are the caller's array and the length it gives. *)
Definition Append (name : string) (keys : list Z) (count : Z) (qual : bool)
    (d : ImPlot3DColormapData) : option (ImPlot3DColormapData * Z) :=
  if decide (GetIndex d name ≠ -1) then Some (d, -1) else
  let key_offsets := ImVector.push_back (KeyOffsets d) (ImVector.size (Keys d)) in
  let key_counts := ImVector.push_back (KeyCounts d) count in
  keys' ← for_range 0 count (λ i ks,
             k ← ImVector.at_ keys i; Some (ImVector.push_back ks k)) (Keys d);
  let text_offsets :=
    ImVector.push_back (TextOffsets d) (ImGuiTextBuffer.size (Text d)) in
  let text := ImGuiTextBuffer.append (Text d) (c_str name) in
  let quals := ImVector.push_back (Quals d) qual in
  let id := ImHashStr name in
  let idx := Count d in
  let map := ImGuiStorage.SetInt (Map d) id idx in
  d' ← _AppendTable
         (mkColormapData keys' key_counts key_offsets (Tables d) (TableSizes d)
            (TableOffsets d) text text_offsets quals map (idx + 1)) idx;
  Some (d', idx).

Definition RebuildTables (d : ImPlot3DColormapData) : option ImPlot3DColormapData :=
  for_range 0 (Count d) (λ i d, _AppendTable d i) (with_tables d [] [] []).

Definition SetKeyColor (d : ImPlot3DColormapData) (cmap idx value : Z)
  : option ImPlot3DColormapData :=
  off ← ImVector.at_ (KeyOffsets d) cmap;
  keys ← ImVector.set (Keys d) (off + idx) value;
  RebuildTables (with_keys d keys).

(** The index expression of [LerpTable] (line 239). *)
Definition LerpTable_idx (qual : bool) (siz : Z) (t : spec_float) : option Z :=
  if qual then
    v ← F32.to_int (F32.mul (F32.of_int siz) t);
    Some (ImClamp v 0 (siz - 1))
  else
    F32.to_int (F32.add (F32.mul (F32.of_int (siz - 1)) t) F32.half).

Definition LerpTable (d : ImPlot3DColormapData) (cmap : Z) (t : spec_float)
  : option Z :=
  off ← ImVector.at_ (TableOffsets d) cmap;
  siz ← ImVector.at_ (TableSizes d) cmap;
  qual ← ImVector.at_ (Quals d) cmap;
  idx ← LerpTable_idx qual siz t;
  ImVector.at_ (Tables d) (off + idx).

End ColormapData.

(* ================================================================== *)
(** * Ticks and tickers (lines 312-381) *)

(** The constructor leaves [LabelSize] and [Idx] uninitialised: [None]. *)
Record ImPlot3DTick := mkTick {
  PlotPos : spec_float;
  Major : bool;
  ShowLabel : bool;
  LabelSize : option ImVec2;
  TextOffset : Z;
  Idx : option Z
}.

Definition ImPlot3DTick_new (value : spec_float) (major show_label : bool)
  : ImPlot3DTick :=
  mkTick (F32.of_double value) major show_label None (-1) None.

Record ImPlot3DTicker := mkTicker {
  Ticks : list ImPlot3DTick;
  TextBuffer : list ascii
}.

(** A formatter, with its user data: from the value and the buffer size
    to the C string it leaves in the buffer. *)
Definition ImPlot3DFormatter : Type := spec_float -> Z -> string.

Definition IMPLOT3D_LABEL_MAX_SIZE : Z := 32.

Module Ticker.
Section Ticker.
Context `{Host}.

Definition Reset (tk : ImPlot3DTicker) : ImPlot3DTicker := mkTicker [] [].

(** [AddTick(ImPlot3DTick tick)]; the tick returned is [Ticks.back()]. *)
Definition AddTick (tk : ImPlot3DTicker) (tick : ImPlot3DTick)
  : ImPlot3DTicker * ImPlot3DTick :=
  let tick := mkTick (PlotPos tick) (Major tick) (ShowLabel tick) (LabelSize tick)
                (TextOffset tick) (Some (ImVector.size (Ticks tk))) in
  (mkTicker (ImVector.push_back (Ticks tk) tick) (TextBuffer tk), tick).

(** The label part the two other overloads share: store [text] and measure
    it where it lies in the buffer. *)
Definition store_label (tk : ImPlot3DTicker) (tick : ImPlot3DTick) (text : string)
  : option (ImPlot3DTicker * ImPlot3DTick) :=
  let off := ImGuiTextBuffer.size (TextBuffer tk) in
  let buf := ImGuiTextBuffer.append (TextBuffer tk) (c_str text) in
  stored ← ImGuiTextBuffer.c_str_at buf off;
  Some (mkTicker (Ticks tk) buf,
        mkTick (PlotPos tick) (Major tick) (ShowLabel tick)
          (Some (CalcTextSize stored)) off (Idx tick)).

(** [AddTick(value, major, show_label, label)]; [None] is [nullptr]. *)
Definition AddTick_label (tk : ImPlot3DTicker) (value : spec_float)
    (major show_label : bool) (label : option string)
  : option (ImPlot3DTicker * ImPlot3DTick) :=
  let tick := ImPlot3DTick_new value major show_label in
  match show_label, label with
  | true, Some text => '(tk', tick') ← store_label tk tick text; Some (AddTick tk' tick')
  | _, _ => Some (AddTick tk tick)
  end.

(** [AddTick(value, major, show_label, formatter, data)]. *)
Definition AddTick_formatter (tk : ImPlot3DTicker) (value : spec_float)
    (major show_label : bool) (formatter : option ImPlot3DFormatter)
  : option (ImPlot3DTicker * ImPlot3DTick) :=
  let tick := ImPlot3DTick_new value major show_label in
  match show_label, formatter with
  | true, Some fmt =>
      let buff := fmt (PlotPos tick) IMPLOT3D_LABEL_MAX_SIZE in
      '(tk', tick') ← store_label tk tick buff; Some (AddTick tk' tick')
  | _, _ => Some (AddTick tk tick)
  end.

Definition TickCount (tk : ImPlot3DTicker) : Z := ImVector.size (Ticks tk).

(** [GetText(int idx)]: the C string at
    [TextBuffer.Buf.Data + Ticks[idx].TextOffset]. *)
Definition GetText (tk : ImPlot3DTicker) (idx : Z) : option string :=
  tick ← ImVector.at_ (Ticks tk) idx;
  ImGuiTextBuffer.c_str_at (TextBuffer tk) (TextOffset tick).

(** [GetText(const ImPlot3DTick&)]; reading an [Idx] that was never set
    is undefined. *)
Definition GetText_tick (tk : ImPlot3DTicker) (tick : ImPlot3DTick) : option string :=
  idx ← Idx tick; GetText tk idx.

End Ticker.
End Ticker.

(** One call of an [AddTick] overload. *)
Inductive tick_call :=
| Call_AddTick (tick : ImPlot3DTick)
| Call_AddTick_label (value : spec_float) (major show_label : bool)
    (label : option string)
| Call_AddTick_formatter (value : spec_float) (major show_label : bool)
    (formatter : option ImPlot3DFormatter).

Definition run_call `{Host} (tk : ImPlot3DTicker) (c : tick_call)
  : option ImPlot3DTicker :=
  match c with
  | Call_AddTick tick => Some (Ticker.AddTick tk tick).1
  | Call_AddTick_label v m s l => fst <$> Ticker.AddTick_label tk v m s l
  | Call_AddTick_formatter v m s f => fst <$> Ticker.AddTick_formatter tk v m s f
  end.

Fixpoint run_calls `{Host} (tk : ImPlot3DTicker) (cs : list tick_call)
  : option ImPlot3DTicker :=
  match cs with
  | [] => Some tk
  | c :: cs' => tk' ← run_call tk c; run_calls tk' cs'
  end.

(* ================================================================== *)
(** * Axes (lines 384-418) *)

Record ImPlot3DRange := mkRange { Min : spec_float; Max : spec_float }.

Record ImPlot3DAxis := mkAxis {
  Flags : Z;
  Range : ImPlot3DRange;
  LabelOffset : Z;
  AxisTicker : ImPlot3DTicker;
  Formatter : option ImPlot3DFormatter;
  FitThisFrame : bool;
  FitExtents : ImPlot3DRange
}.

(** [HUGE_VAL] stored in a [float]: plus infinity. *)
Definition fit_seed : ImPlot3DRange := mkRange F32.infinity F32.neg_infinity.

(** The constructor (lines 398-411). *)
Definition ImPlot3DAxis_new : ImPlot3DAxis :=
  mkAxis 0 (mkRange F32.zero F32.one) (-1) (mkTicker [] []) None true fit_seed.

(** Modelled from the spec: the test [ApplyFit] makes, section 4.3: the
    accumulator is non-degenerate when [runningMin <= runningMax] and both
    are finite. *)
Definition non_degenerate (r : ImPlot3DRange) : bool :=
  F32.leb (Min r) (Max r)
  && negb (ImNanOrInf (F64.of_float (Min r)))
  && negb (ImNanOrInf (F64.of_float (Max r))).

(** Modelled from the spec: [ImPlot3DAxis::ApplyFit] is declared at line
    415 and defined outside this header.  Section 4.3: if the accumulator is
    non-degenerate ([runningMin <= runningMax] and both finite), replace
    [range] with the accumulator; otherwise leave range unchanged.  Always
    re-seed the accumulator to [+inf, -inf] afterward. *)
Definition ApplyFit (a : ImPlot3DAxis) : ImPlot3DAxis :=
  mkAxis (Flags a)
    (if non_degenerate (FitExtents a) then FitExtents a else Range a)
    (LabelOffset a) (AxisTicker a) (Formatter a) (FitThisFrame a) fit_seed.

(* ================================================================== *)
(** * What a registry represents *)

(** A registered colormap, as the caller gave it to [Append]. *)
Record colormap := mkColormap {
  cm_name : string;
  cm_keys : list Z;
  cm_qual : bool
}.

Definition colormap_ok (c : colormap) : Prop :=
  cm_keys c ≠ [] ∧ Forall is_u32 (cm_keys c) ∧ no_nul (cm_name c).

Definition key_count (c : colormap) : Z := Z.of_nat (length (cm_keys c)).

(** The table size of a continuous colormap is an [int]. *)
Definition table_fits (c : colormap) : Prop :=
  cm_qual c = false → 255 * (key_count c - 1) + 1 <= INT_MAX.
Definition name_size (c : colormap) : Z := Z.of_nat (String.length (cm_name c)) + 1.

(** Where consecutive blocks of the given sizes start. *)
Fixpoint offsets_from (start : Z) (sizes : list Z) : list Z :=
  match sizes with
  | [] => []
  | n :: rest => start :: offsets_from (start + n) rest
  end.

Definition sum_sizes (sizes : list Z) : Z := foldr Z.add 0 sizes.
Arguments sum_sizes : simpl never.

(** The buffer that holds the given C strings one after the other. *)
Definition text_image (names : list string) : list ascii :=
  match names with
  | [] => []
  | _ => concat (c_str <$> names) ++ [NUL]
  end.

Section Representation.
Context `{Host}.

(** The 255 samples between two adjacent keys. *)
Definition ramp_segment (a b : Z) : list Z := ImMixU32 a b <$> seqZ 0 255.

(** The dense table of a continuous colormap. *)
Fixpoint ramp (keys : list Z) : list Z :=
  match keys with
  | [] => []
  | a :: rest =>
      match rest with
      | [] => [a]
      | b :: _ => ramp_segment a b ++ ramp rest
      end
  end.

(** The dense table [_AppendTable] builds from a colormap's keys. *)
Definition build_table (qual : bool) (keys : list Z) : list Z :=
  if qual then keys else ramp keys.

Definition table_of (c : colormap) : list Z := build_table (cm_qual c) (cm_keys c).

Definition table_size (c : colormap) : Z := Z.of_nat (length (table_of c)).

(** The vectors that hold keys, names and flags. *)
Record repr_keys (cms : list colormap) (d : ImPlot3DColormapData) : Prop := {
  repr_Keys : Keys d = concat (cm_keys <$> cms);
  repr_KeyCounts : KeyCounts d = key_count <$> cms;
  repr_KeyOffsets : KeyOffsets d = offsets_from 0 (key_count <$> cms);
  repr_Text : Text d = text_image (cm_name <$> cms);
  repr_TextOffsets : TextOffsets d = offsets_from 0 (name_size <$> cms);
  repr_Quals : Quals d = cm_qual <$> cms;
  repr_Count : Count d = Z.of_nat (length cms);
  repr_Map_name : ∀ i c, cms !! i = Some c →
    Map d !! ImHashStr (cm_name c) = Some (Z.of_nat i);
  repr_Map_index : ∀ h v, Map d !! h = Some v →
    ∃ (i : nat) c, v = Z.of_nat i ∧ cms !! i = Some c ∧ ImHashStr (cm_name c) = h;
  repr_ok : Forall colormap_ok cms;
  repr_fits : Forall table_fits cms
}.

(** The table vectors, built for the first [n] colormaps. *)
Record repr_tables (cms : list colormap) (n : nat) (d : ImPlot3DColormapData)
  : Prop := {
  repr_Tables : Tables d = concat (table_of <$> take n cms);
  repr_TableSizes : TableSizes d = table_size <$> take n cms;
  repr_TableOffsets : TableOffsets d = offsets_from 0 (table_size <$> take n cms)
}.

(** Where the keys and the table of colormap [n] start. *)
Definition key_offset (cms : list colormap) (n : nat) : Z :=
  Z.of_nat (length (concat (cm_keys <$> take n cms))).
Definition table_offset (cms : list colormap) (n : nat) : Z :=
  Z.of_nat (length (concat (table_of <$> take n cms))).

Definition repr (cms : list colormap) (d : ImPlot3DColormapData) : Prop :=
  repr_keys cms d ∧ repr_tables cms (length cms) d.

(** The registries the operations produce, from the constructor on.  The
    side conditions are the types of the C++ arguments: a name is a C
    string, a color an [ImU32]. *)
Inductive reachable : ImPlot3DColormapData -> Prop :=
| reachable_new : reachable ImPlot3DColormapData_new
| reachable_Append d name keys count qual d' idx :
    reachable d -> no_nul name -> Forall is_u32 keys ->
    Append name keys count qual d = Some (d', idx) -> reachable d'
| reachable_SetKeyColor d cmap idx value d' :
    reachable d -> is_u32 value ->
    SetKeyColor d cmap idx value = Some d' -> reachable d'
| reachable_RebuildTables d d' :
    reachable d -> RebuildTables d = Some d' -> reachable d'.

(** A colormap of that name is in the registry. *)
Definition registered (d : ImPlot3DColormapData) (name : string) : Prop :=
  ∃ cmap, 0 <= cmap < Count d ∧ GetName d cmap = Some (Some name).

(** The colormap [p] keys into the flat key vector belongs to gets [v]. *)
Fixpoint set_flat_key (cms : list colormap) (p : nat) (v : Z) : list colormap :=
  match cms with
  | [] => []
  | c :: rest =>
      if decide (p < length (cm_keys c))%nat
      then mkColormap (cm_name c) (<[p := v]> (cm_keys c)) (cm_qual c) :: rest
      else c :: set_flat_key rest (p - length (cm_keys c)) v
  end.

End Representation.

(* ================================================================== *)
(** * The specification's index formulas, in exact arithmetic *)

(** [floor (k * m * 2^e)] and [round (k * m * 2^e)] for [k, m >= 0]; a
    half rounds up. *)
Definition floor_scaled (k : Z) (m : positive) (e : Z) : Z :=
  if 0 <=? e then k * Zpos m * 2 ^ e else (k * Zpos m) / 2 ^ (- e).
Definition round_scaled (k : Z) (m : positive) (e : Z) : Z :=
  if 0 <=? e then k * Zpos m * 2 ^ e
  else (2 * k * Zpos m + 2 ^ (- e)) / 2 ^ (1 - e).

(** The index as the specification words it, section 4.1:
    [clamp(floor(size*t), 0, size-1)] for a qualitative table,
    [round((size-1)*t)] for a continuous one, for [t >= 0]. *)
Definition spec_index (qual : bool) (siz : Z) (t : spec_float) : option Z :=
  match t with
  | S754_zero _ => Some 0
  | S754_finite false m e =>
      Some (if qual then ImClamp (floor_scaled siz m e) 0 (siz - 1)
            else round_scaled (siz - 1) m e)
  | _ => None
  end.

(* ================================================================== *)
(** * A host and small registries, to run the model *)

(** FNV-1a on 32 bits stands in for the toolkit's string hash. *)
Definition fnv1a (s : string) : Z :=
  fold_left (λ h c, wrap32 (Z.lxor h (Z.of_nat (nat_of_ascii c)) * 16777619))
    (list_ascii_of_string s) 2166136261.

Definition demo_host : Host :=
  {| ImHashStr := fnv1a;
     CalcTextSize := λ s, mkImVec2 (F32.of_int (7 * Z.of_nat (String.length s)))
                                   (F32.of_int 13);
     IMPLOT_MIX64 := false |}.

(** The registry an [Append] returns; the one given, should it stop. *)
Definition appended (d : ImPlot3DColormapData) (name : string) (keys : list Z)
    (qual : bool) : ImPlot3DColormapData :=
  match Append (H := demo_host) name keys (Z.of_nat (length keys)) qual d with
  | Some (d', _) => d'
  | None => d
  end.

(** The two-key continuous colormap of the specification's example. *)
Definition demo_rb : ImPlot3DColormapData :=
  appended ImPlot3DColormapData_new "RB" [0xFF0000FF; 0x0000FFFF] false.

(** Two qualitative colormaps of two keys each. *)
Definition demo_one : ImPlot3DColormapData :=
  appended ImPlot3DColormapData_new "A" [1; 2] true.
Definition demo_two : ImPlot3DColormapData := appended demo_one "B" [3; 4] true.

(** [demo_two] after key 1 of colormap 0 is set to 99. *)
Definition demo_two_set : ImPlot3DColormapData :=
  match SetKeyColor (H := demo_host) demo_two 0 1 99 with
  | Some d' => d'
  | None => demo_two
  end.

(** The double 1.0 and the float 2.0. *)
Definition double_one : spec_float := S754_finite false (2 ^ 52) (-52).
Definition float_two : spec_float := S754_finite false 8388608 (-22).

(** A host whose hash is the length of the name, so that names of one
    length collide; it builds with [IMPLOT_MIX64]. *)
Definition length_host : Host :=
  {| ImHashStr := λ s, Z.of_nat (String.length s);
     CalcTextSize := λ s, mkImVec2 (F32.of_int (7 * Z.of_nat (String.length s)))
                                   (F32.of_int 13);
     IMPLOT_MIX64 := true |}.

(** The registry that holds the palette "A" under that host. *)
Definition demo_length : ImPlot3DColormapData :=
  match Append (H := length_host) "A" [1; 2] 2 true ImPlot3DColormapData_new with
  | Some (d', _) => d'
  | None => ImPlot3DColormapData_new
  end.

(** The float [8421504 * 2^-32], about 0.00196078. *)
Definition t_near_half_step : spec_float := S754_finite false 8421504 (-32).

(* ================================================================== *)
(** * Vectors, loops and offsets *)

Section Vectors.
Context {A : Type}.
Implicit Types (v : list A) (x : A).

Lemma at_of_nat v (n : nat) : ImVector.at_ v (Z.of_nat n) = v !! n.
Proof.
  unfold ImVector.at_. rewrite decide_True by lia. by rewrite Nat2Z.id.
Qed.

Lemma at_Some v i x :
  ImVector.at_ v i = Some x ↔ 0 <= i ∧ v !! Z.to_nat i = Some x.
Proof.
  unfold ImVector.at_. case_decide; [tauto|]. split; [done|]. intros [? _]. lia.
Qed.

Lemma at_lt v i x : ImVector.at_ v i = Some x → 0 <= i < ImVector.size v.
Proof.
  rewrite at_Some. intros [Hi Hl]. apply lookup_lt_Some in Hl.
  unfold ImVector.size. lia.
Qed.

Lemma at_None_ge v i : ImVector.size v <= i → ImVector.at_ v i = None.
Proof.
  unfold ImVector.at_, ImVector.size. intros Hi. case_decide; [|done].
  apply lookup_ge_None_2. lia.
Qed.

Lemma at_push_back_last v x :
  ImVector.at_ (ImVector.push_back v x) (ImVector.size v) = Some x.
Proof.
  unfold ImVector.size, ImVector.push_back. rewrite at_of_nat.
  by rewrite lookup_app_r, Nat.sub_diag.
Qed.

Lemma size_push_back v x :
  ImVector.size (ImVector.push_back v x) = ImVector.size v + 1.
Proof. unfold ImVector.size, ImVector.push_back. rewrite length_app. simpl. lia. Qed.

End Vectors.

Section Loops.
Context {S : Type}.
Implicit Types (body : Z → S → option S).

(** A loop whose every iteration keeps an invariant runs to its end. *)
Lemma for_loop_invariant (P : Z → S → Prop) body (n : nat) (i : Z) (s : S) :
  P i s →
  (∀ j s, i <= j < i + Z.of_nat n → P j s → ∃ s', body j s = Some s' ∧ P (j + 1) s') →
  ∃ s', for_loop n i body s = Some s' ∧ P (i + Z.of_nat n) s'.
Proof.
  revert i s. induction n as [|n IH]; intros i s Hs Hstep.
  - exists s. simpl. by rewrite Z.add_0_r.
  - destruct (Hstep i s) as (s1 & Hb & Hs1); [lia|done|].
    destruct (IH (i + 1) s1) as (s2 & Hl & Hs2); [done| |].
    + intros j s' Hj. apply Hstep. lia.
    + exists s2. simpl. rewrite Hb. simpl. split; [done|].
      by replace (i + Z.of_nat (Datatypes.S n)) with (i + 1 + Z.of_nat n) by lia.
Qed.

Lemma for_range_invariant (P : Z → S → Prop) body (lo hi : Z) (s : S) :
  lo <= hi → P lo s →
  (∀ j s, lo <= j < hi → P j s → ∃ s', body j s = Some s' ∧ P (j + 1) s') →
  ∃ s', for_range lo hi body s = Some s' ∧ P hi s'.
Proof.
  intros Hle Hs Hstep. unfold for_range.
  destruct (for_loop_invariant P body (Z.to_nat (hi - lo)) lo s) as (s' & Hl & Hs');
    [done| |].
  - intros j s' Hj. apply Hstep. lia.
  - exists s'. split; [done|]. by replace hi with (lo + Z.of_nat (Z.to_nat (hi - lo))) by lia.
Qed.

Lemma for_range_empty body (lo hi : Z) (s : S) :
  hi <= lo → for_range lo hi body s = Some s.
Proof. intros Hle. unfold for_range. by replace (Z.to_nat (hi - lo)) with 0%nat by lia. Qed.

(** A loop that returns ran every iteration. *)
Lemma for_loop_Some_inv body (n : nat) (i : Z) (s s' : S) :
  for_loop n i body s = Some s' →
  ∀ j, i <= j < i + Z.of_nat n → ∃ s1 s2, body j s1 = Some s2.
Proof.
  revert i s. induction n as [|n IH]; intros i s Hl j Hj; [lia|].
  simpl in Hl. destruct (body i s) as [s1|] eqn:Hb; [|done]. simpl in Hl.
  destruct (decide (j = i)) as [->|Hne]; [eauto|].
  apply (IH (i + 1) s1 Hl). lia.
Qed.

End Loops.

(** A loop that pushes one value per iteration appends them in order. *)
Lemma for_loop_push {A} (f : Z → option A) (g : Z → A) (n : nat) (i : Z) (acc : list A) :
  (∀ j, i <= j < i + Z.of_nat n → f j = Some (g j)) →
  for_loop n i (λ j acc, x ← f j; Some (ImVector.push_back acc x)) acc
  = Some (acc ++ (g <$> seqZ i (Z.of_nat n))).
Proof.
  revert i acc. induction n as [|n IH]; intros i acc Hf.
  - simpl. by rewrite app_nil_r.
  - simpl. rewrite Hf by lia. simpl. rewrite IH by (intros; apply Hf; lia).
    unfold ImVector.push_back. rewrite <- app_assoc. do 2 f_equal.
    rewrite Nat2Z.inj_succ, (seqZ_cons i) by lia.
    by rewrite fmap_cons, Z.pred_succ.
Qed.

Lemma sum_sizes_cons x xs : sum_sizes (x :: xs) = x + sum_sizes xs.
Proof. reflexivity. Qed.

Lemma sum_sizes_app xs ys : sum_sizes (xs ++ ys) = sum_sizes xs + sum_sizes ys.
Proof.
  induction xs as [|x xs IH]; [done|].
  rewrite <- app_comm_cons, !sum_sizes_cons, IH. lia.
Qed.

Lemma sum_sizes_length {A} (ls : list (list A)) :
  sum_sizes ((λ l, Z.of_nat (length l)) <$> ls) = Z.of_nat (length (concat ls)).
Proof.
  induction ls as [|l ls IH]; [done|].
  rewrite fmap_cons, sum_sizes_cons, IH. simpl. rewrite length_app. lia.
Qed.

Lemma length_offsets_from start sizes :
  length (offsets_from start sizes) = length sizes.
Proof. revert start. induction sizes; intros; simpl; auto. Qed.

Lemma offsets_from_app start xs ys :
  offsets_from start (xs ++ ys) = offsets_from start xs ++ offsets_from (start + sum_sizes xs) ys.
Proof.
  revert start. induction xs as [|x xs IH]; intros start; simpl.
  - by rewrite Z.add_0_r.
  - rewrite IH, sum_sizes_cons. do 3 f_equal. lia.
Qed.

Lemma offsets_from_lookup start sizes (i : nat) :
  (i < length sizes)%nat →
  offsets_from start sizes !! i = Some (start + sum_sizes (take i sizes)).
Proof.
  revert start i. induction sizes as [|x xs IH]; intros start i Hi; simpl in *; [lia|].
  destruct i as [|i]; simpl.
  - by rewrite Z.add_0_r.
  - rewrite IH by lia. rewrite sum_sizes_cons. f_equal. lia.
Qed.

Lemma concat_lookup_block {A} (ls : list (list A)) (i j : nat) l :
  ls !! i = Some l → (j < length l)%nat →
  concat ls !! (length (concat (take i ls)) + j)%nat = l !! j.
Proof.
  revert i. induction ls as [|l0 ls IH]; intros i Hi Hj; [done|].
  destruct i as [|i]; simpl in *.
  - simplify_eq. by rewrite lookup_app_l.
  - rewrite length_app, <- Nat.add_assoc, lookup_app_r by lia.
    replace (length l0 + (length (concat (take i ls)) + j) - length l0)%nat
      with (length (concat (take i ls)) + j)%nat by lia.
    by apply IH.
Qed.

Lemma concat_block {A} (ls : list (list A)) (i : nat) l :
  ls !! i = Some l →
  take (length l) (drop (length (concat (take i ls))) (concat ls)) = l.
Proof.
  intros Hi. rewrite <- (take_drop_middle ls i l Hi) at 2.
  rewrite concat_app, drop_app_length. simpl. by rewrite take_app_length.
Qed.

Lemma for_loop_ext {S} (body1 body2 : Z → S → option S) (n : nat) (i : Z) (s : S) :
  (∀ j s, i <= j < i + Z.of_nat n → body1 j s = body2 j s) →
  for_loop n i body1 s = for_loop n i body2 s.
Proof.
  revert i s. induction n as [|n IH]; intros i s Hext; [done|].
  simpl. rewrite Hext by lia. destruct (body2 i s) as [s'|]; [|done].
  simpl. apply IH. intros. apply Hext. lia.
Qed.

(** Copying the first [n] elements that [read] finds in [src]. *)
Lemma for_range_copy (src : list Z) (read : Z → option Z) (n : Z) (acc : list Z) :
  0 <= n <= Z.of_nat (length src) →
  (∀ j : nat, Z.of_nat j < n → read (Z.of_nat j) = src !! j) →
  for_range 0 n (λ i acc, x ← read i; Some (ImVector.push_back acc x)) acc
  = Some (acc ++ take (Z.to_nat n) src).
Proof.
  intros Hn Hread. unfold for_range. rewrite Z.sub_0_r.
  rewrite (for_loop_push read (λ j, default 0 (src !! Z.to_nat j))).
  - do 2 f_equal. apply list_eq. intros k.
    rewrite list_lookup_fmap, Z2Nat.id by lia.
    destruct (decide (k < Z.to_nat n)%nat) as [Hk|Hk].
    + rewrite lookup_seqZ_lt by lia. simpl. rewrite lookup_take_lt by lia.
      rewrite Z.add_0_l, Nat2Z.id.
      destruct (lookup_lt_is_Some_2 src k) as [x Hx]; [lia|]. by rewrite Hx.
    + rewrite lookup_seqZ_ge by lia. simpl. symmetry. apply lookup_ge_None_2.
      rewrite length_take. lia.
  - intros j Hj. rewrite <- (Z2Nat.id j) at 1 by lia. rewrite Hread by lia.
    destruct (lookup_lt_is_Some_2 src (Z.to_nat j)) as [x Hx]; [lia|]. by rewrite Hx.
Qed.

(* ================================================================== *)
(** * The blend and the ramp *)

Lemma u32_testbit_high a n : is_u32 a → 32 <= n → Z.testbit a n = false.
Proof.
  intros [Ha0 Ha1] Hn. destruct (Z.eq_dec a 0) as [->|Hne]; [apply Z.bits_0|].
  apply Z.bits_above_log2; [lia|].
  assert (Z.log2 a < 32); [|lia].
  apply Z.log2_lt_pow2; lia.
Qed.

Lemma testbit_mask_lo n :
  Z.testbit 0x00ff00ff n = ((0 <=? n) && (n <? 8) || (16 <=? n) && (n <? 24)).
Proof.
  destruct (Z_lt_le_dec n 0) as [Hneg|Hpos].
  { rewrite Z.testbit_neg_r by lia. lia. }
  destruct (Z_lt_le_dec n 24) as [Hlt|Hge].
  - assert (Hc : n = 0 ∨ n = 1 ∨ n = 2 ∨ n = 3 ∨ n = 4 ∨ n = 5 ∨ n = 6 ∨ n = 7 ∨
      n = 8 ∨ n = 9 ∨ n = 10 ∨ n = 11 ∨ n = 12 ∨ n = 13 ∨ n = 14 ∨ n = 15 ∨
      n = 16 ∨ n = 17 ∨ n = 18 ∨ n = 19 ∨ n = 20 ∨ n = 21 ∨ n = 22 ∨ n = 23) by lia.
    repeat (destruct Hc as [-> | Hc]); try subst n; reflexivity.
  - rewrite Z.bits_above_log2 by (change (Z.log2 0x00ff00ff) with 23; lia). lia.
Qed.

Lemma testbit_mask_hi n :
  Z.testbit 0xff00ff00 n = ((8 <=? n) && (n <? 16) || (24 <=? n) && (n <? 32)).
Proof.
  change 0xff00ff00 with (Z.shiftl 0x00ff00ff 8).
  destruct (Z_lt_le_dec n 0) as [Hneg|Hpos].
  { rewrite Z.testbit_neg_r by lia. lia. }
  rewrite Z.shiftl_spec, testbit_mask_lo by lia. lia.
Qed.

(** One step of pushing [Z.testbit] through a bitwise expression. *)
Ltac bits_step :=
  match goal with
  | |- context [Z.testbit ?a ?i] => rewrite (Z.testbit_neg_r a i) by lia
  | |- context [Z.testbit (Z.lor _ _) _] => rewrite Z.lor_spec
  | |- context [Z.testbit (Z.land _ _) _] => rewrite Z.land_spec
  | |- context [Z.testbit (Z.shiftr _ _) _] => rewrite Z.shiftr_spec by lia
  | |- context [Z.testbit (Z.shiftl _ _) _] => rewrite Z.shiftl_spec by lia
  | |- context [Z.testbit (Z.ones _) _] => rewrite Z.testbit_ones_nonneg by lia
  | |- context [Z.testbit 0x00ff00ff _] => rewrite testbit_mask_lo
  | |- context [Z.testbit 0xff00ff00 _] => rewrite testbit_mask_hi
  end.

(** Settle the comparisons the masks leave, once the bit's byte is known. *)
Ltac decide_cmp :=
  repeat match goal with
  | |- context [?x <? ?y] =>
      first [replace (x <? y) with true by lia | replace (x <? y) with false by lia]
  | |- context [?x <=? ?y] =>
      first [replace (x <=? y) with true by lia | replace (x <=? y) with false by lia]
  end.

Ltac norm_index :=
  repeat match goal with
  | |- context [Z.testbit ?a ?i] =>
      lazymatch i with
      | context [Z.add] => idtac | context [Z.sub] => idtac
      end;
      first [ rewrite (Z.testbit_neg_r a i) by lia
            | match goal with n : Z |- _ => replace i with n by lia end ]
  end.

Ltac mix_bits n :=
  destruct (Z_lt_le_dec n 32);
  [ destruct (Z_lt_le_dec n 8);
    [|destruct (Z_lt_le_dec n 16); [|destruct (Z_lt_le_dec n 24)]];
    repeat bits_step; decide_cmp; cbn [andb orb]; norm_index;
    rewrite ?andb_true_r, ?andb_false_r, ?orb_false_r, ?orb_false_l; reflexivity
  | repeat bits_step; decide_cmp; cbn [andb orb]; rewrite ?andb_false_r; cbn [orb];
    symmetry; apply u32_testbit_high; assumption ].

Lemma ImMixU32_mix32_0 a b : is_u32 a → ImMixU32_mix32 a b 0 = a.
Proof.
  intros Ha. unfold ImMixU32_mix32, wrap32.
  rewrite !Z.mul_0_r, !Z.add_0_r, Z.sub_0_r.
  change (256 mod 2 ^ 32) with (2 ^ 8).
  rewrite <- !Z.shiftl_mul_pow2 by lia.
  rewrite <- !Z.land_ones by lia.
  apply Z.bits_inj'. intros n Hn. mix_bits n.
Qed.

Lemma ImMixU32_mix64_0 a b : is_u32 a → ImMixU32_mix64 a b 0 = a.
Proof.
  intros Ha. unfold ImMixU32_mix64, wrap32, wrap64.
  rewrite !Z.mul_0_r, !Z.add_0_r, Z.sub_0_r.
  change (256 mod 2 ^ 32) with (2 ^ 8).
  rewrite <- !Z.shiftl_mul_pow2 by lia.
  rewrite <- !Z.land_ones by lia.
  apply Z.bits_inj'. intros n Hn. mix_bits n.
Qed.

Section Ramp.
Context `{Host}.

(** Mixing with factor 0 returns the first color: a segment starts at its
    left key. *)
Lemma ImMixU32_0 a b : is_u32 a → ImMixU32 a b 0 = a.
Proof.
  intros Ha. unfold ImMixU32.
  destruct IMPLOT_MIX64; [by apply ImMixU32_mix64_0 | by apply ImMixU32_mix32_0].
Qed.

Lemma length_ramp_segment a b : length (ramp_segment a b) = 255%nat.
Proof. unfold ramp_segment. by rewrite length_fmap, length_seqZ. Qed.

Lemma ramp_cons2 a b rest : ramp (a :: b :: rest) = ramp_segment a b ++ ramp (b :: rest).
Proof. reflexivity. Qed.

Lemma length_ramp keys :
  keys ≠ [] → length (ramp keys) = (255 * (length keys - 1) + 1)%nat.
Proof.
  induction keys as [|a [|b rest] IH]; intros Hne; [done|done|].
  rewrite ramp_cons2, length_app, length_ramp_segment, IH by done.
  simpl. lia.
Qed.

Lemma ramp_first a rest : is_u32 a → ramp (a :: rest) !! 0%nat = Some a.
Proof.
  intros Ha. destruct rest as [|b rest]; [done|].
  rewrite ramp_cons2. unfold ramp_segment.
  rewrite (seqZ_cons 0) by lia. rewrite fmap_cons. simpl. by rewrite ImMixU32_0.
Qed.

Lemma ramp_last keys : last (ramp keys) = last keys.
Proof.
  induction keys as [|a [|b rest] IH]; [done|done|].
  rewrite ramp_cons2, last_app, IH.
  change (last (a :: b :: rest)) with (last (b :: rest)).
  destruct (last (b :: rest)) eqn:E; [done|].
  by apply last_None in E.
Qed.

End Ramp.

(* ================================================================== *)
(** * Building one table *)

Section Tables.
Context `{Host}.
Implicit Types (d : ImPlot3DColormapData) (cms : list colormap) (c : colormap).

Lemma sum_sizes_key_count cms :
  sum_sizes (key_count <$> cms) = Z.of_nat (length (concat (cm_keys <$> cms))).
Proof. rewrite <- sum_sizes_length, <- list_fmap_compose. done. Qed.

Lemma sum_sizes_table_size cms :
  sum_sizes (table_size <$> cms) = Z.of_nat (length (concat (table_of <$> cms))).
Proof. rewrite <- sum_sizes_length, <- list_fmap_compose. done. Qed.

Lemma repr_keys_with_tables cms d tables sizes offsets :
  repr_keys cms d → repr_keys cms (with_tables d tables sizes offsets).
Proof. intros []. by split. Qed.

Lemma with_tables_id d : with_tables d (Tables d) (TableSizes d) (TableOffsets d) = d.
Proof. by destruct d. Qed.

Section Lookups.
Context cms d (Hk : repr_keys cms d).

Lemma repr_GetKeyCount (n : nat) c :
  cms !! n = Some c → GetKeyCount d (Z.of_nat n) = Some (key_count c).
Proof.
  intros Hc. unfold GetKeyCount. rewrite at_of_nat, (repr_KeyCounts _ _ Hk).
  by rewrite list_lookup_fmap, Hc.
Qed.

Lemma repr_IsQual (n : nat) c :
  cms !! n = Some c → IsQual d (Z.of_nat n) = Some (cm_qual c).
Proof.
  intros Hc. unfold IsQual. rewrite at_of_nat, (repr_Quals _ _ Hk).
  by rewrite list_lookup_fmap, Hc.
Qed.

Lemma repr_KeyOffsets_at (n : nat) c :
  cms !! n = Some c → ImVector.at_ (KeyOffsets d) (Z.of_nat n) = Some (key_offset cms n).
Proof.
  intros Hc. rewrite at_of_nat, (repr_KeyOffsets _ _ Hk).
  rewrite offsets_from_lookup.
  - by rewrite <- fmap_take, sum_sizes_key_count.
  - rewrite length_fmap. by eapply lookup_lt_Some.
Qed.

Lemma repr_Keys_at (n j : nat) c :
  cms !! n = Some c → (j < length (cm_keys c))%nat →
  ImVector.at_ (Keys d) (key_offset cms n + Z.of_nat j) = cm_keys c !! j.
Proof.
  intros Hc Hj. unfold key_offset. rewrite <- Nat2Z.inj_add, at_of_nat.
  rewrite (repr_Keys _ _ Hk), fmap_take.
  apply concat_lookup_block; [|done]. by rewrite list_lookup_fmap, Hc.
Qed.

Lemma repr_GetKeys (n : nat) c :
  cms !! n = Some c → GetKeys d (Z.of_nat n) = Some (key_offset cms n).
Proof.
  intros Hc. unfold GetKeys. rewrite (repr_KeyOffsets_at n c Hc). simpl.
  pose proof (repr_ok _ _ Hk) as Hok.
  rewrite Forall_lookup in Hok. destruct (Hok n c Hc) as (Hne & _ & _).
  destruct (cm_keys c) as [|k ks] eqn:Hkeys; [done|].
  pose proof (repr_Keys_at n 0 c Hc) as Hat. rewrite Hkeys in Hat.
  rewrite Z.add_0_r in Hat. rewrite Hat by (simpl; lia). done.
Qed.

Lemma repr_GetKeyColor (n j : nat) c :
  cms !! n = Some c → (j < length (cm_keys c))%nat →
  GetKeyColor d (Z.of_nat n) (Z.of_nat j) = cm_keys c !! j.
Proof.
  intros Hc Hj. unfold GetKeyColor. rewrite (repr_KeyOffsets_at n c Hc). simpl.
  by apply repr_Keys_at.
Qed.

End Lookups.

Lemma for_loop_S {S} (body : Z → S → option S) (n : nat) (i : Z) (s : S) :
  for_loop (Datatypes.S n) i body s = body i s ≫= for_loop n (i + 1) body.
Proof. reflexivity. Qed.

(** The inner loop of the continuous branch emits one segment. *)
Lemma segment_loop (K : list Z) (off i a b : Z) (T : list Z) :
  ImVector.at_ K (off + i) = Some a →
  ImVector.at_ K (off + (i + 1)) = Some b →
  for_range 0 255 (λ s tables,
    a ← ImVector.at_ K (off + i);
    b ← ImVector.at_ K (off + (i + 1));
    Some (ImVector.push_back tables (ImMixU32 a b s))) T
  = Some (T ++ ramp_segment a b).
Proof.
  intros Ha Hb. unfold for_range.
  rewrite (for_loop_ext _ (λ s acc, x ← Some (ImMixU32 a b s);
                                    Some (ImVector.push_back acc x))).
  2:{ intros s acc _. by rewrite Ha, Hb. }
  by rewrite (for_loop_push (λ s, Some (ImMixU32 a b s)) (ImMixU32 a b)).
Qed.

(** The two nested loops of the continuous branch leave the ramp without
    its last entry. *)
Lemma ramp_loop (K : list Z) (off : Z) (ks : list Z) (i0 : Z) (T : list Z) :
  ks ≠ [] →
  (∀ j : nat, (j < length ks)%nat → ImVector.at_ K (off + (i0 + Z.of_nat j)) = ks !! j) →
  ∃ T' k,
    for_loop (length ks - 1) i0 (λ i tables,
      for_range 0 255 (λ s tables,
        a ← ImVector.at_ K (off + i);
        b ← ImVector.at_ K (off + (i + 1));
        Some (ImVector.push_back tables (ImMixU32 a b s))) tables) T = Some T'
    ∧ last ks = Some k ∧ T' ++ [k] = T ++ ramp ks.
Proof.
  revert i0 T. induction ks as [|a [|b rest] IH]; intros i0 T Hne Hread; [done| |].
  - exists T, a. done.
  - destruct (IH (i0 + 1) (T ++ ramp_segment a b)) as (T' & k & Hloop & Hlast & Happ);
      [done| |].
    { intros j Hj. specialize (Hread (Datatypes.S j)).
      replace (i0 + 1 + Z.of_nat j) with (i0 + Z.of_nat (Datatypes.S j)) by lia.
      rewrite Hread by (simpl in *; lia). done. }
    exists T', k. split; [|split].
    + replace (length (a :: b :: rest) - 1)%nat with (Datatypes.S (length (b :: rest) - 1))
        by (simpl; lia).
      pose proof (Hread 0%nat ltac:(simpl; lia)) as Ha.
      pose proof (Hread 1%nat ltac:(simpl; lia)) as Hb.
      rewrite Z.add_0_r in Ha. change (Z.of_nat 1) with 1 in Hb. simpl in Ha, Hb.
      rewrite for_loop_S, (segment_loop K off i0 a b T Ha Hb). exact Hloop.
    + done.
    + rewrite Happ, ramp_cons2. by rewrite <- app_assoc.
Qed.

Lemma as_int_Some x : INT_MIN <= x <= INT_MAX → as_int x = Some x.
Proof. intros Hx. unfold as_int. by rewrite decide_True. Qed.

Lemma as_int_inv x y : as_int x = Some y → y = x ∧ INT_MIN <= x <= INT_MAX.
Proof. unfold as_int. case_decide; [|done]. by intros [= <-]. Qed.

(** The three steps of [max_size] for a table that fits. *)
Lemma max_size_fits (k : Z) :
  1 <= k → 255 * (k - 1) + 1 <= INT_MAX →
  as_int (k - 1) = Some (k - 1) ∧ as_int (255 * (k - 1)) = Some (255 * (k - 1))
  ∧ as_int (255 * (k - 1) + 1) = Some (255 * (k - 1) + 1).
Proof.
  intros Hk Hfit. unfold INT_MAX in Hfit.
  repeat split; apply as_int_Some; unfold INT_MIN, INT_MAX; lia.
Qed.

Lemma AppendTable_spec cms (n : nat) d c :
  repr_keys cms d → repr_tables cms n d → cms !! n = Some c →
  let d' := with_tables d (Tables d ++ table_of c) (TableSizes d ++ [table_size c])
              (TableOffsets d ++ [ImVector.size (Tables d)]) in
  _AppendTable d (Z.of_nat n) = Some d' ∧ repr_keys cms d' ∧ repr_tables cms (Datatypes.S n) d'.
Proof.
  intros Hk Ht Hc d'.
  assert (Hd' : repr_tables cms (Datatypes.S n) d').
  { destruct Ht as [HT HS HO]. split; simpl.
    - rewrite (take_S_r _ _ _ Hc), fmap_app, concat_app, HT. simpl. by rewrite app_nil_r.
    - rewrite (take_S_r _ _ _ Hc), fmap_app, HS. done.
    - rewrite (take_S_r _ _ _ Hc), fmap_app, offsets_from_app, HO. simpl.
      rewrite sum_sizes_table_size, HT. done. }
  split; [|split; [by apply repr_keys_with_tables | done]].
  pose proof (repr_ok _ _ Hk) as Hok.
  rewrite Forall_lookup in Hok. destruct (Hok n c Hc) as (Hne & _ & _).
  unfold _AppendTable.
  rewrite (repr_GetKeyCount cms d Hk n c Hc). simpl.
  rewrite (repr_GetKeys cms d Hk n c Hc). simpl.
  rewrite (repr_IsQual cms d Hk n c Hc). simpl.
  unfold d', table_size, table_of, build_table. destruct (cm_qual c) eqn:Hq.
  - rewrite (for_range_copy (cm_keys c)).
    + simpl. unfold key_count. rewrite Nat2Z.id, firstn_all. done.
    + unfold key_count. lia.
    + intros j Hj. apply (repr_Keys_at cms d Hk n j c Hc). unfold key_count in Hj. lia.
  - pose proof (repr_fits _ _ Hk) as Hfits. rewrite Forall_lookup in Hfits.
    assert (Hk1 : 1 <= key_count c).
    { unfold key_count. destruct (cm_keys c); [done|simpl; lia]. }
    destruct (max_size_fits (key_count c) Hk1 (Hfits n c Hc Hq)) as (Hi1 & Hi2 & Hi3).
    rewrite Hi1. cbn [mbind option_bind]. rewrite Hi2. cbn [mbind option_bind].
    rewrite Hi3. cbn [mbind option_bind].
    destruct (ramp_loop (Keys d) (key_offset cms n) (cm_keys c) 0 (Tables d) Hne)
      as (T' & k & Hloop & Hlast & Happ).
    { intros j Hj. rewrite Z.add_0_l. by apply (repr_Keys_at cms d Hk n j c Hc). }
    unfold for_range at 1. rewrite Z.sub_0_r.
    replace (Z.to_nat (key_count c - 1)) with (length (cm_keys c) - 1)%nat
      by (unfold key_count; lia).
    rewrite Hloop. simpl.
    assert (Hlen : (0 < length (cm_keys c))%nat).
    { destruct (cm_keys c); [done|simpl; lia]. }
    replace (key_count c - 1) with (Z.of_nat (length (cm_keys c) - 1))
      by (unfold key_count; lia).
    rewrite (repr_Keys_at cms d Hk n _ c Hc) by lia.
    rewrite last_lookup in Hlast.
    replace (Init.Nat.pred (length (cm_keys c))) with (length (cm_keys c) - 1)%nat in Hlast by lia.
    rewrite Hlast. simpl. unfold ImVector.push_back. rewrite Happ.
    rewrite length_ramp by done. do 4 f_equal. lia.
Qed.

End Tables.

(* ================================================================== *)
(** * The name buffer *)

Lemma length_list_ascii_of_string s :
  length (list_ascii_of_string s) = String.length s.
Proof. induction s as [|a s IH]; simpl; auto. Qed.

Lemma length_c_str s : Z.of_nat (length (c_str s)) = Z.of_nat (String.length s) + 1.
Proof. unfold c_str. rewrite length_app, length_list_ascii_of_string. simpl. lia. Qed.

Lemma text_image_cons n0 names :
  text_image (n0 :: names) = concat (c_str <$> n0 :: names) ++ [NUL].
Proof. reflexivity. Qed.

Lemma text_image_snoc names name :
  ImGuiTextBuffer.append (text_image names) (c_str name) = text_image (names ++ [name]).
Proof.
  destruct names as [|n0 names].
  - unfold ImGuiTextBuffer.append. simpl. by rewrite app_nil_r.
  - rewrite <- app_comm_cons, !text_image_cons, app_comm_cons.
    unfold ImGuiTextBuffer.append.
    rewrite decide_False by (rewrite length_app; simpl; lia).
    replace (length (concat (c_str <$> n0 :: names) ++ [NUL]) - 1)%nat
      with (length (concat (c_str <$> n0 :: names))) by (rewrite length_app; simpl; lia).
    rewrite take_app_length, fmap_app, concat_app.
    simpl. by rewrite app_nil_r, <- !app_assoc.
Qed.

Lemma size_text_image names :
  ImGuiTextBuffer.size (text_image names)
  = Z.of_nat (length (concat (c_str <$> names))).
Proof.
  unfold ImGuiTextBuffer.size, text_image, ImVector.size. destruct names as [|n0 names].
  - done.
  - rewrite decide_False by (rewrite length_app; simpl; lia).
    rewrite length_app. simpl. lia.
Qed.

Lemma read_c_str s rest :
  no_nul s →
  ImGuiTextBuffer.read (c_str s ++ rest) = Some (list_ascii_of_string s).
Proof.
  unfold no_nul, c_str. induction (list_ascii_of_string s) as [|a l IH]; intros Hn.
  - done.
  - simpl. destruct (Ascii.eqb a NUL) eqn:E.
    + apply Ascii.eqb_eq in E. subst. exfalso. apply Hn. by left.
    + rewrite IH; [done|]. intros Hin. apply Hn. by right.
Qed.

Section AppendProofs.
Context `{Host}.
Implicit Types (d : ImPlot3DColormapData) (cms : list colormap) (c : colormap).

Lemma sum_sizes_name_size cms :
  sum_sizes (name_size <$> cms) = Z.of_nat (length (concat (c_str <$> (cm_name <$> cms)))).
Proof.
  rewrite <- sum_sizes_length, <- !list_fmap_compose. f_equal.
  apply list_fmap_ext. intros _ c _. simpl. unfold name_size. by rewrite length_c_str.
Qed.

(** A name is free exactly when nothing is stored under its hash. *)
Lemma repr_GetIndex_free cms d name :
  repr_keys cms d → (GetIndex d name = -1 ↔ Map d !! ImHashStr name = None).
Proof.
  intros Hk. unfold GetIndex, ImGuiStorage.GetInt.
  destruct (Map d !! ImHashStr name) as [v|] eqn:E; simpl; [|done].
  destruct (repr_Map_index _ _ Hk _ _ E) as (i & c & -> & _). split; [lia|done].
Qed.

Lemma repr_GetIndex_free_names cms d name :
  repr_keys cms d →
  (∀ c, c ∈ cms → ImHashStr (cm_name c) ≠ ImHashStr name) → GetIndex d name = -1.
Proof.
  intros Hk Hall. apply (repr_GetIndex_free cms d name Hk).
  destruct (Map d !! ImHashStr name) as [v|] eqn:E; [|done].
  destruct (repr_Map_index _ _ Hk _ _ E) as (i & c & _ & Hc & Hh).
  exfalso. apply (Hall c); [|done]. by eapply list_elem_of_lookup_2.
Qed.

Lemma repr_GetIndex cms d (n : nat) c :
  repr_keys cms d → cms !! n = Some c → GetIndex d (cm_name c) = Z.of_nat n.
Proof.
  intros Hk Hc. unfold GetIndex, ImGuiStorage.GetInt.
  by rewrite (repr_Map_name _ _ Hk n c Hc).
Qed.

(** The registry after the key-side writes of [Append]. *)
Lemma Append_keys_repr cms d name keys qual :
  repr_keys cms d → GetIndex d name = -1 →
  keys ≠ [] → Forall is_u32 keys → no_nul name →
  table_fits (mkColormap name keys qual) →
  repr_keys (cms ++ [mkColormap name keys qual])
    (mkColormapData (Keys d ++ keys)
       (ImVector.push_back (KeyCounts d) (Z.of_nat (length keys)))
       (ImVector.push_back (KeyOffsets d) (ImVector.size (Keys d)))
       (Tables d) (TableSizes d) (TableOffsets d)
       (ImGuiTextBuffer.append (Text d) (c_str name))
       (ImVector.push_back (TextOffsets d) (ImGuiTextBuffer.size (Text d)))
       (ImVector.push_back (Quals d) qual)
       (ImGuiStorage.SetInt (Map d) (ImHashStr name) (Count d))
       (Count d + 1)).
Proof.
  intros Hk Hfree Hne Hu32 Hnul Hfit.
  pose proof (proj1 (repr_GetIndex_free cms d name Hk) Hfree) as Hnone.
  destruct Hk as [HK HKC HKO HT HTO HQ HC HMn HMi Hok Hfits].
  unfold ImVector.push_back, ImVector.size, ImGuiStorage.SetInt.
  split; simpl.
  - rewrite fmap_app, concat_app, HK. simpl. by rewrite app_nil_r.
  - by rewrite fmap_app, HKC.
  - rewrite fmap_app, offsets_from_app, HKO. simpl.
    by rewrite sum_sizes_key_count, HK.
  - by rewrite fmap_app, HT, text_image_snoc.
  - rewrite fmap_app, offsets_from_app, HTO. simpl.
    by rewrite sum_sizes_name_size, HT, size_text_image.
  - by rewrite fmap_app, HQ.
  - rewrite length_app, HC. simpl. lia.
  - intros i c Hi. apply lookup_app_Some in Hi as [Hi|[Hlen Hi]].
    + rewrite lookup_insert_ne; [by apply HMn|].
      intros Heq. rewrite Heq, (HMn i c Hi) in Hnone. congruence.
    + apply list_lookup_singleton_Some in Hi as [Hi <-]. simpl.
      rewrite lookup_insert_eq, HC. f_equal. lia.
  - intros h v Hv.
    destruct (decide (ImHashStr name = h)) as [<-|Hne'].
    + rewrite lookup_insert_eq in Hv. simplify_eq.
      exists (length cms), (mkColormap name keys qual).
      split; [lia|]. split; [|done]. by rewrite lookup_app_r, Nat.sub_diag.
    + rewrite lookup_insert_ne in Hv by done.
      destruct (HMi h v Hv) as (i & c & -> & Hc & Hh).
      exists i, c. split; [done|]. split; [|done]. by apply lookup_app_l_Some.
  - apply Forall_app. split; [done|]. apply Forall_singleton. done.
  - apply Forall_app. split; [done|]. apply Forall_singleton. done.
Qed.

Lemma Append_fresh cms d name keys count qual :
  repr cms d → GetIndex d name = -1 →
  1 <= count <= Z.of_nat (length keys) → Forall is_u32 keys → no_nul name →
  (qual = false → 255 * (count - 1) + 1 <= INT_MAX) →
  ∃ d', Append name keys count qual d = Some (d', Z.of_nat (length cms))
        ∧ repr (cms ++ [mkColormap name (take (Z.to_nat count) keys) qual]) d'.
Proof.
  intros [Hk Ht] Hfree Hcount Hu32 Hnul Hfit.
  set (c := mkColormap name (take (Z.to_nat count) keys) qual).
  unfold Append. rewrite decide_False by (intros Hne; by apply Hne).
  rewrite (for_range_copy keys) by (first [lia | intros; apply at_of_nat]).
  cbn [mbind option_bind].
  assert (Hlen : Z.of_nat (length (take (Z.to_nat count) keys)) = count).
  { rewrite length_take. lia. }
  assert (Hk1 := Append_keys_repr cms d name (take (Z.to_nat count) keys) qual Hk Hfree).
  rewrite Hlen in Hk1.
  match type of Hk1 with _ → _ → _ → _ → repr_keys _ ?x => set (d1 := x) in * end.
  assert (Hk1' : repr_keys (cms ++ [c]) d1).
  { apply Hk1; [|by apply Forall_take|done|].
    - destruct keys; simpl in *; [lia|]. destruct (Z.to_nat count) eqn:E; [lia|done].
    - unfold table_fits, key_count. cbn [cm_qual cm_keys]. by rewrite Hlen. }
  assert (Ht1 : repr_tables (cms ++ [c]) (length cms) d1).
  { destruct Ht as [HT HS HO]. rewrite firstn_all in HT, HS, HO.
    split; unfold d1; simpl; by rewrite take_app_length. }
  assert (Hc : (cms ++ [c]) !! length cms = Some c).
  { by rewrite lookup_app_r, Nat.sub_diag. }
  destruct (AppendTable_spec _ _ _ _ Hk1' Ht1 Hc) as (Happ & Hk2 & Ht2).
  rewrite (repr_Count _ _ Hk), Happ. cbn [mbind option_bind].
  eexists. split; [done|]. split; [done|].
  rewrite length_app. simpl. by rewrite Nat.add_1_r.
Qed.

(** A continuous table is built only when its size is an [int]. *)
Lemma AppendTable_continuous_inv d cmap k d' :
  _AppendTable d cmap = Some d' → GetKeyCount d cmap = Some k →
  IsQual d cmap = Some false → 255 * (k - 1) + 1 <= INT_MAX.
Proof.
  unfold _AppendTable. intros Happ Hk Hq. rewrite Hk in Happ.
  cbn [mbind option_bind] in Happ.
  destruct (GetKeys d cmap) as [keys|]; [|done]. cbn [mbind option_bind] in Happ.
  rewrite Hq in Happ. cbn [mbind option_bind] in Happ.
  destruct (as_int (k - 1)) as [x1|] eqn:H1; [|done]. cbn [mbind option_bind] in Happ.
  destruct (as_int (255 * x1)) as [x2|] eqn:H2; [|done]. cbn [mbind option_bind] in Happ.
  destruct (as_int (x2 + 1)) as [x3|] eqn:H3; [|done].
  apply as_int_inv in H1 as [-> _]. apply as_int_inv in H2 as [-> _].
  apply as_int_inv in H3 as [_ H3]. lia.
Qed.

(** [Append] returns only in these two ways. *)
Lemma Append_inv cms d name keys count qual d' idx :
  repr cms d → Forall is_u32 keys → no_nul name →
  Append name keys count qual d = Some (d', idx) →
  (GetIndex d name ≠ -1 ∧ d' = d ∧ idx = -1)
  ∨ (GetIndex d name = -1 ∧ 1 <= count <= Z.of_nat (length keys)
     ∧ idx = Z.of_nat (length cms)
     ∧ repr (cms ++ [mkColormap name (take (Z.to_nat count) keys) qual]) d'
     ∧ (qual = false → 255 * (count - 1) + 1 <= INT_MAX)).
Proof.
  intros Hr Hu32 Hnul Happ.
  destruct (decide (GetIndex d name = -1)) as [Hfree|Hused].
  2:{ left. unfold Append in Happ. rewrite decide_True in Happ by done. by simplify_eq. }
  right. split; [done|].
  assert (Hcount : 1 <= count <= Z.of_nat (length keys)).
  { unfold Append in Happ. rewrite decide_False in Happ by (intros Hne; by apply Hne).
    destruct (for_range 0 count _ (Keys d)) as [keys'|] eqn:Hloop; [|done].
    cbn [mbind option_bind] in Happ.
    destruct (Z_lt_le_dec count 1) as [Hlow|Hlow].
    - exfalso. rewrite for_range_empty in Hloop by lia. simplify_eq.
      destruct (_AppendTable _ (Count d)) as [d1|] eqn:Ht; [|done].
      unfold _AppendTable, GetKeyCount, GetKeys in Ht. cbn -[ImVector.at_] in Ht.
      destruct Hr as [Hk _].
      assert (Hsz : Count d = ImVector.size (KeyCounts d)).
      { rewrite (repr_Count _ _ Hk), (repr_KeyCounts _ _ Hk).
        unfold ImVector.size. by rewrite length_fmap. }
      assert (Hsz' : Count d = ImVector.size (KeyOffsets d)).
      { rewrite (repr_Count _ _ Hk), (repr_KeyOffsets _ _ Hk).
        unfold ImVector.size. by rewrite length_offsets_from, length_fmap. }
      rewrite Hsz in Ht at 1. rewrite at_push_back_last in Ht.
      cbn -[ImVector.at_] in Ht.
      rewrite Hsz' in Ht at 1. rewrite at_push_back_last in Ht.
      cbn -[ImVector.at_] in Ht.
      rewrite at_None_ge in Ht by lia. done.
    - split; [done|].
      destruct (Z_lt_le_dec (Z.of_nat (length keys)) count) as [Hhigh|Hhigh]; [|done].
      exfalso. unfold for_range in Hloop.
      destruct (for_loop_Some_inv _ _ _ _ _ Hloop (Z.of_nat (length keys)))
        as (s1 & s2 & Hbody); [lia|].
      rewrite at_None_ge in Hbody by (unfold ImVector.size; lia). done. }
  split; [done|].
  assert (Hfit : qual = false → 255 * (count - 1) + 1 <= INT_MAX).
  { intros ->. unfold Append in Happ.
    rewrite decide_False in Happ by (intros Hne; by apply Hne).
    destruct (for_range 0 count _ (Keys d)) as [keys'|]; [|done].
    cbn [mbind option_bind] in Happ.
    destruct (_AppendTable _ (Count d)) as [d1|] eqn:Ht; [|done].
    destruct Hr as [Hk _].
    apply (AppendTable_continuous_inv _ _ count _ Ht).
    - unfold GetKeyCount. cbn [KeyCounts].
      replace (Count d) with (ImVector.size (KeyCounts d)) at 1; [apply at_push_back_last|].
      rewrite (repr_Count _ _ Hk), (repr_KeyCounts _ _ Hk).
      unfold ImVector.size. by rewrite length_fmap.
    - unfold IsQual. cbn [Quals].
      replace (Count d) with (ImVector.size (Quals d)) at 1; [apply at_push_back_last|].
      rewrite (repr_Count _ _ Hk), (repr_Quals _ _ Hk).
      unfold ImVector.size. by rewrite length_fmap. }
  destruct (Append_fresh cms d name keys count qual Hr Hfree Hcount Hu32 Hnul Hfit)
    as (d1 & Happ1 & Hr1).
  rewrite Happ in Happ1. by simplify_eq.
Qed.

End AppendProofs.

(* ================================================================== *)
(** * Rebuilding the tables, replacing a key *)

Section RebuildProofs.
Context `{Host}.
Implicit Types (d : ImPlot3DColormapData) (cms : list colormap) (c : colormap).

Lemma RebuildTables_spec cms d :
  repr_keys cms d →
  let d' := with_tables d (concat (table_of <$> cms)) (table_size <$> cms)
              (offsets_from 0 (table_size <$> cms)) in
  RebuildTables d = Some d' ∧ repr cms d'.
Proof.
  intros Hk d'. unfold RebuildTables.
  destruct (for_range_invariant
    (λ j s, ∃ n : nat, j = Z.of_nat n ∧ (n <= length cms)%nat ∧ repr_keys cms s
            ∧ repr_tables cms n s
            ∧ s = with_tables d (Tables s) (TableSizes s) (TableOffsets s))
    (λ i d, _AppendTable d i) 0 (Count d) (with_tables d [] [] []))
    as (s & Hloop & n & Hn & Hle & Hks & Hts & Hs).
  - rewrite (repr_Count _ _ Hk). lia.
  - exists 0%nat. split; [done|]. split; [lia|].
    split; [by apply repr_keys_with_tables|]. split; [by split|done].
  - intros j s Hj (n & -> & Hle & Hks & Hts & Hs).
    rewrite (repr_Count _ _ Hk) in Hj.
    destruct (lookup_lt_is_Some_2 cms n) as [c Hc]; [lia|].
    destruct (AppendTable_spec cms n s c Hks Hts Hc) as (Happ & Hks' & Hts').
    eexists. split; [exact Happ|]. exists (Datatypes.S n).
    split; [lia|]. split; [lia|]. split; [done|]. split; [done|].
    rewrite Hs at 1. done.
  - rewrite (repr_Count _ _ Hk) in Hn. apply Nat2Z.inj in Hn. subst n.
    assert (Hd' : s = d').
    { rewrite Hs. destruct Hts as [HT HS HO]. rewrite firstn_all in HT, HS, HO.
      unfold d'. by rewrite HT, HS, HO. }
    subst s. split; [done|]. split; [done|]. done.
Qed.

(** On a registry whose tables are in place, [RebuildTables] changes
    nothing. *)
Lemma RebuildTables_id cms d : repr cms d → RebuildTables d = Some d.
Proof.
  intros [Hk Ht]. destruct (RebuildTables_spec cms d Hk) as [Hr _].
  rewrite Hr. f_equal. destruct Ht as [HT HS HO]. rewrite firstn_all in HT, HS, HO.
  rewrite <- HO, <- HT, <- HS. apply with_tables_id.
Qed.

Lemma set_flat_key_shape cms (p : nat) v :
  Forall2 (λ c c', cm_name c' = cm_name c ∧ cm_qual c' = cm_qual c
                   ∧ length (cm_keys c') = length (cm_keys c)
                   ∧ (is_u32 v → Forall is_u32 (cm_keys c) → Forall is_u32 (cm_keys c')))
    cms (set_flat_key cms p v).
Proof.
  revert p. induction cms as [|c cms IH]; intros p; simpl; [constructor|].
  case_decide.
  - constructor.
    + simpl. rewrite length_insert. repeat split; trivial.
      intros Hv Hall. by apply Forall_insert.
    + apply Forall2_same_length_lookup. split; [done|]. intros i x y Hx Hy.
      simplify_eq. tauto.
  - constructor; [tauto|apply IH].
Qed.

Lemma set_flat_key_concat cms (p : nat) v :
  concat (cm_keys <$> set_flat_key cms p v) = <[p := v]> (concat (cm_keys <$> cms)).
Proof.
  revert p. induction cms as [|c cms IH]; intros p; simpl; [done|].
  case_decide.
  - simpl. by rewrite insert_app_l.
  - simpl. rewrite IH, insert_app_r_alt by lia. done.
Qed.

Lemma set_flat_key_fmap {B} (f : colormap → B) cms p v :
  (∀ c c', cm_name c' = cm_name c → cm_qual c' = cm_qual c →
           length (cm_keys c') = length (cm_keys c) → f c' = f c) →
  f <$> set_flat_key cms p v = f <$> cms.
Proof.
  intros Hf. pose proof (set_flat_key_shape cms p v) as Hs.
  induction Hs as [|c c' cms cms' (Hn & Hq & Hl & _) _ IH]; [done|].
  rewrite !fmap_cons, IH. f_equal. by apply Hf.
Qed.

Lemma key_offset_S c0 cms (n : nat) :
  key_offset (c0 :: cms) (Datatypes.S n)
  = Z.of_nat (length (cm_keys c0)) + key_offset cms n.
Proof. unfold key_offset. rewrite firstn_cons, fmap_cons, concat_cons, length_app. lia. Qed.

Lemma set_flat_key_in_range cms (n j : nat) c v :
  cms !! n = Some c → (j < length (cm_keys c))%nat →
  set_flat_key cms (Z.to_nat (key_offset cms n + Z.of_nat j)) v
  = <[n := mkColormap (cm_name c) (<[j := v]> (cm_keys c)) (cm_qual c)]> cms.
Proof.
  revert n. induction cms as [|c0 cms IH]; intros n Hc Hj; [done|].
  destruct n as [|n].
  - simpl in Hc. simplify_eq. unfold key_offset. simpl.
    rewrite decide_True by lia. do 3 f_equal. lia.
  - simpl in Hc. rewrite key_offset_S.
    assert (0 <= key_offset cms n) by (unfold key_offset; lia).
    cbn [set_flat_key]. rewrite decide_False by lia.
    replace (Z.to_nat (Z.of_nat (length (cm_keys c0)) + key_offset cms n + Z.of_nat j)
             - length (cm_keys c0))%nat
      with (Z.to_nat (key_offset cms n + Z.of_nat j)) by lia.
    rewrite IH by done. done.
Qed.

Lemma repr_keys_set_flat cms d (p : nat) v :
  repr_keys cms d → is_u32 v →
  repr_keys (set_flat_key cms p v) (with_keys d (<[p := v]> (Keys d))).
Proof.
  intros [HK HKC HKO HT HTO HQ HC HMn HMi Hok Hfits] Hv.
  pose proof (set_flat_key_shape cms p v) as Hs.
  split; simpl.
  - by rewrite set_flat_key_concat, HK.
  - rewrite HKC. symmetry. apply set_flat_key_fmap.
    intros c c' _ _ Hl. unfold key_count. by rewrite Hl.
  - rewrite HKO. f_equal. symmetry. apply set_flat_key_fmap.
    intros c c' _ _ Hl. unfold key_count. by rewrite Hl.
  - rewrite HT. f_equal. symmetry. by apply set_flat_key_fmap.
  - rewrite HTO. f_equal. symmetry. apply set_flat_key_fmap.
    intros c c' Hn _ _. unfold name_size. by rewrite Hn.
  - rewrite HQ. symmetry. by apply set_flat_key_fmap.
  - by rewrite <- (Forall2_length _ _ _ Hs).
  - intros i c' Hi.
    destruct (Forall2_lookup_r _ _ _ _ _ Hs Hi) as (c & Hc & Hn & _).
    rewrite Hn. by apply HMn.
  - intros h x Hx. destruct (HMi h x Hx) as (i & c & -> & Hc & Hh).
    destruct (Forall2_lookup_l _ _ _ _ _ Hs Hc) as (c' & Hc' & Hn & _).
    exists i, c'. split; [done|]. split; [done|]. by rewrite Hn.
  - apply Forall_lookup. intros i c' Hi.
    destruct (Forall2_lookup_r _ _ _ _ _ Hs Hi) as (c & Hc & Hn & Hq & Hl & Hu).
    rewrite Forall_lookup in Hok. destruct (Hok i c Hc) as (Hne & Hall & Hnul).
    split; [|split].
    + intros Hnil. rewrite Hnil in Hl. destruct (cm_keys c); [done|simpl in Hl; lia].
    + by apply Hu.
    + unfold no_nul. by rewrite Hn.
  - apply Forall_lookup. intros i c' Hi.
    destruct (Forall2_lookup_r _ _ _ _ _ Hs Hi) as (c & Hc & Hn & Hq & Hl & Hu).
    rewrite Forall_lookup in Hfits. pose proof (Hfits i c Hc) as Hfit.
    unfold table_fits, key_count in *. rewrite Hq, Hl. exact Hfit.
Qed.

(** Every returning [SetKeyColor] leaves a registry of the same shape. *)
Lemma SetKeyColor_repr cms d cmap idx v d' :
  repr cms d → is_u32 v → SetKeyColor d cmap idx v = Some d' →
  ∃ p, repr (set_flat_key cms p v) d'.
Proof.
  intros [Hk Ht] Hv Hset. unfold SetKeyColor in Hset.
  destruct (ImVector.at_ (KeyOffsets d) cmap) as [off|]; [|done].
  cbn [mbind option_bind] in Hset. unfold ImVector.set in Hset.
  case_decide; [|done]. cbn [mbind option_bind] in Hset.
  exists (Z.to_nat (off + idx)).
  destruct (RebuildTables_spec _ _ (repr_keys_set_flat cms d (Z.to_nat (off + idx)) v Hk Hv))
    as [Hr Hrepr].
  rewrite Hr in Hset. by simplify_eq.
Qed.

(** Replacing key [j] of colormap [n], for [j] one of its keys. *)
Lemma SetKeyColor_in_range cms d (n j : nat) c v :
  repr cms d → cms !! n = Some c → (j < length (cm_keys c))%nat → is_u32 v →
  ∃ d', SetKeyColor d (Z.of_nat n) (Z.of_nat j) v = Some d'
        ∧ repr (<[n := mkColormap (cm_name c) (<[j := v]> (cm_keys c)) (cm_qual c)]> cms) d'.
Proof.
  intros [Hk Ht] Hc Hj Hv. unfold SetKeyColor.
  rewrite (repr_KeyOffsets_at cms d Hk n c Hc). cbn [mbind option_bind].
  pose proof (repr_Keys_at cms d Hk n j c Hc Hj) as Hat.
  destruct (lookup_lt_is_Some_2 (cm_keys c) j Hj) as [k Hkj]. rewrite Hkj in Hat.
  apply at_lt in Hat. unfold ImVector.set. rewrite decide_True by done.
  cbn [mbind option_bind].
  destruct (RebuildTables_spec _ _
    (repr_keys_set_flat cms d (Z.to_nat (key_offset cms n + Z.of_nat j)) v Hk Hv))
    as [Hr Hrepr].
  rewrite Hr. eexists. split; [done|].
  by rewrite <- (set_flat_key_in_range cms n j c v Hc Hj).
Qed.

Lemma repr_new : repr [] ImPlot3DColormapData_new.
Proof.
  split; split; simpl; done.
Qed.

(** Every registry the operations produce represents a list of colormaps. *)
Lemma reachable_repr d : reachable d → ∃ cms, repr cms d.
Proof.
  induction 1 as [|d name keys count qual d' idx _ [cms Hr] Hnul Hu32 Happ
                  |d cmap idx v d' _ [cms Hr] Hv Hset
                  |d d' _ [cms Hr] Hreb].
  - exists []. apply repr_new.
  - destruct (Append_inv cms d name keys count qual d' idx Hr Hu32 Hnul Happ)
      as [(_ & -> & _)|(_ & _ & _ & Hr' & _)]; eauto.
  - destruct (SetKeyColor_repr cms d cmap idx v d' Hr Hv Hset) as [p Hp]. eauto.
  - rewrite (RebuildTables_id cms d Hr) in Hreb. simplify_eq. eauto.
Qed.

End RebuildProofs.

(* ================================================================== *)
(** * Reading a registry *)

Section Readers.
Context `{Host}.
Implicit Types (d : ImPlot3DColormapData) (cms : list colormap) (c : colormap).

Lemma table_of_nonempty c : cm_keys c ≠ [] → (0 < length (table_of c))%nat.
Proof.
  intros Hne. unfold table_of, build_table. destruct (cm_qual c).
  - destruct (cm_keys c); [done|simpl; lia].
  - rewrite length_ramp by done. lia.
Qed.

Section Lookups.
Context cms d (Hr : repr cms d).

Lemma repr_length_lt (n : nat) c : cms !! n = Some c → 0 <= Z.of_nat n < Count d.
Proof.
  intros Hc. apply lookup_lt_Some in Hc. destruct Hr as [Hk _].
  rewrite (repr_Count _ _ Hk). lia.
Qed.

Lemma repr_lookup_lt cmap :
  0 <= cmap < Count d → ∃ (n : nat) c, cmap = Z.of_nat n ∧ cms !! n = Some c.
Proof.
  intros Hc. destruct Hr as [Hk _]. rewrite (repr_Count _ _ Hk) in Hc.
  destruct (lookup_lt_is_Some_2 cms (Z.to_nat cmap)) as [c Hl]; [lia|].
  exists (Z.to_nat cmap), c. split; [lia|done].
Qed.

Lemma repr_GetTableSize (n : nat) c :
  cms !! n = Some c → GetTableSize d (Z.of_nat n) = Some (table_size c).
Proof.
  intros Hc. destruct Hr as [_ Ht]. unfold GetTableSize.
  rewrite at_of_nat, (repr_TableSizes _ _ _ Ht), firstn_all.
  by rewrite list_lookup_fmap, Hc.
Qed.

Lemma repr_TableOffsets_at (n : nat) c :
  cms !! n = Some c →
  ImVector.at_ (TableOffsets d) (Z.of_nat n) = Some (table_offset cms n).
Proof.
  intros Hc. destruct Hr as [_ Ht].
  rewrite at_of_nat, (repr_TableOffsets _ _ _ Ht), firstn_all.
  rewrite offsets_from_lookup.
  - by rewrite <- fmap_take, sum_sizes_table_size.
  - rewrite length_fmap. by eapply lookup_lt_Some.
Qed.

Lemma repr_Tables_at (n j : nat) c :
  cms !! n = Some c → (j < length (table_of c))%nat →
  ImVector.at_ (Tables d) (table_offset cms n + Z.of_nat j) = table_of c !! j.
Proof.
  intros Hc Hj. destruct Hr as [_ Ht]. unfold table_offset.
  rewrite <- Nat2Z.inj_add, at_of_nat, (repr_Tables _ _ _ Ht), firstn_all, fmap_take.
  apply concat_lookup_block; [|done]. by rewrite list_lookup_fmap, Hc.
Qed.

Lemma repr_GetTableColor (n j : nat) c :
  cms !! n = Some c → (j < length (table_of c))%nat →
  GetTableColor d (Z.of_nat n) (Z.of_nat j) = table_of c !! j.
Proof.
  intros Hc Hj. unfold GetTableColor. rewrite (repr_TableOffsets_at n c Hc).
  cbn [mbind option_bind]. by apply repr_Tables_at.
Qed.

Lemma repr_colormap_ok (n : nat) c : cms !! n = Some c → colormap_ok c.
Proof.
  intros Hc. destruct Hr as [Hk _]. pose proof (repr_ok _ _ Hk) as Hok.
  rewrite Forall_lookup in Hok. by apply (Hok n).
Qed.

Lemma repr_GetTable (n : nat) c :
  cms !! n = Some c → GetTable d (Z.of_nat n) = Some (table_offset cms n).
Proof.
  intros Hc. unfold GetTable. rewrite (repr_TableOffsets_at n c Hc).
  cbn [mbind option_bind].
  destruct (repr_colormap_ok n c Hc) as (Hne & _ & _).
  pose proof (table_of_nonempty c Hne) as Hlen.
  pose proof (repr_Tables_at n 0 c Hc Hlen) as Hat. rewrite Z.add_0_r in Hat.
  rewrite Hat. destruct (lookup_lt_is_Some_2 (table_of c) 0 Hlen) as [x ->]. done.
Qed.

Lemma repr_table_contents (n : nat) c :
  cms !! n = Some c → table_contents d (Z.of_nat n) = Some (table_of c).
Proof.
  intros Hc. unfold table_contents.
  rewrite (repr_GetTable n c Hc), (repr_GetTableSize n c Hc).
  cbn [mbind option_bind]. f_equal. destruct Hr as [_ Ht].
  rewrite (repr_Tables _ _ _ Ht), firstn_all. unfold table_offset, table_size.
  rewrite !Nat2Z.id, fmap_take. apply concat_block. by rewrite list_lookup_fmap, Hc.
Qed.

Lemma repr_key_colors (n : nat) c :
  cms !! n = Some c → key_colors d (Z.of_nat n) = Some (cm_keys c).
Proof.
  intros Hc. destruct Hr as [Hk _]. unfold key_colors.
  rewrite (repr_GetKeyCount cms d Hk n c Hc). cbn [mbind option_bind].
  apply mapM_Some. apply Forall2_same_length_lookup. split.
  - rewrite length_seqZ. unfold key_count. lia.
  - intros i j x Hj Hx. apply lookup_seqZ in Hj as [-> Hi].
    rewrite Z.add_0_l, <- Hx. apply (repr_GetKeyColor cms d Hk n i c Hc).
    by eapply lookup_lt_Some.
Qed.

Lemma repr_GetName (n : nat) c :
  cms !! n = Some c → GetName d (Z.of_nat n) = Some (Some (cm_name c)).
Proof.
  intros Hc. pose proof (repr_length_lt n c Hc) as Hlt.
  destruct (repr_colormap_ok n c Hc) as (_ & _ & Hnul).
  destruct Hr as [Hk _]. unfold GetName.
  replace (Z.of_nat n <? Count d) with true by lia.
  rewrite at_of_nat, (repr_TextOffsets _ _ Hk), offsets_from_lookup.
  2:{ rewrite length_fmap. by eapply lookup_lt_Some. }
  cbn [mbind option_bind]. rewrite Z.add_0_l, <- fmap_take, sum_sizes_name_size.
  unfold ImGuiTextBuffer.c_str_at. rewrite decide_True by lia. rewrite Nat2Z.id.
  rewrite (repr_Text _ _ Hk).
  rewrite <- (take_drop_middle cms n c Hc) at 2.
  rewrite !fmap_app, !fmap_cons. unfold text_image.
  destruct ((cm_name <$> take n cms) ++ cm_name c :: (cm_name <$> drop (Datatypes.S n) cms))
    eqn:E; [by destruct (cm_name <$> take n cms)|]. rewrite <- E.
  rewrite fmap_app, concat_app, <- app_assoc, fmap_take, drop_app_length.
  rewrite fmap_cons, concat_cons, <- app_assoc, read_c_str by done.
  cbn [mbind option_bind]. by rewrite string_of_list_ascii_of_string.
Qed.

End Lookups.
End Readers.

(* ================================================================== *)
(** * The colormap registry: the specification's properties *)

Section RegistryClaims.
Context `{Host}.
Implicit Types (d : ImPlot3DColormapData) (cms : list colormap) (c : colormap).



(** Past that size nothing is registered: from 8421506 keys on, the
    [int] product of line 182 overflows and the call does not return. *)
Lemma Append_table_too_large d name keys count :
  reachable d → GetIndex d name = -1 → no_nul name → Forall is_u32 keys →
  INT_MAX < 255 * (count - 1) + 1 →
  Append name keys count false d = None.
Proof.
  intros Hreach Hfree Hnul Hu32 Hbig. destruct (reachable_repr d Hreach) as [cms Hr].
  destruct (Append name keys count false d) as [[d' idx]|] eqn:Happ; [exfalso|done].
  destruct (Append_inv cms d name keys count false d' idx Hr Hu32 Hnul Happ)
    as [(Hused & _)|(_ & _ & _ & _ & Hfit)]; [done|].
  specialize (Hfit eq_refl). lia.
Qed.


(** C4.  [Append] under a name that is already registered returns [-1]
    and the registry it returns is the one it was given: count, keys,
    tables and name map are all unchanged. *)
Theorem Append_registered_name_rejected d name keys count qual :
  reachable d → registered d name →
  Append name keys count qual d = Some (d, -1).
Proof.
  intros Hreach (cmap & Hcmap & Hname).
  destruct (reachable_repr d Hreach) as [cms Hr].
  destruct (repr_lookup_lt cms d Hr cmap Hcmap) as (n & c & -> & Hc).
  rewrite (repr_GetName cms d Hr n c Hc) in Hname. simplify_eq.
  unfold Append. rewrite decide_True; [done|].
  rewrite (repr_GetIndex cms d n c (proj1 Hr) Hc). lia.
Qed.

(** C10.  After an [Append] that returns an index [idx >= 0], [GetIndex]
    of the name is [idx] and [GetName] of [idx] is the name. *)
Theorem Append_name_index_round_trip d name keys count qual d' idx :
  reachable d → no_nul name → Forall is_u32 keys →
  Append name keys count qual d = Some (d', idx) → 0 <= idx →
  GetIndex d' name = idx ∧ GetName d' idx = Some (Some name).
Proof.
  intros Hreach Hnul Hu32 Happ Hidx.
  destruct (reachable_repr d Hreach) as [cms Hr].
  destruct (Append_inv cms d name keys count qual d' idx Hr Hu32 Hnul Happ)
    as [(_ & _ & ->)|(_ & _ & -> & Hr' & _)]; [lia|].
  set (c := mkColormap name (take (Z.to_nat count) keys) qual) in *.
  assert (Hc : (cms ++ [c]) !! length cms = Some c)
    by (by rewrite lookup_app_r, Nat.sub_diag).
  split.
  - apply (repr_GetIndex _ d' _ c (proj1 Hr') Hc).
  - apply (repr_GetName _ d' Hr' _ c Hc).
Qed.

(** C3, as amended.  For [idx] one of the keys of colormap [cmap],
    [SetKeyColor] returns; it replaces that key of [cmap] and no other,
    the table of [cmap] is the one built from its new keys, and every
    other colormap keeps its keys, its table size and the contents of its
    table. *)
Theorem SetKeyColor_in_range_frame d cmap idx value keys qual :
  reachable d → is_u32 value →
  key_colors d cmap = Some keys → IsQual d cmap = Some qual →
  0 <= idx < Z.of_nat (length keys) →
  ∃ d',
    SetKeyColor d cmap idx value = Some d'
    ∧ Count d' = Count d
    ∧ key_colors d' cmap = Some (<[Z.to_nat idx := value]> keys)
    ∧ table_contents d' cmap
      = Some (build_table qual (<[Z.to_nat idx := value]> keys))
    ∧ ∀ other, 0 <= other < Count d → other ≠ cmap →
        key_colors d' other = key_colors d other
        ∧ GetTableSize d' other = GetTableSize d other
        ∧ table_contents d' other = table_contents d other.
Proof.
  intros Hreach Hv Hkeys Hqual Hidx.
  destruct (reachable_repr d Hreach) as [cms Hr].
  assert (Hcmap : 0 <= cmap < Count d).
  { unfold IsQual in Hqual. apply at_lt in Hqual.
    rewrite (repr_Quals _ _ (proj1 Hr)) in Hqual. unfold ImVector.size in Hqual.
    rewrite length_fmap in Hqual. by rewrite (repr_Count _ _ (proj1 Hr)). }
  destruct (repr_lookup_lt cms d Hr cmap Hcmap) as (n & c & -> & Hc).
  rewrite (repr_key_colors cms d Hr n c Hc) in Hkeys.
  rewrite (repr_IsQual cms d (proj1 Hr) n c Hc) in Hqual. simplify_eq.
  destruct (SetKeyColor_in_range cms d n (Z.to_nat idx) c value Hr Hc ltac:(lia) Hv)
    as (d' & Hset & Hr').
  rewrite Z2Nat.id in Hset by lia.
  set (c' := mkColormap (cm_name c) (<[Z.to_nat idx := value]> (cm_keys c)) (cm_qual c)) in *.
  assert (Hc' : <[n := c']> cms !! n = Some c').
  { apply list_lookup_insert_eq. by eapply lookup_lt_Some. }
  exists d'. split; [done|]. split; [|split; [|split]].
  - rewrite (repr_Count _ _ (proj1 Hr')), (repr_Count _ _ (proj1 Hr)).
    by rewrite length_insert.
  - by rewrite (repr_key_colors _ d' Hr' n c' Hc').
  - by rewrite (repr_table_contents _ d' Hr' n c' Hc').
  - intros other Hother Hne.
    destruct (repr_lookup_lt cms d Hr other Hother) as (m & co & -> & Hco).
    assert (Hco' : <[n := c']> cms !! m = Some co).
    { rewrite list_lookup_insert_ne; [done|]. intros ->. by apply Hne. }
    rewrite (repr_key_colors _ d' Hr' m co Hco'), (repr_key_colors _ d Hr m co Hco).
    rewrite (repr_GetTableSize _ d' Hr' m co Hco'), (repr_GetTableSize _ d Hr m co Hco).
    by rewrite (repr_table_contents _ d' Hr' m co Hco'), (repr_table_contents _ d Hr m co Hco).
Qed.

End RegistryClaims.

(* ================================================================== *)
(** * Single precision: the operations that do not round *)

Lemma digits2_pos_size p : digits2_pos p = Pos.size p.
Proof. induction p as [p IH|p IH|]; simpl; by rewrite ?IH. Qed.

Lemma digits2_pos_log2 p : Zpos (digits2_pos p) = Z.log2 (Zpos p) + 1.
Proof.
  rewrite digits2_pos_size. destruct p as [p|p|]; simpl; rewrite ?Pos2Z.inj_succ; lia.
Qed.

(** A mantissa of [k + 1] bits. *)
Lemma digits2_pos_bits p k :
  0 <= k → 2 ^ k <= Zpos p < 2 ^ (k + 1) → Zpos (digits2_pos p) = k + 1.
Proof.
  intros Hk Hp. rewrite digits2_pos_log2. f_equal. by apply Z.log2_unique.
Qed.

Lemma iter_pos_iter {A} (f : A → A) p x : SpecFloat.iter_pos f p x = Pos.iter f x p.
Proof.
  revert x. induction p as [p IH|p IH|]; intros x; simpl.
  - by rewrite !IH, !Pos.iter_swap.
  - by rewrite !IH.
  - done.
Qed.

Lemma Zpos_iter_xO m k : Zpos (Pos.iter xO m k) = Zpos m * 2 ^ Zpos k.
Proof.
  induction k as [|k IH] using Pos.peano_ind.
  - simpl. lia.
  - rewrite Pos.iter_succ, Pos2Z.inj_xO, IH, Pos2Z.inj_succ, Z.pow_succ_r by lia. lia.
Qed.

(** Shifting out [k] zero bits loses nothing. *)
Lemma shr_zero_bits k m :
  SpecFloat.iter_pos shr_1 k (Build_shr_record (Zpos (Pos.iter xO m k)) false false)
  = Build_shr_record (Zpos m) false false.
Proof.
  rewrite iter_pos_iter. revert m. induction k as [|k IH] using Pos.peano_ind; intros m.
  - done.
  - rewrite Pos.iter_succ_r, Pos.iter_succ. simpl. apply IH.
Qed.

(** Rounding a value that a 24-bit mantissa holds returns the value. *)
Lemma binary_round_aux_exact s (M : positive) (e : Z) (m' : positive) (k : Z) :
  0 <= k → Zpos M = Zpos m' * 2 ^ k → 2 ^ 23 <= Zpos m' < 2 ^ 24 →
  -149 <= e + k <= 104 →
  binary_round_aux F32.prec F32.emax s (Zpos M) e loc_Exact = S754_finite s m' (e + k).
Proof.
  intros Hk HM Hm' He.
  assert (Hdm' : Zpos (digits2_pos m') = 24) by (by apply (digits2_pos_bits m' 23)).
  assert (HdM : Zpos (digits2_pos M) = 24 + k).
  { rewrite digits2_pos_log2 in Hdm' |- *. rewrite HM, Z.log2_mul_pow2 by lia. lia. }
  assert (Hstay : ∀ e0, -149 <= e0 <= 104 →
    (let '(mrs'', e'') := shr_fexp F32.prec F32.emax (Zpos m') e0 loc_Exact in
     match shr_m mrs'' with
     | 0 => S754_zero s
     | Zpos m => if e'' <=? F32.emax - F32.prec then S754_finite s m e'' else S754_infinity s
     | Zneg _ => S754_nan
     end) = S754_finite s m' e0).
  { intros e0 He0. unfold shr_fexp, fexp, emin, F32.prec, F32.emax. cbn [Zdigits2].
    rewrite Hdm'. rewrite Z.max_l by lia.
    replace (24 + e0 - 24 - e0) with 0 by lia. cbn [shr shr_record_of_loc shr_m].
    replace (e0 <=? 128 - 24) with true by lia. done. }
  unfold binary_round_aux. unfold shr_fexp at 1. unfold fexp, emin. cbn [Zdigits2].
  rewrite HdM. unfold F32.prec at 1 2, F32.emax at 1. rewrite Z.max_l by lia.
  replace (24 + k + e - 24 - e) with k by lia.
  destruct k as [|kp|kp]; [| |lia].
  - rewrite Z.pow_0_r, Z.mul_1_r in HM. injection HM as ->.
    cbn [shr shr_record_of_loc shr_m loc_of_shr_record round_nearest_even].
    rewrite Z.add_0_r in *. by apply Hstay.
  - rewrite <- Zpos_iter_xO in HM. injection HM as ->.
    cbn [shr shr_record_of_loc]. rewrite shr_zero_bits.
    cbn [shr_m loc_of_shr_record round_nearest_even]. by apply Hstay.
Qed.

(** [int -> float] is exact below [2^24]: the result is the integer, on a
    normalised mantissa. *)
Lemma of_int_exact n :
  1 <= n < 2 ^ 24 →
  ∃ m e, F32.of_int n = S754_finite false m e
         ∧ 2 ^ 23 <= Zpos m < 2 ^ 24 ∧ -23 <= e <= 0 ∧ Zpos m = n * 2 ^ (- e).
Proof.
  intros Hn. destruct n as [|p|p]; [lia| |lia].
  unfold F32.of_int, binary_normalize, binary_round.
  pose proof (digits2_pos_log2 p) as Hd.
  pose proof (Z.log2_spec (Zpos p) ltac:(lia)) as Hlog.
  assert (Hdr : 0 <= Z.log2 (Zpos p) < 24).
  { split; [apply Z.log2_nonneg|]. apply Z.log2_lt_pow2; lia. }
  set (d := Zpos (digits2_pos p)) in *.
  replace (Z.succ (Z.log2 (Zpos p))) with d in Hlog by lia.
  replace (Z.log2 (Zpos p)) with (d - 1) in Hlog by lia.
  unfold fexp, emin, F32.prec at 1 2, F32.emax at 1. rewrite Z.max_l by lia.
  assert (Hpow : 2 ^ (d - 1) * 2 ^ (24 - d) = 2 ^ 23).
  { rewrite <- Z.pow_add_r by lia. f_equal. lia. }
  assert (Hpow' : 2 ^ d * 2 ^ (24 - d) = 2 ^ 24).
  { rewrite <- Z.pow_add_r by lia. f_equal. lia. }
  assert (Hpos : 0 < 2 ^ (24 - d)) by (apply Z.pow_pos_nonneg; lia).
  unfold shl_align. destruct (d + 0 - 24 - 0) as [|q|q] eqn:E; [|lia|].
  - exists p, 0. rewrite (binary_round_aux_exact false p 0 p 0); try lia.
    + replace d with 24 in * by lia. rewrite Z.add_0_r. simpl in *. repeat split; lia.
    + replace d with 24 in * by lia. simpl in *. lia.
  - exists (Pos.iter xO p q), (d + 0 - 24).
    assert (Hq : Zpos q = 24 - d) by lia.
    assert (Hval : Zpos (Pos.iter xO p q) = Zpos p * 2 ^ (24 - d)).
    { by rewrite Zpos_iter_xO, Hq. }
    rewrite (binary_round_aux_exact false (Pos.iter xO p q) (d + 0 - 24) (Pos.iter xO p q) 0);
      try lia.
    + rewrite Z.add_0_r. split; [done|]. split; [nia|]. split; [lia|].
      rewrite Hval. do 2 f_equal. lia.
    + nia.
Qed.

Lemma mul_one_exact s m e :
  2 ^ 23 <= Zpos m < 2 ^ 24 → -126 <= e <= 104 →
  F32.mul (S754_finite s m e) F32.one = S754_finite s m e.
Proof.
  intros Hm He. unfold F32.mul, F32.one, SFmul.
  rewrite (binary_round_aux_exact _ _ _ m 23) by lia.
  rewrite xorb_false_r. f_equal. lia.
Qed.

(** Adding one half to an integer below [2^23] is exact. *)
Lemma add_half_exact m e n :
  1 <= n < 2 ^ 23 → 2 ^ 23 <= Zpos m < 2 ^ 24 → -23 <= e <= -1 →
  Zpos m = n * 2 ^ (- e) →
  ∃ m', F32.add (S754_finite false m e) F32.half = S754_finite false m' e
        ∧ Zpos m' = n * 2 ^ (- e) + 2 ^ (- e - 1).
Proof.
  intros Hn Hm He Hval.
  assert (Hp : 0 < 2 ^ (- e - 1)) by (apply Z.pow_pos_nonneg; lia).
  assert (Hp2 : 2 ^ (- e) = 2 * 2 ^ (- e - 1)).
  { rewrite <- Z.pow_succ_r by lia. f_equal. lia. }
  assert (Hq : 2 ^ (- e - 1) * 2 ^ (24 + e) = 2 ^ 23).
  { rewrite <- Z.pow_add_r by lia. f_equal. lia. }
  assert (Hq' : 0 < 2 ^ (24 + e)) by (apply Z.pow_pos_nonneg; lia).
  set (m' := Z.to_pos (n * 2 ^ (- e) + 2 ^ (- e - 1))).
  assert (Hm' : Zpos m' = n * 2 ^ (- e) + 2 ^ (- e - 1)) by (unfold m'; lia).
  exists m'. split; [|done].
  unfold F32.add, F32.half, SFadd. rewrite Z.min_r by lia.
  change (shl_align 8388608 (-24) (-24)) with (8388608%positive, -24).
  destruct (-24 - e) as [|q|q] eqn:E; [lia|lia|].
  assert (Hal : shl_align m e (-24) = (Pos.iter xO m q, -24)).
  { unfold shl_align. by rewrite E. }
  rewrite Hal. cbn [fst cond_Zopp]. assert (Hqe : Zpos q = 24 + e) by lia.
  assert (HS : Zpos (Pos.iter xO m q) + 8388608 = Zpos m' * 2 ^ (24 + e)).
  { rewrite Zpos_iter_xO, Hqe, Hm', Hval. change 8388608 with (2 ^ 23). nia. }
  change (Zpos (Pos.iter xO m q) + 8388608) with (Zpos (Pos.iter xO m q + 8388608)) in *.
  cbn [binary_normalize]. unfold binary_round.
  assert (Hm'r : 2 ^ 23 <= Zpos m' < 2 ^ 24).
  { rewrite Hm'. split; [nia|].
    assert (n + 1 <= 2 ^ (24 + e)) by nia.
    assert (2 ^ 24 = 2 ^ (24 + e) * 2 ^ (- e)).
    { rewrite <- Z.pow_add_r by lia. f_equal. lia. }
    nia. }
  assert (Hd : Zpos (digits2_pos (Pos.iter xO m q + 8388608)) = 48 + e).
  { rewrite digits2_pos_log2, HS, Z.log2_mul_pow2 by lia.
    pose proof (digits2_pos_bits m' 23 ltac:(lia) Hm'r) as Hd'.
    rewrite digits2_pos_log2 in Hd'. lia. }
  rewrite Hd. unfold fexp, emin, F32.prec at 1 2, F32.emax at 1.
  rewrite Z.max_l by lia. unfold shl_align.
  destruct (48 + e + -24 - 24 - -24) as [|r|r] eqn:E'; [lia| |lia].
  rewrite (binary_round_aux_exact false _ (-24) m' (24 + e)); try lia.
  f_equal. lia.
Qed.

Lemma trunc_mag_floor m e n :
  e <= 0 → n * 2 ^ (- e) <= Zpos m < (n + 1) * 2 ^ (- e) → F32.trunc_mag m e = n.
Proof.
  intros He Hm. unfold F32.trunc_mag. destruct e as [|p|p]; [|lia|].
  - change (- 0) with 0 in Hm. rewrite Z.pow_0_r in Hm. rewrite Z.shiftl_0_r. lia.
  - rewrite Z.shiftr_div_pow2 by lia. change (- Zneg p) with (Zpos p) in Hm.
    symmetry. apply (Z.div_unique_pos _ _ _ (Zpos m - n * 2 ^ Zpos p)); lia.
Qed.

Lemma to_int_floor m e n :
  e <= 0 → 0 <= n <= INT_MAX → n * 2 ^ (- e) <= Zpos m < (n + 1) * 2 ^ (- e) →
  F32.to_int (S754_finite false m e) = Some n.
Proof.
  intros He Hn Hm. unfold F32.to_int. rewrite (trunc_mag_floor m e n He Hm).
  unfold INT_MIN, INT_MAX in *.
  replace (- 2 ^ 31 <=? n) with true by lia. by replace (n <=? 2 ^ 31 - 1) with true by lia.
Qed.

(** ** Rounding an integer never leaves the finite floats *)

Lemma shr_1_nonneg r : 0 <= shr_m r → 0 <= shr_m (shr_1 r) <= shr_m r.
Proof.
  destruct r as [m rb sb]. simpl. intros Hm.
  destruct m as [|[p|p|]|p]; simpl; lia.
Qed.

Lemma iter_shr_1_nonneg k r :
  0 <= shr_m r → 0 <= shr_m (SpecFloat.iter_pos shr_1 k r) <= shr_m r.
Proof.
  rewrite iter_pos_iter. revert r. induction k as [|k IH] using Pos.peano_ind; intros r Hr.
  - simpl. by apply shr_1_nonneg.
  - rewrite Pos.iter_succ.
    pose proof (IH r Hr) as Hk.
    pose proof (shr_1_nonneg (Pos.iter shr_1 r k) ltac:(lia)). lia.
Qed.

Lemma shr_nonneg r e n :
  0 <= shr_m r →
  0 <= shr_m (shr r e n).1 <= shr_m r
  ∧ ((shr r e n).2 = e ∨ (0 < n ∧ (shr r e n).2 = e + n)).
Proof.
  intros Hr. unfold shr. destruct n as [|p|p]; simpl; [split; [lia|by left]| |split; [lia|by left]].
  split; [by apply iter_shr_1_nonneg|]. right. lia.
Qed.

Lemma round_nearest_even_bounds m l :
  0 <= m → m <= round_nearest_even m l <= m + 1.
Proof.
  intros Hm. unfold round_nearest_even. destruct l as [|[| |]]; try lia.
  destruct (Z.even m); lia.
Qed.

Lemma Zdigits2_bound m k : 0 <= k → 0 <= m < 2 ^ k → 0 <= Zdigits2 m <= k.
Proof.
  intros Hk Hm. destruct m as [|p|p]; [simpl; lia| |lia].
  cbn [Zdigits2]. rewrite digits2_pos_log2.
  pose proof (Z.log2_nonneg (Zpos p)).
  assert (Z.log2 (Zpos p) < k) by (apply Z.log2_lt_pow2; lia). lia.
Qed.

Lemma binary_round_aux_finite s M e :
  0 <= M < 2 ^ 32 → e <= 0 →
  zero_or_finite s (binary_round_aux F32.prec F32.emax s M e loc_Exact).
Proof.
  intros HM He. unfold binary_round_aux.
  unfold shr_fexp at 1. cbn [shr_record_of_loc].
  set (n1 := fexp F32.prec F32.emax (Zdigits2 M + e) - e).
  pose proof (Zdigits2_bound M 32 ltac:(lia) HM) as Hd1.
  assert (Hn1 : e + n1 <= 8).
  { unfold n1, fexp, emin, F32.prec, F32.emax. lia. }
  pose proof (shr_nonneg (Build_shr_record M false false) e n1 ltac:(simpl; lia)) as [Hm1 He1].
  destruct (shr (Build_shr_record M false false) e n1) as [r1 e1]. simpl in Hm1, He1.
  pose proof (round_nearest_even_bounds (shr_m r1) (loc_of_shr_record r1) ltac:(lia)) as Hm2.
  set (m2 := round_nearest_even (shr_m r1) (loc_of_shr_record r1)) in *.
  unfold shr_fexp. cbn [shr_record_of_loc].
  set (n2 := fexp F32.prec F32.emax (Zdigits2 m2 + e1) - e1).
  pose proof (Zdigits2_bound m2 33 ltac:(lia) ltac:(lia)) as Hd2.
  assert (Hn2 : e1 <= 8 ∧ e1 + n2 <= 17).
  { unfold n2, fexp, emin, F32.prec, F32.emax. lia. }
  pose proof (shr_nonneg (Build_shr_record m2 false false) e1 n2 ltac:(simpl; lia)) as [Hm3 He3].
  destruct (shr (Build_shr_record m2 false false) e1 n2) as [r2 e2]. simpl in Hm3, He3.
  destruct (shr_m r2) as [|m'|m']; [done| |lia].
  unfold F32.prec, F32.emax.
  by replace (e2 <=? 128 - 24) with true by lia.
Qed.

(** [int -> float] of a non-negative [int] is a zero or a finite float. *)
Lemma of_int_finite n : 0 <= n <= INT_MAX → zero_or_finite false (F32.of_int n).
Proof.
  unfold INT_MAX. intros Hn. destruct n as [|p|p]; [done| |lia].
  unfold F32.of_int, binary_normalize, binary_round.
  assert (Hd : 1 <= Zpos (digits2_pos p) <= 31).
  { rewrite digits2_pos_log2. pose proof (Z.log2_nonneg (Zpos p)).
    assert (Z.log2 (Zpos p) < 31) by (apply Z.log2_lt_pow2; lia). lia. }
  pose proof (digits2_pos_log2 p) as Hlog.
  set (d := Zpos (digits2_pos p)) in *.
  unfold fexp, emin, F32.prec at 1 2, F32.emax at 1. rewrite Z.max_l by lia.
  unfold shl_align. destruct (d + 0 - 24 - 0) as [|q|q] eqn:E.
  - apply binary_round_aux_finite; lia.
  - apply binary_round_aux_finite; lia.
  - apply binary_round_aux_finite; [|lia]. rewrite Zpos_iter_xO.
    assert (Hq : Zpos q = 24 - d) by lia. rewrite Hq.
    pose proof (Z.log2_spec (Zpos p) ltac:(lia)) as Hspec.
    replace (Z.succ (Z.log2 (Zpos p))) with d in Hspec by lia.
    assert (Hpow : 2 ^ d * 2 ^ (24 - d) = 2 ^ 24).
    { rewrite <- Z.pow_add_r by lia. f_equal. lia. }
    assert (0 < 2 ^ (24 - d)) by (apply Z.pow_pos_nonneg; lia). nia.
Qed.

(* ================================================================== *)
(** * Single precision: rounding between two grid points *)

Lemma shr_1_spec r :
  0 <= shr_m r →
  shr_m (shr_1 r) = shr_m r / 2
  ∧ (Z.even (shr_m r) = true → shr_r r = false → shr_s r = false →
     shr_r (shr_1 r) = false ∧ shr_s (shr_1 r) = false).
Proof.
  destruct r as [m rb sb]. cbn [shr_m shr_r shr_s]. intros Hm.
  destruct m as [|[p|p|]|p]; cbn [shr_1 shr_m shr_r shr_s orb]; try lia.
  - split; [done|]. by intros _ -> ->.
  - split; [|done]. rewrite Pos2Z.inj_xI.
    apply (Z.div_unique_pos _ _ _ 1); lia.
  - split; [|by intros _ -> ->]. rewrite Pos2Z.inj_xO.
    apply (Z.div_unique_pos _ _ _ 0); lia.
  - split; [done|done].
Qed.

(** Shifting [k] bits out of an integer: the quotient stays, and nothing
    is flagged when the bits were zero. *)
Lemma iter_shr_1_spec k M :
  0 <= M →
  let r := SpecFloat.iter_pos shr_1 k (Build_shr_record M false false) in
  shr_m r = M / 2 ^ Zpos k
  ∧ (M mod 2 ^ Zpos k = 0 → shr_r r = false ∧ shr_s r = false).
Proof.
  intros HM. cbn zeta. rewrite iter_pos_iter.
  induction k as [|k IH] using Pos.peano_ind.
  - cbn [Pos.iter]. destruct (shr_1_spec (Build_shr_record M false false) HM) as [Hq He].
    cbn [shr_m shr_r shr_s] in Hq, He. change (2 ^ 1) with 2. split; [done|].
    intros Hmod. apply He; [|done|done]. rewrite Z.even_spec.
    exists (M / 2). pose proof (Z.div_mod M 2 ltac:(lia)). lia.
  - rewrite Pos.iter_succ. destruct IH as [IHq IHe].
    set (r := Pos.iter shr_1 (Build_shr_record M false false) k) in *.
    assert (Hpow : 2 ^ Zpos (Pos.succ k) = 2 ^ Zpos k * 2).
    { rewrite Pos2Z.inj_succ, Z.pow_succ_r by lia. lia. }
    assert (Hp : 0 < 2 ^ Zpos k) by (apply Z.pow_pos_nonneg; lia).
    assert (Hr : 0 <= shr_m r) by (rewrite IHq; apply Z.div_pos; lia).
    destruct (shr_1_spec r Hr) as [Hq He]. split.
    + rewrite Hq, IHq, Hpow, Z.div_div by lia. done.
    + intros Hmod. rewrite Hpow in Hmod.
      assert (Hmk : M mod 2 ^ Zpos k = 0).
      { pose proof (Z.div_mod M (2 ^ Zpos k * 2) ltac:(lia)) as Hdm. rewrite Hmod in Hdm.
        rewrite Hdm at 1. rewrite Z.add_0_r.
        replace (2 ^ Zpos k * 2 * (M / (2 ^ Zpos k * 2)))
          with (2 * (M / (2 ^ Zpos k * 2)) * 2 ^ Zpos k) by lia.
        apply Z.mod_mul. lia. }
      destruct (IHe Hmk) as [Hrr Hrs]. apply He; [|done|done].
      rewrite IHq, Z.even_spec. exists (M / (2 ^ Zpos k * 2)).
      pose proof (Z.div_mod M (2 ^ Zpos k * 2) ltac:(lia)) as Hdm. rewrite Hmod in Hdm.
      rewrite Hdm at 1. rewrite Z.add_0_r.
      replace (2 ^ Zpos k * 2 * (M / (2 ^ Zpos k * 2)))
        with (2 * (M / (2 ^ Zpos k * 2)) * 2 ^ Zpos k) by lia.
      by rewrite Z.div_mul by lia.
Qed.

(** [shr] from an exact record, in one statement for every shift. *)
Lemma shr_spec M e n :
  0 <= M →
  let '(r, e') := shr (Build_shr_record M false false) e n in
  e' = Z.max e (e + n)
  ∧ shr_m r = M / 2 ^ (e' - e)
  ∧ (M mod 2 ^ (e' - e) = 0 → loc_of_shr_record r = loc_Exact).
Proof.
  intros HM. unfold shr. destruct n as [|k|k].
  - rewrite Z.max_l by lia. rewrite Z.sub_diag, Z.pow_0_r, Z.div_1_r. done.
  - destruct (iter_shr_1_spec k M HM) as [Hq He].
    rewrite Z.max_r by lia. replace (e + Zpos k - e) with (Zpos k) by lia.
    split; [done|]. split; [done|]. intros Hmod. destruct (He Hmod) as [Hr Hs].
    destruct (SpecFloat.iter_pos shr_1 k _) as [m rb sb]. simpl in Hr, Hs. by subst.
  - rewrite Z.max_l by lia. rewrite Z.sub_diag, Z.pow_0_r, Z.div_1_r. done.
Qed.

Lemma round_nearest_even_exact m : round_nearest_even m loc_Exact = m.
Proof. reflexivity. Qed.

(** Rounding is monotone around the points of a grid no finer than the
    unit in the last place: a value between two of them, each of at most
    24 bits, rounds to a float between them. *)
Lemma binary_round_aux_between (M : positive) (e g L U : Z) :
  e <= g → -149 <= g <= 0 → 0 <= L → U < 2 ^ 24 →
  L * 2 ^ (g - e) <= Zpos M <= U * 2 ^ (g - e) →
  between g L U (binary_round_aux F32.prec F32.emax false (Zpos M) e loc_Exact).
Proof.
  intros He Hg HL HU HM. unfold binary_round_aux.
  assert (Hpge : 0 < 2 ^ (g - e)) by (apply Z.pow_pos_nonneg; lia).
  (* the first shift *)
  assert (Hd : 0 <= Zdigits2 (Zpos M) <= 24 + g - e).
  { apply Zdigits2_bound; [lia|]. split; [lia|].
    replace (24 + g - e) with (24 + (g - e)) by lia. rewrite Z.pow_add_r by lia. nia. }
  unfold shr_fexp at 1. cbn [shr_record_of_loc].
  set (n1 := fexp F32.prec F32.emax (Zdigits2 (Zpos M) + e) - e).
  assert (Hn1 : e + n1 <= g) by (unfold n1, fexp, emin, F32.prec, F32.emax; lia).
  pose proof (shr_spec (Zpos M) e n1 ltac:(lia)) as Hs1.
  destruct (shr (Build_shr_record (Zpos M) false false) e n1) as [r1 e1].
  destruct Hs1 as (He1 & Hm1 & Hx1).
  assert (He1g : e <= e1 <= g) by lia.
  assert (Hw : 0 < 2 ^ (e1 - e)) by (apply Z.pow_pos_nonneg; lia).
  assert (Hp1 : 0 < 2 ^ (g - e1)) by (apply Z.pow_pos_nonneg; lia).
  assert (Hsplit : 2 ^ (g - e) = 2 ^ (g - e1) * 2 ^ (e1 - e)).
  { rewrite <- Z.pow_add_r by lia. f_equal. lia. }
  set (m2 := round_nearest_even (shr_m r1) (loc_of_shr_record r1)).
  assert (Hm2 : L * 2 ^ (g - e1) <= m2 <= U * 2 ^ (g - e1)).
  { assert (Hlow : L * 2 ^ (g - e1) <= shr_m r1).
    { rewrite Hm1. apply Z.div_le_lower_bound; [done|]. nia. }
    pose proof (round_nearest_even_bounds (shr_m r1) (loc_of_shr_record r1) ltac:(nia)) as Hb.
    fold m2 in Hb. split; [lia|].
    destruct (decide (Zpos M mod 2 ^ (e1 - e) = 0)) as [Hmod|Hmod].
    - unfold m2. rewrite (Hx1 Hmod), round_nearest_even_exact, Hm1.
      apply Z.div_le_upper_bound; [done|]. nia.
    - assert (shr_m r1 < U * 2 ^ (g - e1)); [|lia].
      rewrite Hm1. apply Z.div_lt_upper_bound; [done|].
      pose proof (Z.div_mod (Zpos M) (2 ^ (e1 - e)) ltac:(lia)) as Hdm.
      pose proof (Z.mod_pos_bound (Zpos M) (2 ^ (e1 - e)) Hw) as Hmb.
      assert (Zpos M ≠ 2 ^ (e1 - e) * (U * 2 ^ (g - e1))); [|nia].
      intros Heq. apply Hmod. rewrite Heq, Z.mul_comm. apply Z.mod_mul. lia. }
  clearbody m2. clear Hm1 Hx1.
  (* the second shift *)
  assert (Hd2 : 0 <= Zdigits2 m2 <= 24 + g - e1).
  { apply Zdigits2_bound; [lia|]. split; [nia|].
    replace (24 + g - e1) with (24 + (g - e1)) by lia. rewrite Z.pow_add_r by lia. nia. }
  unfold shr_fexp. cbn [shr_record_of_loc].
  set (n2 := fexp F32.prec F32.emax (Zdigits2 m2 + e1) - e1).
  assert (Hn2 : e1 + n2 <= g) by (unfold n2, fexp, emin, F32.prec, F32.emax; lia).
  pose proof (shr_spec m2 e1 n2 ltac:(nia)) as Hs2.
  destruct (shr (Build_shr_record m2 false false) e1 n2) as [r2 e2].
  destruct Hs2 as (He2 & Hm3 & _).
  assert (He2g : e1 <= e2 <= g) by lia.
  assert (Hw2 : 0 < 2 ^ (e2 - e1)) by (apply Z.pow_pos_nonneg; lia).
  assert (Hp2 : 0 < 2 ^ (g - e2)) by (apply Z.pow_pos_nonneg; lia).
  assert (Hsplit2 : 2 ^ (g - e1) = 2 ^ (g - e2) * 2 ^ (e2 - e1)).
  { rewrite <- Z.pow_add_r by lia. f_equal. lia. }
  assert (Hm3b : L * 2 ^ (g - e2) <= shr_m r2 <= U * 2 ^ (g - e2)).
  { rewrite Hm3. split.
    - apply Z.div_le_lower_bound; [done|]. nia.
    - apply Z.div_le_upper_bound; [done|]. nia. }
  destruct (shr_m r2) as [|m3|m3]; cbn [between].
  - nia.
  - unfold F32.emax, F32.prec. replace (e2 <=? 128 - 24) with true by lia.
    cbn [between]. split; [lia|done].
  - nia.
Qed.

(** A float of [[0, 1]] is a zero, or [m * 2^e] with [m <= 2^(-e)]. *)
Lemma in_unit_cases t :
  F32.in_unit t = true →
  (∃ s, t = S754_zero s)
  ∨ ∃ m e, t = S754_finite false m e ∧ e <= -23 ∧ Zpos m <= 2 ^ (- e).
Proof.
  unfold F32.in_unit, F32.valid, F32.leb, F32.zero, F32.one, SFleb.
  intros H. apply andb_prop in H as [H Hle]. apply andb_prop in H as [Hv Hge].
  destruct t as [s|s| |s m e]; [by left; exists s|by destruct s|done|right].
  destruct s; [done|]. exists m, e. split; [done|].
  cbn [valid_binary] in Hv. unfold bounded, canonical_mantissa in Hv.
  apply andb_prop in Hv as [Hc _]. apply Z.eqb_eq in Hc.
  unfold fexp, emin, F32.prec, F32.emax in Hc.
  assert (Hd : Zpos (digits2_pos m) <= 24) by lia.
  rewrite digits2_pos_log2 in Hd.
  assert (Hm : Zpos m < 2 ^ 24).
  { apply Z.log2_lt_pow2; lia. }
  cbn [SFcompare] in Hle. destruct (Z.compare_spec e (-23)) as [Heq|Hlt|Hgt]; [subst e| |done].
  - split; [lia|]. change (2 ^ (- -23)) with 8388608.
    apply Pos2Z.pos_le_pos. unfold Pos.le. intros Hgt.
    rewrite Pos.compare_cont_spec in Hle. rewrite Hgt in Hle.
    discriminate Hle.
  - split; [lia|]. assert (2 ^ 24 <= 2 ^ (- e)); [|lia].
    apply Z.pow_le_mono_r; lia.
Qed.

Lemma shl_align_spec m e e' :
  let '(m', e'') := shl_align m e e' in
  e'' = Z.min e e' ∧ Zpos m' = Zpos m * 2 ^ (e - e'').
Proof.
  unfold shl_align. destruct (e' - e) as [|d|d] eqn:E.
  - rewrite Z.min_l by lia. by rewrite Z.sub_diag, Z.pow_0_r, Z.mul_1_r.
  - rewrite Z.min_l by lia. by rewrite Z.sub_diag, Z.pow_0_r, Z.mul_1_r.
  - rewrite Z.min_r by lia. split; [done|].
    unfold shift_pos. rewrite Zpos_iter_xO. do 2 f_equal. lia.
Qed.

(** The product of a count below [2^24] and a float of [[0, 1]] lies
    between the floor and the ceiling of the exact product. *)
Lemma mul_between k mt et :
  1 <= k < 2 ^ 24 → et <= 0 → Zpos mt <= 2 ^ (- et) →
  between 0 ((k * Zpos mt) / 2 ^ (- et)) (- ((- (k * Zpos mt)) / 2 ^ (- et)))
    (F32.mul (F32.of_int k) (S754_finite false mt et)).
Proof.
  intros Hk He Ht.
  destruct (of_int_exact k Hk) as (mk & ek & -> & Hmk & Hek & Hval).
  unfold F32.mul, SFmul. cbn [xorb].
  assert (Hb : 0 < 2 ^ (- et)) by (apply Z.pow_pos_nonneg; lia).
  assert (Hbk : 0 < 2 ^ (- ek)) by (apply Z.pow_pos_nonneg; lia).
  pose proof (Z.div_mod (k * Zpos mt) (2 ^ (- et)) ltac:(lia)) as Hdm.
  pose proof (Z.mod_pos_bound (k * Zpos mt) (2 ^ (- et)) Hb) as Hmb.
  pose proof (Z.div_mod (- (k * Zpos mt)) (2 ^ (- et)) ltac:(lia)) as Hdm'.
  pose proof (Z.mod_pos_bound (- (k * Zpos mt)) (2 ^ (- et)) Hb) as Hmb'.
  assert (Hup : - (- (k * Zpos mt) / 2 ^ (- et)) <= k).
  { assert (- k <= - (k * Zpos mt) / 2 ^ (- et)); [|lia].
    apply Z.div_le_lower_bound; [done|]. nia. }
  apply binary_round_aux_between; [lia|lia| |lia|].
  - apply Z.div_pos; lia.
  - replace (0 - (ek + et)) with (- et + - ek) by lia. rewrite Z.pow_add_r by lia.
    rewrite Pos2Z.inj_mul, Hval. nia.
Qed.

(** Adding one half moves the bounds to the half-integers above them. *)
Lemma add_half_between p L U :
  0 <= L <= U → U < 2 ^ 23 → between 0 L U p →
  between (-1) (2 * L + 1) (2 * U + 1) (F32.add p F32.half).
Proof.
  intros HL HU Hp. destruct p as [s|s| |s m e]; try done.
  - cbn [between] in Hp. unfold F32.add, F32.half. cbn [SFadd between].
    split; [lia|]. change (2 ^ (-1 - -24)) with 8388608. lia.
  - destruct s; [done|]. destruct Hp as [He Hm]. rewrite Z.sub_0_l in Hm.
    unfold F32.add, F32.half, SFadd. set (ez := Z.min e (-24)).
    pose proof (shl_align_spec m e ez) as Ha.
    destruct (shl_align m e ez) as [ma ea]. destruct Ha as [Hea Hma].
    pose proof (shl_align_spec 8388608 (-24) ez) as Hh.
    destruct (shl_align 8388608 (-24) ez) as [mh eh]. destruct Hh as [Heh Hmh].
    cbn [fst cond_Zopp]. replace ea with ez in Hma by lia. replace eh with ez in Hmh by lia.
    change (Zpos ma + Zpos mh) with (Zpos (ma + mh)). cbn [binary_normalize].
    unfold binary_round.
    set (f := fexp F32.prec F32.emax (Zpos (digits2_pos (ma + mh)) + ez)).
    pose proof (shl_align_spec (ma + mh) ez f) as Hz.
    destruct (shl_align (ma + mh) ez f) as [mz e']. destruct Hz as [He' Hmz].
    assert (Hez : ez <= -24 ∧ ez <= e) by (unfold ez; lia).
    assert (P1 : 0 < 2 ^ (- e)) by (apply Z.pow_pos_nonneg; lia).
    assert (P2 : 0 < 2 ^ (e - ez)) by (apply Z.pow_pos_nonneg; lia).
    assert (P3 : 0 < 2 ^ (ez - e')) by (apply Z.pow_pos_nonneg; lia).
    assert (P4 : 2 ^ (-1 - e') = 2 ^ (-24 - ez) * 2 ^ 23 * 2 ^ (ez - e')).
    { rewrite <- !Z.pow_add_r by lia. f_equal. lia. }
    assert (P5 : 2 * 2 ^ (-1 - e') = 2 ^ (- e) * 2 ^ (e - ez) * 2 ^ (ez - e')).
    { rewrite <- !Z.pow_add_r by lia. rewrite <- Z.pow_succ_r by lia. f_equal. lia. }
    apply binary_round_aux_between; [lia|lia|lia|change (2 ^ 24) with (2 * 2 ^ 23); lia|].
    rewrite Hmz, Pos2Z.inj_add, Hma, Hmh. change (Z.pos 8388608) with (2 ^ 23).
    assert (P6 : 0 < 2 ^ (-24 - ez)) by (apply Z.pow_pos_nonneg; lia).
    set (A := 2 ^ (- e)) in *. set (B := 2 ^ (e - ez)) in *. set (C := 2 ^ (ez - e')) in *.
    set (D := 2 ^ (-24 - ez)) in *. set (E := 2 ^ (-1 - e')) in *.
    assert (HAB : 0 < B * C) by nia.
    split.
    + replace ((2 * L + 1) * E) with (L * (2 * E) + E) by lia. rewrite P5, P4.
      assert (L * A * (B * C) <= Zpos m * (B * C)) by (apply Z.mul_le_mono_nonneg_r; lia).
      nia.
    + replace ((2 * U + 1) * E) with (U * (2 * E) + E) by lia. rewrite P5, P4.
      assert (Zpos m * (B * C) <= U * A * (B * C)) by (apply Z.mul_le_mono_nonneg_r; lia).
      nia.
Qed.

Lemma to_int_between L U y :
  0 <= L <= U → U <= INT_MAX → between 0 L U y →
  ∃ v, F32.to_int y = Some v ∧ L <= v <= U.
Proof.
  intros HL HU Hy. destruct y as [s|s| |s m e]; try done.
  - exists 0. cbn [between] in Hy. split; [done|lia].
  - destruct s; [done|]. destruct Hy as [He Hm]. rewrite Z.sub_0_l in Hm.
    assert (Hb : 0 < 2 ^ (- e)) by (apply Z.pow_pos_nonneg; lia).
    pose proof (Z.div_mod (Zpos m) (2 ^ (- e)) ltac:(lia)) as Hdm.
    pose proof (Z.mod_pos_bound (Zpos m) (2 ^ (- e)) Hb) as Hmb.
    assert (Hv : L <= Zpos m / 2 ^ (- e) <= U).
    { split; [apply Z.div_le_lower_bound; [done|]; lia|].
      apply Z.div_le_upper_bound; [done|]. lia. }
    exists (Zpos m / 2 ^ (- e)). split; [|done].
    apply to_int_floor; [done|lia|lia].
Qed.

Lemma to_int_between_half L U y :
  0 <= L <= U → U <= INT_MAX → between (-1) (2 * L + 1) (2 * U + 1) y →
  ∃ v, F32.to_int y = Some v ∧ L <= v <= U.
Proof.
  intros HL HU Hy. destruct y as [s|s| |s m e]; try done.
  - cbn [between] in Hy. lia.
  - destruct s; [done|]. destruct Hy as [He Hm].
    assert (Hb : 0 < 2 ^ (- e)) by (apply Z.pow_pos_nonneg; lia).
    assert (Hh : 0 < 2 ^ (-1 - e)) by (apply Z.pow_pos_nonneg; lia).
    assert (Hp : 2 ^ (- e) = 2 * 2 ^ (-1 - e)).
    { rewrite <- Z.pow_succ_r by lia. f_equal. lia. }
    assert (Hv : L <= Zpos m / 2 ^ (- e) <= U).
    { split; [apply Z.div_le_lower_bound; [done|]; nia|].
      assert (Zpos m / 2 ^ (- e) < U + 1); [|lia].
      apply Z.div_lt_upper_bound; [done|]. nia. }
    pose proof (Z.div_mod (Zpos m) (2 ^ (- e)) ltac:(lia)) as Hdm.
    pose proof (Z.mod_pos_bound (Zpos m) (2 ^ (- e)) Hb) as Hmb.
    exists (Zpos m / 2 ^ (- e)). split; [|done].
    apply to_int_floor; [lia|lia|lia].
Qed.

(** The floor and the ceiling of an exact product [k * t], [0 <= t <= 1]. *)
Lemma floor_ceil_scaled k (m : positive) e :
  0 <= k → e < 0 → Zpos m <= 2 ^ (- e) →
  let lo := (k * Zpos m) / 2 ^ (- e) in
  let hi := - ((- (k * Zpos m)) / 2 ^ (- e)) in
  0 <= lo ∧ lo <= hi ∧ hi <= lo + 1 ∧ hi <= k
  ∧ floor_scaled k m e = lo ∧ lo <= round_scaled k m e <= hi.
Proof.
  intros Hk He Hm. cbn zeta.
  assert (Hb : 0 < 2 ^ (- e)) by (apply Z.pow_pos_nonneg; lia).
  pose proof (Z.div_mod (k * Zpos m) (2 ^ (- e)) ltac:(lia)) as Hdm.
  pose proof (Z.mod_pos_bound (k * Zpos m) (2 ^ (- e)) Hb) as Hmb.
  pose proof (Z.div_mod (- (k * Zpos m)) (2 ^ (- e)) ltac:(lia)) as Hdm'.
  pose proof (Z.mod_pos_bound (- (k * Zpos m)) (2 ^ (- e)) Hb) as Hmb'.
  assert (H2 : 2 ^ (1 - e) = 2 * 2 ^ (- e)).
  { rewrite <- Z.pow_succ_r by lia. f_equal. lia. }
  unfold floor_scaled, round_scaled. replace (0 <=? e) with false by lia. rewrite H2.
  set (a := k * Zpos m) in *. set (b := 2 ^ (- e)) in *.
  set (lo := a / b) in *. set (q := - a / b) in *.
  assert (0 <= lo) by (apply Z.div_pos; lia).
  assert (- k <= q) by (apply Z.div_le_lower_bound; [done|]; nia).
  assert (lo <= - q) by nia. assert (- q <= lo + 1) by nia.
  repeat split; try lia.
  - apply Z.div_le_lower_bound; [lia|]. nia.
  - replace (2 * k * Zpos m) with (2 * a) by lia.
    assert ((2 * a + b) / (2 * b) < - q + 1); [|lia].
    apply Z.div_lt_upper_bound; [lia|]. nia.
Qed.

(** On a table of at most [2^23] entries and for [t] in [[0, 1]], the
    index computed in single precision stays in the table and within one
    of the index of the exact formula. *)
Lemma LerpTable_idx_near_spec qual siz t :
  1 <= siz <= 2 ^ 23 → F32.in_unit t = true →
  ∃ idx sp, LerpTable_idx qual siz t = Some idx ∧ spec_index qual siz t = Some sp
            ∧ 0 <= idx <= siz - 1
            ∧ (if qual then sp <= idx <= sp + 1 else sp - 1 <= idx <= sp + 1).
Proof.
  intros Hs Ht. destruct (in_unit_cases t Ht) as [[s ->]|(m & e & -> & He & Hm)].
  - exists 0, 0. unfold LerpTable_idx, spec_index. destruct qual.
    + destruct (of_int_exact siz) as (mk & ek & -> & _); [lia|].
      cbn. unfold ImClamp. replace (siz - 1 <? 0) with false by lia. cbn.
      repeat split; lia.
    + destruct (decide (siz = 1)) as [->|Hne]; [cbn; repeat split; lia|].
      destruct (of_int_exact (siz - 1)) as (mk & ek & -> & _); [lia|].
      cbn. repeat split; lia.
  - unfold LerpTable_idx, spec_index. destruct qual.
    + destruct (floor_ceil_scaled siz m e) as (H0 & H1 & H2 & H3 & -> & _); [lia..|].
      pose proof (mul_between siz m e ltac:(lia) ltac:(lia) Hm) as Hb.
      destruct (to_int_between _ _ _ (conj H0 H1) ltac:(unfold INT_MAX; lia) Hb)
        as (v & -> & Hv).
      eexists _, _. split; [done|]. split; [done|].
      unfold ImClamp. repeat case_match; lia.
    + destruct (decide (siz = 1)) as [->|Hne].
      { exists 0, 0. cbn. unfold round_scaled. replace (0 <=? e) with false by lia.
        assert (Hb : 0 < 2 ^ (- e)) by (apply Z.pow_pos_nonneg; lia).
        assert (H2 : 2 ^ (1 - e) = 2 * 2 ^ (- e)).
        { rewrite <- Z.pow_succ_r by lia. f_equal. lia. }
        split; [done|]. split; [|lia]. f_equal. cbn. rewrite H2.
        apply Z.div_small. lia. }
      destruct (floor_ceil_scaled (siz - 1) m e) as (H0 & H1 & H2 & H3 & _ & Hr); [lia..|].
      pose proof (mul_between (siz - 1) m e ltac:(lia) ltac:(lia) Hm) as Hb.
      pose proof (add_half_between _ _ _ (conj H0 H1) ltac:(lia) Hb) as Hb'.
      destruct (to_int_between_half _ _ _ (conj H0 H1) ltac:(unfold INT_MAX; lia) Hb')
        as (v & -> & Hv).
      eexists _, _. split; [done|]. split; [done|]. lia.
Qed.

(* ================================================================== *)
(** * The index [LerpTable] computes *)

Lemma LerpTable_idx_zero qual siz :
  1 <= siz <= INT_MAX → LerpTable_idx qual siz F32.zero = Some 0.
Proof.
  intros Hs. unfold LerpTable_idx. destruct qual.
  - pose proof (of_int_finite siz ltac:(lia)) as Hf.
    destruct (F32.of_int siz) as [s| | |s m e]; try done; cbn;
      unfold ImClamp; cbn; by replace (siz - 1 <? 0) with false by lia.
  - pose proof (of_int_finite (siz - 1) ltac:(lia)) as Hf.
    destruct (F32.of_int (siz - 1)) as [s| | |s m e]; try done; simpl in Hf; by subst.
Qed.

Lemma LerpTable_idx_one qual siz :
  1 <= siz <= 2 ^ 23 → LerpTable_idx qual siz F32.one = Some (siz - 1).
Proof.
  intros Hs. unfold LerpTable_idx. destruct qual.
  - destruct (of_int_exact siz) as (m & e & -> & Hm & He & Hval); [lia|].
    rewrite mul_one_exact by lia.
    rewrite (to_int_floor m e siz) by (unfold INT_MAX; lia).
    cbn [mbind option_bind]. unfold ImClamp.
    replace (siz <? 0) with false by lia. by replace (siz - 1 <? siz) with true by lia.
  - destruct (decide (siz = 1)) as [->|Hne]; [done|].
    destruct (of_int_exact (siz - 1)) as (m & e & -> & Hm & He & Hval); [lia|].
    rewrite mul_one_exact by lia.
    assert (He' : e <= -1).
    { destruct (decide (e = 0)) as [->|]; [|lia]. simpl in Hval. lia. }
    destruct (add_half_exact m e (siz - 1)) as (m' & -> & Hm'); [lia..|].
    assert (Hp2 : 2 ^ (- e) = 2 * 2 ^ (- e - 1)).
    { rewrite <- Z.pow_succ_r by lia. f_equal. lia. }
    assert (Hp : 0 < 2 ^ (- e - 1)) by (apply Z.pow_pos_nonneg; lia).
    apply to_int_floor; [lia|unfold INT_MAX; lia|nia].
Qed.

Lemma ImClamp_range v siz : 1 <= siz → 0 <= ImClamp v 0 (siz - 1) <= siz - 1.
Proof. intros Hs. unfold ImClamp. repeat case_match; lia. Qed.

(** A string literal holds no NUL. *)
Ltac solve_no_nul :=
  let Hin := fresh "Hin" in
  unfold no_nul; cbn; intros Hin;
  repeat (apply elem_of_cons in Hin as [Hin|Hin]; [discriminate Hin|]);
  by apply elem_of_nil in Hin.

Section LerpClaims.
Context `{Host}.
Implicit Types (d : ImPlot3DColormapData) (cms : list colormap) (c : colormap).

Lemma repr_LerpTable cms d (n : nat) c t :
  repr cms d → cms !! n = Some c →
  LerpTable d (Z.of_nat n) t
  = idx ← LerpTable_idx (cm_qual c) (table_size c) t; GetTableColor d (Z.of_nat n) idx.
Proof.
  intros Hr Hc. unfold LerpTable, GetTableColor.
  rewrite (repr_TableOffsets_at cms d Hr n c Hc). cbn [mbind option_bind].
  pose proof (repr_GetTableSize cms d Hr n c Hc) as Hs. unfold GetTableSize in Hs.
  rewrite Hs. cbn [mbind option_bind].
  pose proof (repr_IsQual cms d (proj1 Hr) n c Hc) as Hq. unfold IsQual in Hq.
  rewrite Hq. done.
Qed.

(** C2, as amended.  [LerpTable] returns the table entry at the index
    that [LerpTable_idx] computes in single precision: the clamped
    truncation of [siz * t] for a qualitative table, the truncation of
    [(siz - 1) * t + 0.5f] for a continuous one.  For a table of at most
    [2^23] entries and [t] in [[0, 1]] that index is in the table, and it
    is the index of the exact formula or its neighbour: never below
    [clamp (floor (siz * t))] and at most one above it, at most one away
    from [round ((siz - 1) * t)].  In the 256-entry table of the two-key
    example, [t = 0.5] selects entry 128. *)
Theorem LerpTable_selects_single_precision_index d cmap siz qual t :
  reachable d → GetTableSize d cmap = Some siz → IsQual d cmap = Some qual →
  siz <= 2 ^ 23 → F32.in_unit t = true →
  (∃ idx sp color,
      LerpTable_idx qual siz t = Some idx
      ∧ spec_index qual siz t = Some sp
      ∧ 0 <= idx <= siz - 1
      ∧ (if qual then sp <= idx <= sp + 1 else sp - 1 <= idx <= sp + 1)
      ∧ GetTableColor d cmap idx = Some color
      ∧ LerpTable d cmap t = Some color)
  ∧ ∃ rb,
      Append "RB" [0xFF0000FF; 0x0000FFFF] 2 false ImPlot3DColormapData_new = Some (rb, 0)
      ∧ GetTableSize rb 0 = Some 256
      ∧ LerpTable_idx false 256 F32.half = Some 128
      ∧ LerpTable rb 0 F32.half = GetTableColor rb 0 128
      ∧ GetTableColor rb 0 128 = Some 0x7F007FFF.
Proof.
  intros Hreach Hsiz Hqual Hsmall Ht. split.
  - destruct (reachable_repr d Hreach) as [cms Hr].
    assert (Hcmap : 0 <= cmap < Count d).
    { unfold GetTableSize in Hsiz. apply at_lt in Hsiz.
      rewrite (repr_TableSizes _ _ _ (proj2 Hr)) in Hsiz. unfold ImVector.size in Hsiz.
      rewrite length_fmap, firstn_all in Hsiz. by rewrite (repr_Count _ _ (proj1 Hr)). }
    destruct (repr_lookup_lt cms d Hr cmap Hcmap) as (n & c & -> & Hc).
    rewrite (repr_GetTableSize cms d Hr n c Hc) in Hsiz.
    rewrite (repr_IsQual cms d (proj1 Hr) n c Hc) in Hqual. simplify_eq.
    destruct (repr_colormap_ok cms d Hr n c Hc) as (Hne & _).
    pose proof (table_of_nonempty c Hne) as Hlen.
    assert (Hsz : 1 <= table_size c) by (unfold table_size in *; lia).
    destruct (LerpTable_idx_near_spec (cm_qual c) (table_size c) t (conj Hsz Hsmall) Ht)
      as (idx & sp & Hidx & Hsp & Hrange & Hnear).
    destruct (lookup_lt_is_Some_2 (table_of c) (Z.to_nat idx)) as [color Hcol].
    { unfold table_size in Hrange. lia. }
    assert (Hget : GetTableColor d (Z.of_nat n) idx = Some color).
    { replace idx with (Z.of_nat (Z.to_nat idx)) at 1 by lia.
      rewrite (repr_GetTableColor cms d Hr n _ c Hc); [done|].
      unfold table_size in Hrange. lia. }
    exists idx, sp, color. repeat (split; [done|]).
    rewrite (repr_LerpTable cms d n c _ Hr Hc), Hidx. done.
  - destruct (Append_fresh [] ImPlot3DColormapData_new "RB" [0xFF0000FF; 0x0000FFFF] 2 false)
      as (rb & Happ & Hr).
    + apply repr_new.
    + done.
    + simpl. lia.
    + repeat constructor; unfold is_u32; lia.
    + solve_no_nul.
    + intros _. unfold INT_MAX. lia.
    + exists rb. simpl in Happ, Hr. split; [done|].
      set (c := mkColormap "RB" [0xFF0000FF; 0x0000FFFF] false) in *.
      assert (Hc : [c] !! 0%nat = Some c) by done.
      assert (H128 : GetTableColor rb 0 128 = Some 0x7F007FFF).
      { change 128 with (Z.of_nat 128). change 0 with (Z.of_nat 0) at 1.
        rewrite (repr_GetTableColor _ _ Hr 0 128 c Hc) by (vm_compute; lia).
        unfold table_of, build_table, c, ramp, ramp_segment. cbn [cm_qual cm_keys].
        rewrite lookup_app_l by (rewrite length_fmap, length_seqZ; lia).
        rewrite list_lookup_fmap, lookup_seqZ_lt by lia. cbn [fmap option_fmap option_map].
        unfold ImMixU32. destruct IMPLOT_MIX64; vm_compute; done. }
      split; [|split; [|split]].
      * change 0 with (Z.of_nat 0) at 1. rewrite (repr_GetTableSize _ _ Hr 0 c Hc).
        unfold table_size, table_of, build_table, c. cbn [cm_qual cm_keys].
        by rewrite length_ramp.
      * by vm_compute.
      * change 0 with (Z.of_nat 0) at 1 2. rewrite (repr_LerpTable _ _ 0 c _ Hr Hc).
        assert (Hts : table_size c = 256).
        { unfold table_size, table_of, build_table, c. cbn [cm_qual cm_keys].
          rewrite length_ramp by done. done. }
        rewrite Hts. cbn [cm_qual c].
        replace (LerpTable_idx false 256 F32.half) with (Some 128) by (by vm_compute).
        done.
      * done.
Qed.

(** Where the two ends do come out: for a registered colormap
    [LerpTable] at [0.0] returns the first table entry, which is the first
    key; at [1.0] it returns the last table entry when the table has at
    most [2^23] entries, where every operation on the way is exact. *)
Lemma LerpTable_ends d cmap siz :
  reachable d → GetTableSize d cmap = Some siz → siz <= INT_MAX →
  ∃ first last,
    GetKeyColor d cmap 0 = Some first
    ∧ GetTableColor d cmap 0 = Some first
    ∧ GetTableColor d cmap (siz - 1) = Some last
    ∧ LerpTable d cmap F32.zero = Some first
    ∧ (siz <= 2 ^ 23 → LerpTable d cmap F32.one = Some last).
Proof.
  intros Hreach Hsiz Hbound.
  destruct (reachable_repr d Hreach) as [cms Hr].
  assert (Hcmap : 0 <= cmap < Count d).
  { unfold GetTableSize in Hsiz. apply at_lt in Hsiz.
    rewrite (repr_TableSizes _ _ _ (proj2 Hr)) in Hsiz. unfold ImVector.size in Hsiz.
    rewrite length_fmap, firstn_all in Hsiz. by rewrite (repr_Count _ _ (proj1 Hr)). }
  destruct (repr_lookup_lt cms d Hr cmap Hcmap) as (n & c & -> & Hc).
  rewrite (repr_GetTableSize cms d Hr n c Hc) in Hsiz. simplify_eq.
  destruct (repr_colormap_ok cms d Hr n c Hc) as (Hne & Hu32 & _).
  pose proof (table_of_nonempty c Hne) as Hlen.
  assert (Hsz : 1 <= table_size c) by (unfold table_size in *; lia).
  destruct (cm_keys c) as [|k0 ks] eqn:Hkeys; [done|].
  assert (Hfirst : table_of c !! 0%nat = Some k0).
  { unfold table_of, build_table. rewrite Hkeys. destruct (cm_qual c); [done|].
    apply ramp_first. by inversion Hu32. }
  destruct (lookup_lt_is_Some_2 (table_of c) (length (table_of c) - 1)) as [kl Hlast]; [lia|].
  assert (Hgf : GetTableColor d (Z.of_nat n) 0 = Some k0).
  { change 0 with (Z.of_nat 0). by rewrite (repr_GetTableColor cms d Hr n 0 c Hc). }
  assert (Hgl : GetTableColor d (Z.of_nat n) (table_size c - 1) = Some kl).
  { replace (table_size c - 1) with (Z.of_nat (length (table_of c) - 1))
      by (unfold table_size; lia).
    rewrite (repr_GetTableColor cms d Hr n _ c Hc) by lia. done. }
  exists k0, kl. split; [|split; [done|split; [done|split]]].
  - change 0 with (Z.of_nat 0).
    rewrite (repr_GetKeyColor cms d (proj1 Hr) n 0 c Hc) by (rewrite Hkeys; simpl; lia).
    by rewrite Hkeys.
  - rewrite (repr_LerpTable cms d n c _ Hr Hc), LerpTable_idx_zero by done. done.
  - intros Hsmall.
    rewrite (repr_LerpTable cms d n c _ Hr Hc), LerpTable_idx_one by done. done.
Qed.

(** Reading one past the table of the first colormap finds the first
    entry of the second. *)
Lemma repr_pair_past_end c c2 d t :
  repr [c; c2] d → cm_qual c = false →
  LerpTable_idx false (table_size c) t = Some (table_size c) →
  LerpTable d 0 t = table_of c2 !! 0%nat.
Proof.
  intros Hr Hq Hidx.
  assert (Hc : [c; c2] !! 0%nat = Some c) by done.
  assert (Hc2 : [c; c2] !! 1%nat = Some c2) by done.
  destruct (repr_colormap_ok _ _ Hr 1 c2 Hc2) as (Hne & _ & _).
  pose proof (table_of_nonempty c2 Hne) as Hlen.
  change 0 with (Z.of_nat 0).
  rewrite (repr_LerpTable _ _ 0 c _ Hr Hc), Hq, Hidx. cbn [mbind option_bind].
  unfold GetTableColor. rewrite (repr_TableOffsets_at _ _ Hr 0 c Hc).
  cbn [mbind option_bind].
  pose proof (repr_Tables_at _ _ Hr 1 0 c2 Hc2 Hlen) as Hat.
  rewrite <- Hat. f_equal. unfold table_offset, table_size.
  cbn [take fmap list_fmap concat length]. rewrite app_nil_r. lia.
Qed.

(** The continuous colormap of 32898 keys, followed by a palette of one
    color: at [t = 1.0] the lookup in the first leaves its table. *)
Lemma past_end_reads_next (keys : list Z) (k : Z) :
  length keys = Z.to_nat 32898 → Forall is_u32 keys → is_u32 k →
  ImHashStr "big" ≠ ImHashStr "next" →
  ∃ d1 d,
    Append "big" keys 32898 false ImPlot3DColormapData_new = Some (d1, 0)
    ∧ Append "next" [k] 1 true d1 = Some (d, 1)
    ∧ GetTableSize d 0 = Some 8388736
    ∧ GetTableColor d 0 (8388736 - 1) = keys !! Z.to_nat 32897
    ∧ LerpTable d 0 F32.one = Some k.
Proof.
  intros Hlen Hu32 Hk Hhash.
  destruct (Append_fresh [] ImPlot3DColormapData_new "big" keys 32898 false)
    as (d1 & Happ1 & Hr1);
    [apply repr_new|done|lia|done|solve_no_nul|intros _; unfold INT_MAX; lia|].
  rewrite app_nil_l in Hr1. change (length []) with 0%nat in Happ1.
  set (c := mkColormap "big" (take (Z.to_nat 32898) keys) false) in *.
  destruct (Append_fresh [c] d1 "next" [k] 1 true) as (d & Happ & Hr).
  - done.
  - apply (repr_GetIndex_free_names [c] d1 "next" (proj1 Hr1)).
    intros c' Hc'. apply list_elem_of_singleton in Hc'. by subst c'.
  - simpl. lia.
  - by apply Forall_singleton.
  - solve_no_nul.
  - done.
  - change (Z.of_nat (length [c])) with 1 in Happ.
    change (take (Z.to_nat 1) [k]) with [k] in Hr.
    set (c2 := mkColormap "next" [k] true) in *.
    change ([c] ++ [c2]) with [c; c2] in Hr.
    assert (Hc : [c; c2] !! 0%nat = Some c) by done.
    assert (Hks : length (cm_keys c) = Z.to_nat 32898).
    { unfold c. cbn [cm_keys]. rewrite length_take. lia. }
    assert (Hne : cm_keys c ≠ []).
    { intros E. rewrite E in Hks. change (length (@nil Z)) with 0%nat in Hks. lia. }
    assert (Hts : table_size c = 8388736).
    { unfold table_size, table_of, build_table. replace (cm_qual c) with false by done.
      rewrite length_ramp by done. lia. }
    exists d1, d. split; [done|]. split; [done|]. split; [|split].
    + change 0 with (Z.of_nat 0). by rewrite (repr_GetTableSize _ _ Hr 0 c Hc), Hts.
    + change 0 with (Z.of_nat 0) at 1.
      replace (8388736 - 1) with (Z.of_nat (length (table_of c) - 1))
        by (unfold table_size in Hts; lia).
      rewrite (repr_GetTableColor _ _ Hr 0 _ c Hc) by (unfold table_size in Hts; lia).
      replace (length (table_of c) - 1)%nat with (Init.Nat.pred (length (table_of c))) by lia.
      rewrite <- last_lookup. unfold table_of, build_table.
      replace (cm_qual c) with false by done. rewrite ramp_last, last_lookup, Hks.
      unfold c. cbn [cm_keys]. rewrite lookup_take_lt by lia. f_equal; lia.
    + rewrite (repr_pair_past_end c c2 d F32.one Hr); [done|done|].
      rewrite Hts. by vm_compute.
Qed.

Lemma repr_single_Tables_size c d : repr [c] d → ImVector.size (Tables d) = table_size c.
Proof.
  intros [_ Ht]. rewrite (repr_Tables _ _ _ Ht). unfold ImVector.size, table_size.
  cbn [length take fmap list_fmap concat]. by rewrite app_nil_r.
Qed.

(** A continuous colormap of 32898 keys, whatever the keys. *)
Lemma index_past_end_for (keys : list Z) :
  length keys = Z.to_nat 32898 → Forall is_u32 keys →
  ∃ d, Append "big" keys 32898 false ImPlot3DColormapData_new = Some (d, 0)
       ∧ GetTableSize d 0 = Some 8388736
       ∧ LerpTable_idx false 8388736 F32.one = Some 8388736
       ∧ LerpTable d 0 F32.one = None.
Proof.
  intros Hlen Hu32.
  destruct (Append_fresh [] ImPlot3DColormapData_new "big" keys 32898 false)
    as (d & Happ & Hr).
  - apply repr_new.
  - done.
  - rewrite Hlen. lia.
  - done.
  - solve_no_nul.
  - intros _. unfold INT_MAX. lia.
  - exists d. change (length []) with 0%nat in Happ. split; [exact Happ|].
    rewrite app_nil_l in Hr.
    set (c := mkColormap "big" (take (Z.to_nat 32898) keys) false) in *.
    assert (Hc : [c] !! 0%nat = Some c) by done.
    assert (Hts : table_size c = 8388736).
    { unfold table_size, table_of, build_table, c. cbn [cm_qual cm_keys].
      rewrite length_ramp.
      - rewrite length_take, Hlen. lia.
      - intros E. apply (f_equal length) in E. rewrite length_take, Hlen in E.
        change (length (@nil Z)) with 0%nat in E. lia. }
    assert (Hidx : LerpTable_idx false 8388736 F32.one = Some 8388736) by (by vm_compute).
    split; [|split; [done|]].
    + change 0 with (Z.of_nat 0). by rewrite (repr_GetTableSize _ _ Hr 0 c Hc), Hts.
    + change 0 with (Z.of_nat 0).
      rewrite (repr_LerpTable _ _ 0 c _ Hr Hc), Hts.
      replace (cm_qual c) with false by done.
      rewrite Hidx. cbn [mbind option_bind]. unfold GetTableColor.
      rewrite (repr_TableOffsets_at _ _ Hr 0 c Hc). cbn [mbind option_bind].
      apply at_None_ge. rewrite (repr_single_Tables_size c d Hr), Hts.
      unfold table_offset. cbn [take fmap list_fmap concat length]. lia.
Qed.

(** C9, at the input where the code leaves the table.  The continuous
    colormap of 32898 keys has a table of 8388736 entries; at [t = 1.0]
    the index is 8388736, one past the last entry, and the lookup
    [Tables[off + idx]] stops on the vector's assertion. *)
Theorem continuous_index_past_end :
  ∃ d, Append "big" (replicate (Z.to_nat 32898) 0) 32898 false ImPlot3DColormapData_new
       = Some (d, 0)
       ∧ GetTableSize d 0 = Some 8388736
       ∧ LerpTable_idx false 8388736 F32.one = Some 8388736
       ∧ LerpTable d 0 F32.one = None.
Proof.
  apply index_past_end_for.
  - apply length_replicate.
  - apply Forall_replicate. unfold is_u32. lia.
Qed.

End LerpClaims.

(* ================================================================== *)
(** * Tickers *)

Lemma read_terminated (l rest : list ascii) :
  is_Some (ImGuiTextBuffer.read (l ++ NUL :: rest)).
Proof.
  induction l as [|a l [cs IH]]; simpl.
  - eauto.
  - destruct (Ascii.eqb a NUL); [eauto|]. rewrite IH. simpl. eauto.
Qed.

Lemma length_take_text (buf : list ascii) :
  Z.to_nat (ImGuiTextBuffer.size buf)
  = length (take ((if decide (length buf = 0%nat) then 1%nat else length buf) - 1) buf).
Proof.
  unfold ImGuiTextBuffer.size, ImVector.size. rewrite length_take.
  case_decide; lia.
Qed.

Section TickerProofs.
Context `{Host}.
Implicit Types (tk : ImPlot3DTicker) (tick : ImPlot3DTick).

(** Storing a label always finds it back in the buffer. *)
Lemma store_label_total tk tick text :
  ∃ tk' tick', Ticker.store_label tk tick text = Some (tk', tick')
               ∧ Ticks tk' = Ticks tk ∧ Idx tick' = Idx tick.
Proof.
  unfold Ticker.store_label, ImGuiTextBuffer.c_str_at.
  rewrite decide_True.
  2:{ unfold ImGuiTextBuffer.size, ImVector.size. case_decide; lia. }
  unfold ImGuiTextBuffer.append. rewrite length_take_text, drop_app_length.
  unfold c_str. rewrite <- app_assoc.
  destruct (read_terminated (list_ascii_of_string text) [NUL]) as [cs Hcs].
  simpl in Hcs |- *. rewrite Hcs. simpl. eauto.
Qed.

Lemma AddTick_appends tk tick :
  ∃ t, Ticks (Ticker.AddTick tk tick).1 = Ticks tk ++ [t]
       ∧ Idx t = Some (ImVector.size (Ticks tk))
       ∧ (Ticker.AddTick tk tick).2 = t.
Proof. unfold Ticker.AddTick. simpl. eauto. Qed.

(** Every overload returns, and adds one tick numbered by its position. *)
Lemma run_call_appends tk call :
  ∃ tk' t, run_call tk call = Some tk' ∧ Ticks tk' = Ticks tk ++ [t]
           ∧ Idx t = Some (ImVector.size (Ticks tk)).
Proof.
  destruct call as [tick|v m s l|v m s f]; simpl.
  - destruct (AddTick_appends tk tick) as (t & Ht & Hi & _). eauto.
  - unfold Ticker.AddTick_label.
    destruct s, l as [text|];
      try (destruct (AddTick_appends tk (ImPlot3DTick_new v m false)) as (t & Ht & Hi & _);
           simpl; by eauto);
      try (destruct (AddTick_appends tk (ImPlot3DTick_new v m true)) as (t & Ht & Hi & _);
           simpl; by eauto).
    destruct (store_label_total tk (ImPlot3DTick_new v m true) text)
      as (tk1 & tick1 & -> & Ht1 & _).
    destruct (AddTick_appends tk1 tick1) as (t & Ht & Hi & _).
    simpl. rewrite Ht1 in Ht, Hi. eauto.
  - unfold Ticker.AddTick_formatter.
    destruct s, f as [fmt|];
      try (destruct (AddTick_appends tk (ImPlot3DTick_new v m false)) as (t & Ht & Hi & _);
           simpl; by eauto);
      try (destruct (AddTick_appends tk (ImPlot3DTick_new v m true)) as (t & Ht & Hi & _);
           simpl; by eauto).
    destruct (store_label_total tk (ImPlot3DTick_new v m true)
                (fmt (PlotPos (ImPlot3DTick_new v m true)) IMPLOT3D_LABEL_MAX_SIZE))
      as (tk1 & tick1 & -> & Ht1 & _).
    destruct (AddTick_appends tk1 tick1) as (t & Ht & Hi & _).
    simpl. rewrite Ht1 in Ht, Hi. eauto.
Qed.

Lemma run_calls_appends tk calls :
  ∃ tk' new, run_calls tk calls = Some tk' ∧ Ticks tk' = Ticks tk ++ new
             ∧ length new = length calls
             ∧ ∀ (i : nat) t, new !! i = Some t →
                 Idx t = Some (ImVector.size (Ticks tk) + Z.of_nat i).
Proof.
  revert tk. induction calls as [|call calls IH]; intros tk.
  - exists tk, []. simpl. rewrite app_nil_r. repeat split; done.
  - destruct (run_call_appends tk call) as (tk1 & t & Hcall & Ht & Hi).
    destruct (IH tk1) as (tk2 & new & Hcalls & Hnew & Hlen & Hidx).
    exists tk2, (t :: new). simpl. rewrite Hcall. simpl.
    split; [done|]. split; [by rewrite Hnew, Ht, <- app_assoc|].
    split; [by rewrite Hlen|].
    intros [|i] t' Ht'; simpl in Ht'.
    + simplify_eq. rewrite Hi. f_equal. lia.
    + rewrite (Hidx i t' Ht'), Ht. unfold ImVector.size. rewrite length_app. simpl.
      f_equal. lia.
Qed.

(** C8.  From a ticker just reset, any sequence of [AddTick] calls
    returns; the ticker then holds one tick per call and the [i]-th tick
    has [Idx = i]; calls made later only append: the ticks already there
    stay as they are, in their order. *)
Theorem ticks_numbered_in_insertion_order tk0 calls later :
  ∃ tk tk',
    run_calls (Ticker.Reset tk0) calls = Some tk
    ∧ Ticker.TickCount tk = Z.of_nat (length calls)
    ∧ (∀ (i : nat) t, Ticks tk !! i = Some t → Idx t = Some (Z.of_nat i))
    ∧ run_calls tk later = Some tk'
    ∧ (∃ new, Ticks tk' = Ticks tk ++ new)
    ∧ (∀ (i : nat) t, Ticks tk' !! i = Some t → Idx t = Some (Z.of_nat i)).
Proof.
  destruct (run_calls_appends (Ticker.Reset tk0) calls) as (tk & new & Hrun & Hnew & Hlen & Hidx).
  destruct (run_calls_appends tk later) as (tk' & new' & Hrun' & Hnew' & Hlen' & Hidx').
  simpl in Hnew, Hidx. exists tk, tk'.
  assert (Hall : ∀ (i : nat) t, Ticks tk !! i = Some t → Idx t = Some (Z.of_nat i)).
  { intros i t Ht. rewrite Hnew in Ht. by rewrite (Hidx i t Ht). }
  split; [done|]. split; [|split; [done|split; [done|split; [eauto|]]]].
  - unfold Ticker.TickCount, ImVector.size. by rewrite Hnew, Hlen.
  - intros i t Ht. rewrite Hnew' in Ht. apply lookup_app_Some in Ht as [Ht|[Hge Ht]].
    + by apply Hall.
    + rewrite (Hidx' _ t Ht). unfold ImVector.size. f_equal. lia.
Qed.

End TickerProofs.

(* ================================================================== *)
(** * Axis fitting *)

(** C7.  [ApplyFit] replaces the range with the accumulator exactly when
    the accumulator is non-degenerate, and keeps it otherwise; either way
    the accumulator is re-seeded to [+inf, -inf], which is degenerate, so
    a second [ApplyFit] with no [ExtendFit] in between keeps the range --
    as does the first one on a new axis. *)
Theorem ApplyFit_range_and_reseed (a : ImPlot3DAxis) :
  Range (ApplyFit a) = (if non_degenerate (FitExtents a) then FitExtents a else Range a)
  ∧ FitExtents (ApplyFit a) = fit_seed
  ∧ non_degenerate fit_seed = false
  ∧ Range (ApplyFit (ApplyFit a)) = Range (ApplyFit a)
  ∧ Range (ApplyFit ImPlot3DAxis_new) = Range ImPlot3DAxis_new.
Proof. repeat split. Qed.

(* ================================================================== *)
(** * The properties at concrete registries *)

Lemma reachable_demo_rb : reachable (H := demo_host) demo_rb.
Proof.
  apply (reachable_Append ImPlot3DColormapData_new "RB" [0xFF0000FF; 0x0000FFFF] 2 false
           demo_rb 0).
  - apply reachable_new.
  - solve_no_nul.
  - repeat constructor; unfold is_u32; lia.
  - by vm_compute.
Qed.

Lemma reachable_demo_one : reachable (H := demo_host) demo_one.
Proof.
  apply (reachable_Append ImPlot3DColormapData_new "A" [1; 2] 2 true demo_one 0).
  - apply reachable_new.
  - solve_no_nul.
  - repeat constructor; unfold is_u32; lia.
  - by vm_compute.
Qed.

Lemma reachable_demo_two : reachable (H := demo_host) demo_two.
Proof.
  apply (reachable_Append demo_one "B" [3; 4] 2 true demo_two 1).
  - apply reachable_demo_one.
  - solve_no_nul.
  - repeat constructor; unfold is_u32; lia.
  - by vm_compute.
Qed.



(** C4 at the registry that holds "A": a second "A" is turned down. *)
Lemma Append_registered_name_witness :
  registered demo_one "A"
  ∧ Append (H := demo_host) "A" [7; 8; 9] 3 false demo_one = Some (demo_one, -1).
Proof.
  assert (Hreg : registered demo_one "A").
  { exists 0. split; [by vm_compute|by vm_compute]. }
  split; [exact Hreg|].
  apply (Append_registered_name_rejected (H := demo_host) demo_one "A" [7; 8; 9] 3 false).
  - apply reachable_demo_one.
  - exact Hreg.
Defined.

(** C10 at the second colormap of [demo_two]. *)
Lemma Append_round_trip_witness :
  Append (H := demo_host) "B" [3; 4] 2 true demo_one = Some (demo_two, 1)
  ∧ GetIndex (H := demo_host) demo_two "B" = 1
  ∧ GetName demo_two 1 = Some (Some "B"%string).
Proof.
  assert (Happ : Append (H := demo_host) "B" [3; 4] 2 true demo_one = Some (demo_two, 1))
    by (by vm_compute).
  split; [exact Happ|].
  apply (Append_name_index_round_trip (H := demo_host) demo_one "B" [3; 4] 2 true demo_two 1).
  - apply reachable_demo_one.
  - solve_no_nul.
  - repeat constructor; unfold is_u32; lia.
  - exact Happ.
  - lia.
Defined.

(** C3 as stated fails: key index 2 is past the two keys of colormap 0,
    and [SetKeyColor demo_two 0 2 99] overwrites the first key of
    colormap 1 and changes its table. *)
Lemma SetKeyColor_past_own_keys_counterexample :
  reachable (H := demo_host) demo_two
  ∧ GetKeyCount demo_two 0 = Some 2
  ∧ key_colors demo_two 1 = Some [3; 4]
  ∧ table_contents demo_two 1 = Some [3; 4]
  ∧ ∃ d', SetKeyColor (H := demo_host) demo_two 0 2 99 = Some d'
          ∧ key_colors d' 0 = Some [1; 2]
          ∧ key_colors d' 1 = Some [99; 4]
          ∧ table_contents d' 1 = Some [99; 4].
Proof.
  split; [apply reachable_demo_two|].
  split; [by vm_compute|]. split; [by vm_compute|]. split; [by vm_compute|].
  eexists. split; [by vm_compute|]. split; [by vm_compute|]. split; by vm_compute.
Qed.

(** C3, amended, at key 1 of colormap 0 of [demo_two]. *)
Lemma SetKeyColor_in_range_witness :
  ∃ d',
    SetKeyColor (H := demo_host) demo_two 0 1 99 = Some d'
    ∧ Count d' = Count demo_two
    ∧ key_colors d' 0 = Some (<[Z.to_nat 1 := 99]> [1; 2])
    ∧ table_contents d' 0
      = Some (build_table (H := demo_host) true (<[Z.to_nat 1 := 99]> [1; 2]))
    ∧ ∀ other, 0 <= other < Count demo_two → other ≠ 0 →
        key_colors d' other = key_colors demo_two other
        ∧ GetTableSize d' other = GetTableSize demo_two other
        ∧ table_contents d' other = table_contents demo_two other.
Proof.
  apply (SetKeyColor_in_range_frame (H := demo_host) demo_two 0 1 99 [1; 2] true).
  - apply reachable_demo_two.
  - unfold is_u32; lia.
  - by vm_compute.
  - by vm_compute.
  - simpl; lia.
Defined.

(** C2 as stated fails in the specification's own example table (256
    entries).  For [t = 8421504 * 2^-32] the product [255 * t] is the
    float [0.5 - 2^-25], exactly; [round] of it is 0.  Adding [0.5f] gives
    [1 - 2^-25], half way between the floats [1 - 2^-24] and [1]; the tie
    goes to the even mantissa, [1.0], and the code selects entry 1. *)
Lemma LerpTable_round_counterexample :
  F32.in_unit t_near_half_step = true
  ∧ GetTableSize demo_rb 0 = Some 256
  ∧ IsQual demo_rb 0 = Some false
  ∧ F32.mul (F32.of_int 255) t_near_half_step = S754_finite false 16777215 (-25)
  ∧ spec_index false 256 t_near_half_step = Some 0
  ∧ LerpTable_idx false 256 t_near_half_step = Some 1
  ∧ LerpTable demo_rb 0 t_near_half_step = GetTableColor demo_rb 0 1
  ∧ GetTableColor demo_rb 0 1 = Some 0xFE0000FF
  ∧ GetTableColor demo_rb 0 0 = Some 0xFF0000FF.
Proof. repeat split; by vm_compute. Qed.

(** The qualitative formula read in exact arithmetic fails too: for a
    palette of 10 entries and [t = 0.7f] (below 0.7), [floor (10 * t)] is
    6, and the single-precision product rounds to [7.0]. *)
Lemma qualitative_product_rounds_up :
  let t := S754_finite false 11744051 (-24) in
  F32.in_unit t = true
  ∧ spec_index true 10 t = Some 6
  ∧ LerpTable_idx true 10 t = Some 7.
Proof. repeat split; by vm_compute. Qed.

(** C2, amended, at the example table and [t = 0.5]. *)
Lemma LerpTable_index_witness :
  (∃ idx sp color,
      LerpTable_idx false 256 F32.half = Some idx
      ∧ spec_index false 256 F32.half = Some sp
      ∧ 0 <= idx <= 256 - 1
      ∧ sp - 1 <= idx <= sp + 1
      ∧ GetTableColor demo_rb 0 idx = Some color
      ∧ LerpTable demo_rb 0 F32.half = Some color)
  ∧ ∃ rb,
      Append (H := demo_host) "RB" [0xFF0000FF; 0x0000FFFF] 2 false ImPlot3DColormapData_new
      = Some (rb, 0)
      ∧ GetTableSize rb 0 = Some 256
      ∧ LerpTable_idx false 256 F32.half = Some 128
      ∧ LerpTable rb 0 F32.half = GetTableColor rb 0 128
      ∧ GetTableColor rb 0 128 = Some 0x7F007FFF.
Proof.
  apply (LerpTable_selects_single_precision_index (H := demo_host) demo_rb 0 256 false
           F32.half).
  - apply reachable_demo_rb.
  - by vm_compute.
  - by vm_compute.
  - lia.
  - by vm_compute.
Defined.

(** C6, at an input where the code departs from it.  The continuous
    colormap of 32898 keys, all of them 0, has a table of 8388736 entries
    whose last entry is 0.  At [t = 1.0] the continuous branch computes
    [(siz - 1) * t + 0.5f = 8388735.5], which rounds up to [8388736.0f]:
    the index is [siz], one past the table, and with a second colormap
    registered [LerpTable] returns that colormap's first entry,
    [0xFFFFFFFF], not the last entry of its own table.  The qualitative
    branch of the same expression clamps the index; the continuous one
    does not. *)
Theorem LerpTable_one_misses_last_entry :
  ∃ d1 d,
    Append (H := demo_host) "big" (replicate (Z.to_nat 32898) 0) 32898 false
      ImPlot3DColormapData_new = Some (d1, 0)
    ∧ Append (H := demo_host) "next" [0xFFFFFFFF] 1 true d1 = Some (d, 1)
    ∧ GetTableSize d 0 = Some 8388736
    ∧ GetTableColor d 0 (8388736 - 1) = Some 0
    ∧ LerpTable d 0 F32.one = Some 0xFFFFFFFF.
Proof.
  assert (Hhash : ImHashStr (Host := demo_host) "big" ≠ ImHashStr (Host := demo_host) "next")
    by (by vm_compute).
  pose proof (past_end_reads_next (H := demo_host) (replicate (Z.to_nat 32898) 0)
                0xFFFFFFFF (length_replicate _ _)) as Hp.
  specialize (Hp ltac:(apply Forall_replicate; unfold is_u32; lia)).
  specialize (Hp ltac:(unfold is_u32; lia) Hhash).
  destruct Hp as (d1 & d & H1 & H2 & H3 & H4 & H5).
  exists d1, d. rewrite lookup_replicate_2 in H4 by lia.
  exact (conj H1 (conj H2 (conj H3 (conj H4 H5)))).
Qed.

(* ================================================================== *)
(** * The registry at every reachable state *)

Section RegistryInvariants.
Context `{Host}.
Implicit Types (d : ImPlot3DColormapData) (cms : list colormap) (c : colormap).

Lemma key_count_pos c : colormap_ok c → 1 <= key_count c.
Proof.
  intros (Hne & _). unfold key_count. destruct (cm_keys c); [done|]. simpl. lia.
Qed.

Lemma table_size_law c :
  colormap_ok c →
  table_size c = if cm_qual c then key_count c else 255 * (key_count c - 1) + 1.
Proof.
  intros (Hne & _). unfold table_size, table_of, build_table, key_count.
  destruct (cm_qual c); [done|]. rewrite length_ramp by done.
  destruct (cm_keys c); [done|]. simpl. lia.
Qed.

Lemma repr_registered cms d cmap :
  repr cms d → 0 <= cmap < Count d →
  ∃ (n : nat) c, cmap = Z.of_nat n ∧ cms !! n = Some c ∧ colormap_ok c.
Proof.
  intros Hr Hc. destruct (repr_lookup_lt cms d Hr cmap Hc) as (n & c & -> & Hn).
  exists n, c. split; [done|]. split; [done|]. by apply (repr_colormap_ok cms d Hr n).
Qed.

Lemma at_is_Some_lt {A} (v : list A) i x :
  ImVector.at_ v i = Some x → ∃ n : nat, i = Z.of_nat n ∧ v !! n = Some x.
Proof.
  intros Hat. apply at_Some in Hat as [Hi Hl]. exists (Z.to_nat i). split; [lia|done].
Qed.

Lemma repr_vector_sizes d cms :
  repr cms d →
  ImVector.size (KeyCounts d) = Count d ∧ ImVector.size (KeyOffsets d) = Count d.
Proof.
  intros [Hk _]. unfold ImVector.size.
  rewrite (repr_Count _ _ Hk), (repr_KeyCounts _ _ Hk), (repr_KeyOffsets _ _ Hk).
  by rewrite length_offsets_from, !length_fmap.
Qed.

(** X1.  In every registry the operations produce, the seven
    per-colormap vectors hold [Count] entries, every colormap has at
    least one key, and [Keys] and [Tables] hold the colormaps' blocks one
    after the other: each offset is the sum of the sizes before it, and
    the sizes add up to the length of the vector. *)
Theorem registry_layout d :
  reachable d →
  0 <= Count d
  ∧ ImVector.size (KeyCounts d) = Count d
  ∧ ImVector.size (KeyOffsets d) = Count d
  ∧ ImVector.size (TableSizes d) = Count d
  ∧ ImVector.size (TableOffsets d) = Count d
  ∧ ImVector.size (TextOffsets d) = Count d
  ∧ ImVector.size (Quals d) = Count d
  ∧ Forall (λ n, 1 <= n) (KeyCounts d)
  ∧ KeyOffsets d = offsets_from 0 (KeyCounts d)
  ∧ TableOffsets d = offsets_from 0 (TableSizes d)
  ∧ ImVector.size (Keys d) = sum_sizes (KeyCounts d)
  ∧ ImVector.size (Tables d) = sum_sizes (TableSizes d).
Proof.
  intros Hreach. destruct (reachable_repr d Hreach) as [cms [Hk Ht]].
  destruct Hk as [HK HKC HKO HT HTO HQ HC _ _ Hok _].
  destruct Ht as [HTb HTS HTbO]. rewrite firstn_all in HTb, HTS, HTbO.
  unfold ImVector.size.
  rewrite HC, HKC, HKO, HTS, HTbO, HTO, HQ, HK, HTb.
  rewrite !length_offsets_from, !length_fmap.
  rewrite sum_sizes_key_count, sum_sizes_table_size.
  repeat (split; [done || lia|]). split; [|done].
  apply Forall_fmap. eapply Forall_impl; [exact Hok|].
  intros c Hc. by apply key_count_pos.
Qed.

(** X2.  At every reachable state, every registered colormap has at
    least one key, and its table has as many entries as it has keys when it
    is qualitative, [255 * (keys - 1) + 1] when it is continuous. *)
Theorem registered_table_size d cmap :
  reachable d → 0 <= cmap < Count d →
  ∃ n qual, GetKeyCount d cmap = Some n ∧ 1 <= n ∧ IsQual d cmap = Some qual
            ∧ GetTableSize d cmap = Some (if qual then n else 255 * (n - 1) + 1).
Proof.
  intros Hreach Hc. destruct (reachable_repr d Hreach) as [cms Hr].
  destruct (repr_registered cms d cmap Hr Hc) as (n & c & -> & Hn & Hok).
  exists (key_count c), (cm_qual c).
  rewrite (repr_GetKeyCount cms d (proj1 Hr) n c Hn).
  rewrite (repr_IsQual cms d (proj1 Hr) n c Hn).
  rewrite (repr_GetTableSize cms d Hr n c Hn), (table_size_law c Hok).
  split; [done|]. split; [by apply key_count_pos|]. split; done.
Qed.

Lemma ramp_lookup_sample keys (i s : nat) a b :
  keys !! i = Some a → keys !! Datatypes.S i = Some b → (s < 255)%nat →
  ramp keys !! (255 * i + s)%nat = Some (ImMixU32 a b (Z.of_nat s)).
Proof.
  revert i. induction keys as [|k0 rest IH]; intros i Ha Hb Hs; [done|].
  destruct rest as [|k1 rest']; [done|]. rewrite ramp_cons2.
  destruct i as [|i].
  - simpl in Ha, Hb. simplify_eq. rewrite lookup_app_l by (rewrite length_ramp_segment; lia).
    unfold ramp_segment. rewrite list_lookup_fmap, lookup_seqZ_lt by lia.
    cbn [fmap option_fmap option_map]. repeat f_equal; lia.
  - rewrite lookup_app_r by (rewrite length_ramp_segment; lia).
    rewrite length_ramp_segment.
    replace (255 * Datatypes.S i + s - 255)%nat with (255 * i + s)%nat by lia.
    by apply IH.
Qed.

Lemma ramp_lookup_key keys (i : nat) :
  Forall is_u32 keys → (i < length keys)%nat → ramp keys !! (255 * i)%nat = keys !! i.
Proof.
  revert i. induction keys as [|k0 rest IH]; intros i Hu Hi; [simpl in Hi; lia|].
  destruct rest as [|k1 rest'].
  - destruct i; [done|simpl in Hi; lia].
  - rewrite ramp_cons2. inversion Hu as [|? ? Hk0 Hrest]; subst. destruct i as [|i].
    + rewrite lookup_app_l by (rewrite length_ramp_segment; lia).
      unfold ramp_segment. rewrite list_lookup_fmap, lookup_seqZ_lt by lia.
      cbn [fmap option_fmap option_map lookup list_lookup]. f_equal.
      by apply ImMixU32_0.
    + rewrite lookup_app_r by (rewrite length_ramp_segment; lia).
      rewrite length_ramp_segment.
      replace (255 * Datatypes.S i - 255)%nat with (255 * i)%nat by lia.
      cbn [lookup list_lookup]. apply IH; [done|simpl in Hi |- *; lia].
Qed.

(** X3.  At every reachable state, the table of a continuous colormap
    holds key [i] at entry [255 * i], exactly, and between two adjacent
    keys the entry [255 * i + s] is [ImMixU32 (key i) (key (i + 1)) s]. *)
Theorem continuous_table_entries d cmap n :
  reachable d → IsQual d cmap = Some false → GetKeyCount d cmap = Some n →
  (∀ i, 0 <= i < n →
     ∃ k, GetKeyColor d cmap i = Some k ∧ GetTableColor d cmap (255 * i) = Some k)
  ∧ (∀ i s, 0 <= i < n - 1 → 0 <= s < 255 →
       ∃ a b, GetKeyColor d cmap i = Some a ∧ GetKeyColor d cmap (i + 1) = Some b
              ∧ GetTableColor d cmap (255 * i + s) = Some (ImMixU32 a b s)).
Proof.
  intros Hreach Hq Hn. destruct (reachable_repr d Hreach) as [cms Hr].
  unfold IsQual in Hq. destruct (at_is_Some_lt _ _ _ Hq) as (j & -> & Hqj).
  rewrite (repr_Quals _ _ (proj1 Hr)), list_lookup_fmap in Hqj.
  destruct (cms !! j) as [c|] eqn:Hc; [|done]. simpl in Hqj.
  rewrite (repr_GetKeyCount cms d (proj1 Hr) j c Hc) in Hn.
  destruct (repr_colormap_ok cms d Hr j c Hc) as (Hne & Hu32 & _).
  assert (Hlen : length (table_of c) = (255 * (length (cm_keys c) - 1) + 1)%nat).
  { unfold table_of, build_table. replace (cm_qual c) with false by congruence.
    by apply length_ramp. }
  assert (Htab : table_of c = ramp (cm_keys c)).
  { unfold table_of, build_table. by replace (cm_qual c) with false by congruence. }
  unfold key_count in Hn. simplify_eq. split.
  - intros i Hi.
    destruct (lookup_lt_is_Some_2 (cm_keys c) (Z.to_nat i)) as [k Hk]; [lia|].
    exists k. replace i with (Z.of_nat (Z.to_nat i)) by lia.
    rewrite (repr_GetKeyColor cms d (proj1 Hr) j _ c Hc) by lia. split; [done|].
    replace (255 * Z.of_nat (Z.to_nat i)) with (Z.of_nat (255 * Z.to_nat i)) by lia.
    rewrite (repr_GetTableColor cms d Hr j _ c Hc) by lia.
    rewrite Htab, ramp_lookup_key by (done || lia). done.
  - intros i s Hi Hs.
    destruct (lookup_lt_is_Some_2 (cm_keys c) (Z.to_nat i)) as [a Ha]; [lia|].
    destruct (lookup_lt_is_Some_2 (cm_keys c) (Datatypes.S (Z.to_nat i))) as [b Hb]; [lia|].
    exists a, b. split; [|split].
    + replace i with (Z.of_nat (Z.to_nat i)) by lia.
      by rewrite (repr_GetKeyColor cms d (proj1 Hr) j _ c Hc) by lia.
    + replace (i + 1) with (Z.of_nat (Datatypes.S (Z.to_nat i))) by lia.
      by rewrite (repr_GetKeyColor cms d (proj1 Hr) j _ c Hc) by lia.
    + replace (255 * i + s) with (Z.of_nat (255 * Z.to_nat i + Z.to_nat s)) by lia.
      rewrite (repr_GetTableColor cms d Hr j _ c Hc) by lia.
      rewrite Htab, (ramp_lookup_sample _ _ _ a b Ha Hb) by lia.
      do 2 f_equal. lia.
Qed.

(** X4.  The tables never go stale: at every reachable state
    [RebuildTables] rebuilds exactly the tables that are there. *)
Theorem RebuildTables_changes_nothing d : reachable d → RebuildTables d = Some d.
Proof.
  intros Hreach. destruct (reachable_repr d Hreach) as [cms Hr].
  by apply (RebuildTables_id cms).
Qed.

(** X5.  At every reachable state every registered index has a name,
    a C string, and [GetIndex] of that name is the index: no later
    [Append] or [SetKeyColor] disturbs the pairing. *)
Theorem registered_names_round_trip d cmap :
  reachable d → 0 <= cmap < Count d →
  ∃ name, GetName d cmap = Some (Some name) ∧ no_nul name ∧ GetIndex d name = cmap.
Proof.
  intros Hreach Hc. destruct (reachable_repr d Hreach) as [cms Hr].
  destruct (repr_registered cms d cmap Hr Hc) as (n & c & -> & Hn & (_ & _ & Hnul)).
  exists (cm_name c). split; [by apply (repr_GetName cms d Hr)|]. split; [done|].
  exact (repr_GetIndex cms d n c (proj1 Hr) Hn).
Qed.

(** X6.  [GetIndex] answers [-1] or the index of a registered colormap
    whose stored name has the hash of the name asked for; it never
    answers an index outside the registry. *)
Theorem GetIndex_in_registry d name :
  reachable d →
  GetIndex d name = -1
  ∨ (0 <= GetIndex d name < Count d
     ∧ ∃ stored, GetName d (GetIndex d name) = Some (Some stored)
                 ∧ ImHashStr stored = ImHashStr name).
Proof.
  intros Hreach. destruct (reachable_repr d Hreach) as [cms Hr].
  unfold GetIndex at 1 2 3 4, ImGuiStorage.GetInt.
  destruct (Map d !! ImHashStr name) as [v|] eqn:Hm; [right|by left].
  destruct (repr_Map_index _ _ (proj1 Hr) _ _ Hm) as (i & c & -> & Hc & Hh).
  cbn [default]. split; [by apply (repr_length_lt cms d Hr i c)|].
  exists (cm_name c). split; [|done]. by apply (repr_GetName cms d Hr).
Qed.

(** X7.  [GetName] guards the upper end only: an index at or above
    [Count] gives [nullptr], a negative one reads [TextOffsets] out of
    bounds.  So the name of a failed [GetIndex] is not [nullptr]: the
    read stops on the assertion. *)
Theorem GetName_outside_registry d cmap :
  reachable d →
  (Count d <= cmap → GetName d cmap = Some None)
  ∧ (cmap < 0 → GetName d cmap = None)
  ∧ (∀ name, GetIndex d name = -1 → GetName d (GetIndex d name) = None).
Proof.
  intros Hreach. destruct (reachable_repr d Hreach) as [cms Hr].
  pose proof (repr_Count _ _ (proj1 Hr)) as HC.
  assert (Hneg : ∀ j : Z, j < 0 → GetName d j = None).
  { intros j Hj. unfold GetName. replace (j <? Count d) with true by lia.
    unfold ImVector.at_. by rewrite decide_False by lia. }
  split; [|split].
  - intros Hc. unfold GetName. by replace (cmap <? Count d) with false by lia.
  - apply Hneg.
  - intros name ->. by apply Hneg.
Qed.

(** X8.  A successful [Append] takes the next index and leaves every
    colormap registered before as it was: name, flag, keys, table, and
    the index [GetIndex] gives for it. *)
Theorem Append_keeps_registered d name keys count qual d' idx :
  reachable d → no_nul name → Forall is_u32 keys →
  Append name keys count qual d = Some (d', idx) → 0 <= idx →
  idx = Count d ∧ Count d' = Count d + 1
  ∧ (∀ cmap, 0 <= cmap < Count d →
       GetName d' cmap = GetName d cmap
       ∧ IsQual d' cmap = IsQual d cmap
       ∧ GetKeyCount d' cmap = GetKeyCount d cmap
       ∧ key_colors d' cmap = key_colors d cmap
       ∧ GetTableSize d' cmap = GetTableSize d cmap
       ∧ table_contents d' cmap = table_contents d cmap)
  ∧ (∀ other, GetIndex d other ≠ -1 → GetIndex d' other = GetIndex d other).
Proof.
  intros Hreach Hnul Hu32 Happ Hidx. destruct (reachable_repr d Hreach) as [cms Hr].
  destruct (Append_inv cms d name keys count qual d' idx Hr Hu32 Hnul Happ)
    as [(_ & _ & ->)|(Hfree & Hcount & -> & Hr' & _)]; [lia|].
  set (cnew := mkColormap name (take (Z.to_nat count) keys) qual) in *.
  pose proof (repr_Count _ _ (proj1 Hr)) as HC.
  pose proof (repr_Count _ _ (proj1 Hr')) as HC'. rewrite length_app in HC'. simpl in HC'.
  split; [lia|]. split; [lia|]. split.
  - intros cmap Hc.
    destruct (repr_lookup_lt cms d Hr cmap Hc) as (n & c & -> & Hn).
    assert (Hn' : (cms ++ [cnew]) !! n = Some c) by (by apply lookup_app_l_Some).
    rewrite (repr_GetName _ _ Hr' n c Hn'), (repr_GetName _ _ Hr n c Hn).
    rewrite (repr_IsQual _ _ (proj1 Hr') n c Hn'), (repr_IsQual _ _ (proj1 Hr) n c Hn).
    rewrite (repr_GetKeyCount _ _ (proj1 Hr') n c Hn'),
      (repr_GetKeyCount _ _ (proj1 Hr) n c Hn).
    rewrite (repr_key_colors _ _ Hr' n c Hn'), (repr_key_colors _ _ Hr n c Hn).
    rewrite (repr_GetTableSize _ _ Hr' n c Hn'), (repr_GetTableSize _ _ Hr n c Hn).
    rewrite (repr_table_contents _ _ Hr' n c Hn'), (repr_table_contents _ _ Hr n c Hn).
    done.
  - intros other Hother. unfold GetIndex, ImGuiStorage.GetInt in Hother |- *.
    destruct (Map d !! ImHashStr other) as [v|] eqn:Hm; [|done].
    destruct (repr_Map_index _ _ (proj1 Hr) _ _ Hm) as (i & c & -> & Hc & Hh).
    assert (Hc' : (cms ++ [cnew]) !! i = Some c) by (by apply lookup_app_l_Some).
    pose proof (repr_Map_name _ _ (proj1 Hr') i c Hc') as Hm'.
    rewrite Hh in Hm'. by rewrite Hm'.
Qed.

(** X9.  An [Append] of a new name with no keys ([count <= 0]) stops in
    [_AppendTable]: [GetKeys] takes the address of [Keys[Keys.size()]]. *)
Theorem Append_without_keys_stops d name keys count qual :
  reachable d → GetIndex d name = -1 → count <= 0 →
  Append name keys count qual d = None.
Proof.
  intros Hreach Hfree Hcount. destruct (reachable_repr d Hreach) as [cms Hr].
  destruct (repr_vector_sizes d cms Hr) as (HKC & HKO).
  unfold Append. rewrite decide_False by (intros Hne; by apply Hne).
  rewrite for_range_empty by lia. cbn [mbind option_bind].
  unfold _AppendTable, GetKeyCount, GetKeys. cbn [KeyCounts KeyOffsets Keys].
  rewrite <- HKC at 1. rewrite at_push_back_last. cbn [mbind option_bind].
  rewrite <- HKO at 1. rewrite at_push_back_last. cbn [mbind option_bind].
  by rewrite at_None_ge by lia.
Qed.

End RegistryInvariants.

Section KeyWrites.
Context `{Host}.
Implicit Types (d : ImPlot3DColormapData) (cms : list colormap) (c : colormap).

(** What a successful [SetKeyColor] returns, field by field. *)
Lemma SetKeyColor_inv cms d cmap idx value d' :
  repr cms d → is_u32 value → SetKeyColor d cmap idx value = Some d' →
  ∃ off, ImVector.at_ (KeyOffsets d) cmap = Some off
         ∧ 0 <= off + idx < ImVector.size (Keys d)
         ∧ ∃ tables sizes offsets,
             d' = with_tables (with_keys d (<[Z.to_nat (off + idx) := value]> (Keys d)))
                    tables sizes offsets.
Proof.
  intros Hr Hv Hset. unfold SetKeyColor in Hset.
  destruct (ImVector.at_ (KeyOffsets d) cmap) as [off|]; [|done].
  cbn [mbind option_bind] in Hset. unfold ImVector.set in Hset.
  destruct (decide (0 <= off + idx < ImVector.size (Keys d))) as [Hin|]; [|done].
  cbn [mbind option_bind] in Hset. exists off. split; [done|]. split; [done|].
  pose proof (repr_keys_set_flat cms d (Z.to_nat (off + idx)) value (proj1 Hr) Hv) as Hk'.
  destruct (RebuildTables_spec _ _ Hk') as [Hreb _]. rewrite Hreb in Hset.
  injection Hset as <-. by eexists _, _, _.
Qed.

(** X10.  [SetKeyColor] succeeds exactly when [cmap] is registered and
    [KeyOffsets[cmap] + idx] is a slot of [Keys]; the index is not
    compared with the colormap's own key count. *)
Theorem SetKeyColor_succeeds_iff d cmap idx value :
  reachable d → is_u32 value →
  is_Some (SetKeyColor d cmap idx value)
  ↔ ∃ off, ImVector.at_ (KeyOffsets d) cmap = Some off
           ∧ 0 <= off + idx < ImVector.size (Keys d).
Proof.
  intros Hreach Hv. destruct (reachable_repr d Hreach) as [cms Hr]. split.
  - intros [d' Hset].
    destruct (SetKeyColor_inv cms d cmap idx value d' Hr Hv Hset) as (off & Ho & Hin & _).
    by exists off.
  - intros (off & Ho & Hin). unfold SetKeyColor, ImVector.set. rewrite Ho.
    cbn [mbind option_bind]. rewrite decide_True by done. cbn [mbind option_bind].
    pose proof (repr_keys_set_flat cms d (Z.to_nat (off + idx)) value (proj1 Hr) Hv) as Hk'.
    destruct (RebuildTables_spec _ _ Hk') as [-> _]. done.
Qed.

(** X11.  After a successful [SetKeyColor], [GetKeyColor] at the same
    place reads the value written; the count, the key counts, flags,
    names and name indices are as before, and so is every key slot but
    the one written. *)
Theorem SetKeyColor_writes_one_slot d cmap idx value d' :
  reachable d → is_u32 value → SetKeyColor d cmap idx value = Some d' →
  GetKeyColor d' cmap idx = Some value
  ∧ Count d' = Count d
  ∧ (∀ j, GetKeyCount d' j = GetKeyCount d j ∧ IsQual d' j = IsQual d j
          ∧ GetName d' j = GetName d j)
  ∧ (∀ name, GetIndex d' name = GetIndex d name)
  ∧ (∀ j i off off',
       ImVector.at_ (KeyOffsets d) cmap = Some off →
       ImVector.at_ (KeyOffsets d) j = Some off' →
       off' + i ≠ off + idx → GetKeyColor d' j i = GetKeyColor d j i).
Proof.
  intros Hreach Hv Hset. destruct (reachable_repr d Hreach) as [cms Hr].
  destruct (SetKeyColor_inv cms d cmap idx value d' Hr Hv Hset)
    as (off & Ho & Hin & T & S & O & ->).
  unfold ImVector.size in Hin. split; [|split; [done|split; [done|split; [done|]]]].
  - unfold GetKeyColor. cbn [KeyOffsets Keys with_tables with_keys]. rewrite Ho.
    cbn [mbind option_bind]. apply at_Some. split; [lia|].
    apply list_lookup_insert_eq. lia.
  - intros j i off1 off' Ho1 Ho' Hne. replace off1 with off in * by congruence.
    unfold GetKeyColor. cbn [KeyOffsets Keys with_tables with_keys]. rewrite Ho'.
    cbn [mbind option_bind]. unfold ImVector.at_.
    destruct (decide (0 <= off' + i)); [|done].
    apply list_lookup_insert_ne. lia.
Qed.

(** X12.  Writing the key count as the key index goes one past the
    colormap's own keys: the call succeeds, leaves the colormap's keys as
    they are and replaces the first key of the next colormap. *)
Theorem SetKeyColor_past_end_writes_next d cmap n value :
  reachable d → is_u32 value → 0 <= cmap → cmap + 1 < Count d →
  GetKeyCount d cmap = Some n →
  ∃ d', SetKeyColor d cmap n value = Some d'
        ∧ key_colors d' cmap = key_colors d cmap
        ∧ GetKeyColor d' (cmap + 1) 0 = Some value.
Proof.
  intros Hreach Hv Hlo Hhi Hn. destruct (reachable_repr d Hreach) as [cms Hr].
  destruct (repr_lookup_lt cms d Hr cmap ltac:(lia)) as (k & c & -> & Hc).
  destruct (repr_lookup_lt cms d Hr (Z.of_nat k + 1) ltac:(lia)) as (k1 & c1 & Hk1 & Hc1).
  assert (k1 = Datatypes.S k) as -> by lia.
  rewrite (repr_GetKeyCount cms d (proj1 Hr) k c Hc) in Hn. simplify_eq.
  destruct (repr_colormap_ok cms d Hr _ c1 Hc1) as (Hne1 & _).
  assert (Hlen1 : (0 < length (cm_keys c1))%nat) by (destruct (cm_keys c1); [done|simpl; lia]).
  destruct (SetKeyColor_in_range cms d (Datatypes.S k) 0 c1 value Hr Hc1 Hlen1 Hv)
    as (d' & Hset & Hr').
  assert (Hoff : key_offset cms (Datatypes.S k) = key_offset cms k + key_count c).
  { unfold key_offset, key_count. rewrite (take_S_r cms k c Hc), fmap_app, concat_app.
    rewrite length_app. simpl. rewrite app_nil_r. lia. }
  assert (Hsame : SetKeyColor d (Z.of_nat k) (key_count c) value
                  = SetKeyColor d (Z.of_nat (Datatypes.S k)) (Z.of_nat 0) value).
  { unfold SetKeyColor.
    rewrite (repr_KeyOffsets_at cms d (proj1 Hr) k c Hc).
    rewrite (repr_KeyOffsets_at cms d (proj1 Hr) (Datatypes.S k) c1 Hc1).
    cbn [mbind option_bind]. rewrite Hoff. by rewrite Z.add_0_r. }
  exists d'. split; [by rewrite Hsame|]. split.
  - rewrite (repr_key_colors cms d Hr k c Hc).
    apply (repr_key_colors _ d' Hr' k c). rewrite list_lookup_insert_ne by lia. done.
  - replace (Z.of_nat k + 1) with (Z.of_nat (Datatypes.S k)) by lia.
    change 0 with (Z.of_nat 0).
    rewrite (repr_GetKeyColor _ d' (proj1 Hr') (Datatypes.S k) 0
               (mkColormap (cm_name c1) (<[0%nat := value]> (cm_keys c1)) (cm_qual c1))).
    + cbn [cm_keys]. apply list_lookup_insert_eq. lia.
    + apply list_lookup_insert_eq. by apply lookup_lt_Some in Hc1.
    + cbn [cm_keys]. rewrite length_insert. lia.
Qed.

(** X13.  Writing the color a key already has changes nothing: the
    registry comes back as it was, tables included. *)
Theorem SetKeyColor_same_value_changes_nothing d cmap idx value :
  reachable d → GetKeyColor d cmap idx = Some value →
  SetKeyColor d cmap idx value = Some d.
Proof.
  intros Hreach Hget. destruct (reachable_repr d Hreach) as [cms Hr].
  unfold GetKeyColor in Hget. unfold SetKeyColor.
  destruct (ImVector.at_ (KeyOffsets d) cmap) as [off|]; [|done].
  cbn [mbind option_bind] in Hget |- *.
  pose proof (at_lt _ _ _ Hget) as Hin. apply at_Some in Hget as [_ Hl].
  unfold ImVector.set. rewrite decide_True by done. cbn [mbind option_bind].
  rewrite list_insert_id by done.
  replace (with_keys d (Keys d)) with d by (by destruct d).
  by apply (RebuildTables_id cms).
Qed.

(** X14.  For a qualitative colormap the clamp keeps every [t] in the
    table: whenever the conversion of [siz * t] to [int] is defined, also
    for [t] outside [[0, 1]], [LerpTable] returns one of the colormap's own
    keys. *)
Theorem qualitative_LerpTable_returns_a_key d cmap siz t idx :
  reachable d → IsQual d cmap = Some true → GetTableSize d cmap = Some siz →
  LerpTable_idx true siz t = Some idx →
  0 <= idx <= siz - 1
  ∧ ∃ color, LerpTable d cmap t = Some color ∧ GetKeyColor d cmap idx = Some color.
Proof.
  intros Hreach Hq Hsiz Hidx. destruct (reachable_repr d Hreach) as [cms Hr].
  unfold IsQual in Hq. destruct (at_is_Some_lt _ _ _ Hq) as (j & -> & Hqj).
  rewrite (repr_Quals _ _ (proj1 Hr)), list_lookup_fmap in Hqj.
  destruct (cms !! j) as [c|] eqn:Hc; [|done]. simpl in Hqj.
  rewrite (repr_GetTableSize cms d Hr j c Hc) in Hsiz.
  destruct (repr_colormap_ok cms d Hr j c Hc) as (Hne & _).
  pose proof (table_of_nonempty c Hne) as Hlen.
  assert (Htab : table_of c = cm_keys c).
  { unfold table_of, build_table. by replace (cm_qual c) with true by congruence. }
  simplify_eq. unfold table_size in *.
  assert (Hrange : 0 <= idx <= Z.of_nat (length (table_of c)) - 1).
  { unfold LerpTable_idx in Hidx.
    destruct (F32.to_int _) as [v|]; [|done]. cbn [mbind option_bind] in Hidx.
    injection Hidx as <-. apply ImClamp_range. lia. }
  split; [done|].
  destruct (lookup_lt_is_Some_2 (table_of c) (Z.to_nat idx)) as [color Hcol]; [lia|].
  exists color. split.
  - rewrite (repr_LerpTable cms d j c t Hr Hc).
    replace (cm_qual c) with true by congruence. fold (table_size c). unfold table_size.
    rewrite Hidx. cbn [mbind option_bind].
    replace idx with (Z.of_nat (Z.to_nat idx)) by lia.
    by rewrite (repr_GetTableColor cms d Hr j _ c Hc) by lia.
  - replace idx with (Z.of_nat (Z.to_nat idx)) by lia.
    rewrite (repr_GetKeyColor cms d (proj1 Hr) j _ c Hc) by (rewrite <- Htab; lia).
    by rewrite <- Htab.
Qed.

End KeyWrites.

Section Neighbours.
Context `{Host}.
Implicit Types (d : ImPlot3DColormapData) (cms : list colormap) (c : colormap).

(** X15.  Names are told apart by their hash only: a name whose hash
    is that of a registered name gets that colormap's index from
    [GetIndex], and an [Append] under it is turned down like a
    duplicate. *)
Theorem Append_rejects_colliding_name d name other keys count qual :
  reachable d → registered d name → ImHashStr other = ImHashStr name →
  0 <= GetIndex d name < Count d
  ∧ GetIndex d other = GetIndex d name
  ∧ Append other keys count qual d = Some (d, -1).
Proof.
  intros Hreach (cmap & Hcmap & Hname) Hhash.
  destruct (reachable_repr d Hreach) as [cms Hr].
  destruct (repr_lookup_lt cms d Hr cmap Hcmap) as (n & c & -> & Hc).
  rewrite (repr_GetName cms d Hr n c Hc) in Hname. simplify_eq.
  pose proof (repr_GetIndex cms d n c (proj1 Hr) Hc) as Hidx.
  assert (Hother : GetIndex d other = GetIndex d (cm_name c)).
  { unfold GetIndex. by rewrite Hhash. }
  split; [by rewrite Hidx|]. split; [done|].
  unfold Append. rewrite decide_True; [done|]. rewrite Hother, Hidx. lia.
Qed.

Lemma table_offset_S cms (k : nat) c :
  cms !! k = Some c → table_offset cms (Datatypes.S k) = table_offset cms k + table_size c.
Proof.
  intros Hc. unfold table_offset, table_size.
  rewrite (take_S_r cms k c Hc), fmap_app, concat_app, length_app. simpl.
  rewrite app_nil_r. lia.
Qed.

(** X16.  [GetTableColor] does not compare the index with the
    colormap's table size: the index one past the last entry reads the
    first table entry of the next colormap. *)
Theorem GetTableColor_past_end_reads_next d cmap siz :
  reachable d → 0 <= cmap → cmap + 1 < Count d → GetTableSize d cmap = Some siz →
  ∃ color, GetTableColor d cmap siz = Some color
           ∧ GetTableColor d (cmap + 1) 0 = Some color.
Proof.
  intros Hreach Hlo Hhi Hsiz. destruct (reachable_repr d Hreach) as [cms Hr].
  destruct (repr_lookup_lt cms d Hr cmap ltac:(lia)) as (k & c & -> & Hc).
  destruct (repr_lookup_lt cms d Hr (Z.of_nat k + 1) ltac:(lia)) as (k1 & c1 & Hk1 & Hc1).
  assert (k1 = Datatypes.S k) as -> by lia.
  rewrite (repr_GetTableSize cms d Hr k c Hc) in Hsiz. simplify_eq.
  destruct (repr_colormap_ok cms d Hr _ c1 Hc1) as (Hne1 & _).
  pose proof (table_of_nonempty c1 Hne1) as Hlen1.
  destruct (lookup_lt_is_Some_2 (table_of c1) 0) as [color Hcol]; [lia|].
  exists color.
  assert (Hnext : GetTableColor d (Z.of_nat k + 1) 0 = Some color).
  { replace (Z.of_nat k + 1) with (Z.of_nat (Datatypes.S k)) by lia.
    change 0 with (Z.of_nat 0).
    by rewrite (repr_GetTableColor cms d Hr (Datatypes.S k) 0 c1 Hc1 Hlen1). }
  split; [|done]. rewrite <- Hnext. unfold GetTableColor.
  rewrite (repr_TableOffsets_at cms d Hr k c Hc).
  replace (Z.of_nat k + 1) with (Z.of_nat (Datatypes.S k)) by lia.
  rewrite (repr_TableOffsets_at cms d Hr (Datatypes.S k) c1 Hc1).
  cbn [mbind option_bind]. rewrite (table_offset_S cms k c Hc). f_equal. lia.
Qed.

End Neighbours.

(* ================================================================== *)
(** * Tick labels *)

Lemma append_keeps_text (pre : list ascii) (text : string) (rest chars : list ascii) :
  rest ≠ [] →
  ∃ rest', rest' ≠ []
           ∧ ImGuiTextBuffer.append (pre ++ c_str text ++ rest) chars
             = pre ++ c_str text ++ rest'.
Proof.
  intros Hrest. exists (take (length rest - 1) rest ++ chars ++ [NUL]). split.
  - intros Heq. apply app_eq_nil in Heq as [_ Heq]. apply app_eq_nil in Heq as [_ Heq]. done.
  - unfold ImGuiTextBuffer.append.
    assert (Hlen : length rest ≠ 0%nat) by (destruct rest; [done|simpl; lia]).
    rewrite decide_False by (rewrite !length_app; lia).
    rewrite (app_assoc pre), take_app_ge by (rewrite !length_app; lia).
    replace (length ((pre ++ c_str text) ++ rest) - 1 - length (pre ++ c_str text))%nat
      with (length rest - 1)%nat by (rewrite !length_app; lia).
    by rewrite <- !app_assoc.
Qed.

Lemma c_str_at_text (pre : list ascii) (text : string) (rest : list ascii) :
  no_nul text →
  ImGuiTextBuffer.c_str_at (pre ++ c_str text ++ rest) (Z.of_nat (length pre)) = Some text.
Proof.
  intros Hnul. unfold ImGuiTextBuffer.c_str_at. rewrite decide_True by lia.
  rewrite Nat2Z.id, drop_app_length, (read_c_str text rest Hnul). cbn [mbind option_bind].
  by rewrite string_of_list_ascii_of_string.
Qed.

Lemma append_at_size (buf : list ascii) (text : string) :
  ∃ pre, Z.of_nat (length pre) = ImGuiTextBuffer.size buf
         ∧ ImGuiTextBuffer.append buf (c_str text) = pre ++ c_str text ++ [NUL].
Proof.
  exists (take ((if decide (length buf = 0%nat) then 1%nat else length buf) - 1) buf).
  split; [|done]. rewrite <- length_take_text.
  unfold ImGuiTextBuffer.size, ImVector.size. case_decide; lia.
Qed.

Section TickLabels.
Context `{Host}.
Implicit Types (tk : ImPlot3DTicker) (tick : ImPlot3DTick).

Lemma store_label_buffer tk tick text :
  ∃ tick', Ticker.store_label tk tick text
           = Some (mkTicker (Ticks tk) (ImGuiTextBuffer.append (TextBuffer tk) (c_str text)),
                   tick')
           ∧ Idx tick' = Idx tick.
Proof.
  unfold Ticker.store_label, ImGuiTextBuffer.c_str_at.
  rewrite decide_True.
  2:{ unfold ImGuiTextBuffer.size, ImVector.size. case_decide; lia. }
  unfold ImGuiTextBuffer.append. rewrite length_take_text, drop_app_length.
  unfold c_str. rewrite <- app_assoc.
  destruct (read_terminated (list_ascii_of_string text) [NUL]) as [cs Hcs].
  simpl in Hcs |- *. rewrite Hcs. simpl. eauto.
Qed.

Lemma store_label_text tk tick text :
  no_nul text →
  Ticker.store_label tk tick text
  = Some (mkTicker (Ticks tk) (ImGuiTextBuffer.append (TextBuffer tk) (c_str text)),
          mkTick (PlotPos tick) (Major tick) (ShowLabel tick) (Some (CalcTextSize text))
            (ImGuiTextBuffer.size (TextBuffer tk)) (Idx tick)).
Proof.
  intros Hnul. unfold Ticker.store_label.
  destruct (append_at_size (TextBuffer tk) text) as (pre & Hpre & ->).
  rewrite <- Hpre, (c_str_at_text pre text [NUL] Hnul). done.
Qed.

(** What a labelled [AddTick] leaves, for either overload. *)
Lemma AddTick_stored tk tick text :
  no_nul text →
  ∃ tk1 tick1 pre,
    Ticker.store_label tk tick text = Some (tk1, tick1)
    ∧ Z.of_nat (length pre) = ImGuiTextBuffer.size (TextBuffer tk)
    ∧ TextBuffer (Ticker.AddTick tk1 tick1).1 = pre ++ c_str text ++ [NUL]
    ∧ Ticks (Ticker.AddTick tk1 tick1).1 = Ticks tk ++ [(Ticker.AddTick tk1 tick1).2]
    ∧ TextOffset (Ticker.AddTick tk1 tick1).2 = ImGuiTextBuffer.size (TextBuffer tk)
    ∧ LabelSize (Ticker.AddTick tk1 tick1).2 = Some (CalcTextSize text)
    ∧ Idx (Ticker.AddTick tk1 tick1).2 = Some (Ticker.TickCount tk)
    ∧ PlotPos (Ticker.AddTick tk1 tick1).2 = PlotPos tick
    ∧ Major (Ticker.AddTick tk1 tick1).2 = Major tick
    ∧ ShowLabel (Ticker.AddTick tk1 tick1).2 = ShowLabel tick.
Proof.
  intros Hnul. rewrite (store_label_text tk tick text Hnul).
  destruct (append_at_size (TextBuffer tk) text) as (pre & Hpre & Happ).
  eexists _, _, pre. split; [done|]. split; [done|].
  unfold Ticker.AddTick, Ticker.TickCount. cbn. rewrite Happ. done.
Qed.

Lemma GetText_stored tk tick pre text rest :
  no_nul text →
  TextBuffer tk = pre ++ c_str text ++ rest →
  TextOffset tick = Z.of_nat (length pre) →
  ∀ idx, ImVector.at_ (Ticks tk) idx = Some tick → Ticker.GetText tk idx = Some text.
Proof.
  intros Hnul Hbuf Hoff idx Hat. unfold Ticker.GetText. rewrite Hat.
  cbn [mbind option_bind]. rewrite Hbuf, Hoff. by apply c_str_at_text.
Qed.

(** X17.  A tick added with a label reads back that label: [GetText] of
    the tick returned, and of its index, is the label; the label lies at
    the offset the buffer's size had, and [LabelSize] is the measure of
    the label. *)
Theorem AddTick_label_GetText tk value major text :
  no_nul text →
  ∃ tk' tick,
    Ticker.AddTick_label tk value major true (Some text) = Some (tk', tick)
    ∧ TextOffset tick = ImGuiTextBuffer.size (TextBuffer tk)
    ∧ LabelSize tick = Some (CalcTextSize text)
    ∧ Idx tick = Some (Ticker.TickCount tk)
    ∧ Ticker.TickCount tk' = Ticker.TickCount tk + 1
    ∧ Ticker.GetText_tick tk' tick = Some text
    ∧ Ticker.GetText tk' (Ticker.TickCount tk) = Some text.
Proof.
  intros Hnul. unfold Ticker.AddTick_label.
  destruct (AddTick_stored tk (ImPlot3DTick_new value major true) text Hnul)
    as (tk1 & tick1 & pre & -> & Hpre & Hbuf & Hticks & Hoff & Hsize & Hidx & _).
  cbn [mbind option_bind]. destruct (Ticker.AddTick tk1 tick1) as [tk' tick] eqn:Hadd.
  cbn [fst snd] in *. exists tk', tick. split; [done|]. split; [done|]. split; [done|].
  split; [done|].
  assert (Hat : ImVector.at_ (Ticks tk') (Ticker.TickCount tk) = Some tick).
  { rewrite Hticks. apply at_push_back_last. }
  assert (Hget : Ticker.GetText tk' (Ticker.TickCount tk) = Some text).
  { apply (GetText_stored tk' tick pre text [NUL]); [done|done|lia|done]. }
  split; [|split; [|done]].
  - unfold Ticker.TickCount, ImVector.size. rewrite Hticks, length_app. simpl. lia.
  - unfold Ticker.GetText_tick. rewrite Hidx. done.
Qed.

(** X18.  The formatter overload hands the formatter the tick's
    position, the [double] rounded to [float], and the buffer size 32, and
    stores what the formatter left: [GetText] of the tick reads it back. *)
Theorem AddTick_formatter_GetText tk value major (fmt : ImPlot3DFormatter) :
  no_nul (fmt (F32.of_double value) IMPLOT3D_LABEL_MAX_SIZE) →
  ∃ tk' tick,
    Ticker.AddTick_formatter tk value major true (Some fmt) = Some (tk', tick)
    ∧ PlotPos tick = F32.of_double value
    ∧ TextOffset tick = ImGuiTextBuffer.size (TextBuffer tk)
    ∧ Ticker.GetText_tick tk' tick
      = Some (fmt (F32.of_double value) IMPLOT3D_LABEL_MAX_SIZE).
Proof.
  intros Hnul. unfold Ticker.AddTick_formatter.
  change (PlotPos (ImPlot3DTick_new value major true)) with (F32.of_double value).
  destruct (AddTick_stored tk (ImPlot3DTick_new value major true) _ Hnul)
    as (tk1 & tick1 & pre & -> & Hpre & Hbuf & Hticks & Hoff & Hsize & Hidx & Hpos & _).
  cbn [mbind option_bind]. destruct (Ticker.AddTick tk1 tick1) as [tk' tick] eqn:Hadd.
  cbn [fst snd] in *. exists tk', tick. split; [done|]. split; [done|]. split; [done|].
  unfold Ticker.GetText_tick. rewrite Hidx. cbn [mbind option_bind].
  apply (GetText_stored tk' tick pre _ [NUL]); [done|done|lia|].
  rewrite Hticks. apply at_push_back_last.
Qed.

Lemma run_call_keeps_text tk call pre text rest :
  rest ≠ [] → TextBuffer tk = pre ++ c_str text ++ rest →
  ∃ tk' rest' t,
    run_call tk call = Some tk' ∧ rest' ≠ []
    ∧ TextBuffer tk' = pre ++ c_str text ++ rest'
    ∧ Ticks tk' = Ticks tk ++ [t].
Proof.
  intros Hrest Hbuf.
  assert (Hplain : ∀ tick, ∃ tk' rest' t,
            Some (Ticker.AddTick tk tick).1 = Some tk' ∧ rest' ≠ []
            ∧ TextBuffer tk' = pre ++ c_str text ++ rest' ∧ Ticks tk' = Ticks tk ++ [t]).
  { intros tick. eexists _, rest, _. split; [done|]. split; [done|]. split; [done|].
    unfold Ticker.AddTick. cbn. done. }
  assert (Hstore : ∀ tick text', ∃ tk' rest' t,
            fst <$> ('(tk1, tick1) ← Ticker.store_label tk tick text';
                     Some (Ticker.AddTick tk1 tick1)) = Some tk' ∧ rest' ≠ []
            ∧ TextBuffer tk' = pre ++ c_str text ++ rest' ∧ Ticks tk' = Ticks tk ++ [t]).
  { intros tick text'. destruct (store_label_buffer tk tick text') as (tick1 & -> & _).
    rewrite Hbuf. destruct (append_keeps_text pre text rest (c_str text') Hrest)
      as (rest' & Hne & ->).
    eexists _, rest', _. cbn. split; [done|]. split; [done|]. split; done. }
  destruct call as [tick|v m s l|v m s f]; cbn [run_call].
  - apply Hplain.
  - unfold Ticker.AddTick_label. destruct s, l as [text'|]; try apply Hplain. apply Hstore.
  - unfold Ticker.AddTick_formatter. destruct s, f as [fmt|]; try apply Hplain. apply Hstore.
Qed.

Lemma run_calls_keep_text calls : ∀ tk pre text rest,
  rest ≠ [] → TextBuffer tk = pre ++ c_str text ++ rest →
  ∃ tk' rest' new,
    run_calls tk calls = Some tk' ∧ rest' ≠ []
    ∧ TextBuffer tk' = pre ++ c_str text ++ rest'
    ∧ Ticks tk' = Ticks tk ++ new.
Proof.
  induction calls as [|call calls IH]; intros tk pre text rest Hrest Hbuf.
  - exists tk, rest, []. rewrite app_nil_r. done.
  - destruct (run_call_keeps_text tk call pre text rest Hrest Hbuf)
      as (tk1 & rest1 & t & Hrun & Hrest1 & Hbuf1 & Hticks1).
    destruct (IH tk1 pre text rest1 Hrest1 Hbuf1) as (tk' & rest' & new & Hruns & Hne & Hb & Ht).
    exists tk', rest', (t :: new). cbn [run_calls]. rewrite Hrun. cbn [mbind option_bind].
    split; [done|]. split; [done|]. split; [done|].
    rewrite Ht, Hticks1, <- app_assoc. done.
Qed.

(** X19.  Labels are stored for good: after a tick is added with a
    label, any further [AddTick] calls, of any overload, succeed and leave
    [GetText] of that tick at its label. *)
Theorem labels_survive_later_ticks tk value major text later :
  no_nul text →
  ∃ tk1 tick tk2,
    Ticker.AddTick_label tk value major true (Some text) = Some (tk1, tick)
    ∧ run_calls tk1 later = Some tk2
    ∧ Ticker.TickCount tk2 = Ticker.TickCount tk + 1 + Z.of_nat (length later)
    ∧ Ticker.GetText_tick tk2 tick = Some text.
Proof.
  intros Hnul. unfold Ticker.AddTick_label.
  destruct (AddTick_stored tk (ImPlot3DTick_new value major true) text Hnul)
    as (tk0 & tick0 & pre & -> & Hpre & Hbuf & Hticks & Hoff & Hsize & Hidx & _).
  cbn [mbind option_bind]. destruct (Ticker.AddTick tk0 tick0) as [tk1 tick] eqn:Hadd.
  cbn [fst snd] in *.
  destruct (run_calls_keep_text later tk1 pre text [NUL] ltac:(done) Hbuf)
    as (tk2 & rest' & new & Hrun & Hne & Hbuf2 & Hticks2).
  destruct (run_calls_appends tk1 later) as (tk2' & new' & Hrun' & Hticks2' & Hlen & _).
  rewrite Hrun in Hrun'. injection Hrun' as <-.
  exists tk1, tick, tk2. split; [done|]. split; [done|]. split.
  - unfold Ticker.TickCount, ImVector.size. rewrite Hticks2', Hticks, !length_app. simpl. lia.
  - unfold Ticker.GetText_tick. rewrite Hidx. cbn [mbind option_bind].
    apply (GetText_stored tk2 tick pre text rest'); [done|done|lia|].
    rewrite Hticks2, Hticks. apply at_Some. unfold Ticker.TickCount, ImVector.size.
    split; [lia|]. rewrite Nat2Z.id, <- app_assoc. by apply list_lookup_middle.
Qed.

(** X20.  A tick added without a label -- [show_label] false or a null
    label -- stores nothing: the buffer is as before, [TextOffset] stays
    -1 and [LabelSize] unset, and [GetText] of the tick reads before the
    buffer. *)
Theorem AddTick_without_label tk value major show_label label :
  show_label = false ∨ label = None →
  ∃ tk' tick,
    Ticker.AddTick_label tk value major show_label label = Some (tk', tick)
    ∧ TextBuffer tk' = TextBuffer tk
    ∧ TextOffset tick = -1 ∧ LabelSize tick = None
    ∧ Idx tick = Some (Ticker.TickCount tk)
    ∧ Ticker.GetText_tick tk' tick = None.
Proof.
  intros Hno. unfold Ticker.AddTick_label.
  assert (Hplain : ∀ s, ∃ tk' tick,
            Some (Ticker.AddTick tk (ImPlot3DTick_new value major s)) = Some (tk', tick)
            ∧ TextBuffer tk' = TextBuffer tk ∧ TextOffset tick = -1 ∧ LabelSize tick = None
            ∧ Idx tick = Some (Ticker.TickCount tk)
            ∧ Ticker.GetText_tick tk' tick = None).
  { intros s. eexists _, _. split; [done|]. cbn. split; [done|]. split; [done|].
    split; [done|]. split; [done|].
    unfold Ticker.GetText_tick, Ticker.GetText. cbn.
    change (Z.of_nat (length (Ticks tk))) with (ImVector.size (Ticks tk)).
    rewrite (at_push_back_last (Ticks tk)). done. }
  destruct Hno as [->| ->]; [apply Hplain|]. destruct show_label; apply Hplain.
Qed.

End TickLabels.

(* ================================================================== *)
(** * The generic helpers *)

Lemma land_subset_bits (x f : Z) :
  Z.land x f = f ↔ ∀ n, 0 <= n → Z.testbit f n = true → Z.testbit x n = true.
Proof.
  split.
  - intros Heq n Hn Hf. rewrite <- Heq, Z.land_spec in Hf. by apply andb_prop in Hf as [? _].
  - intros Hsub. apply Z.bits_inj'. intros n Hn. rewrite Z.land_spec.
    destruct (Z.testbit f n) eqn:Hf; [|by rewrite andb_false_r].
    by rewrite (Hsub n Hn Hf).
Qed.

(** X21.  [ImHasFlag] tests inclusion of bit sets: a union of flags is
    reported exactly when each part is, a flag just added is reported, and
    the empty flag always is. *)
Theorem ImHasFlag_union (set f1 f2 : Z) :
  ImHasFlag set (Z.lor f1 f2) = ImHasFlag set f1 && ImHasFlag set f2
  ∧ ImHasFlag (Z.lor set f1) f1 = true
  ∧ ImHasFlag set 0 = true.
Proof.
  unfold ImHasFlag. split; [|split].
  - apply eq_true_iff_eq. rewrite andb_true_iff, !Z.eqb_eq, !land_subset_bits. split.
    + intros Hsub. split; intros n Hn Hf; apply (Hsub n Hn); rewrite Z.lor_spec, Hf;
        [done|by rewrite orb_true_r].
    + intros [H1 H2] n Hn Hf. rewrite Z.lor_spec in Hf.
      apply orb_prop in Hf as [Hf|Hf]; [by apply H1|by apply H2].
  - apply Z.eqb_eq, land_subset_bits. intros n Hn Hf. by rewrite Z.lor_spec, Hf, orb_true_r.
  - by rewrite Z.land_0_r.
Qed.

(** A valid finite double is at most [DBL_MAX] in magnitude. *)
Lemma valid_double_mantissa m e :
  F64.valid (S754_finite false m e) = true → Zpos m < 2 ^ 53 ∧ e <= 971.
Proof.
  unfold F64.valid, valid_binary, bounded, canonical_mantissa. intros Hv.
  apply andb_prop in Hv as [Hc He]. apply Z.eqb_eq in Hc. apply Z.leb_le in He.
  unfold fexp, emin, F64.prec, F64.emax in *. split; [|lia].
  assert (Hd : Zpos (digits2_pos m) <= 53) by lia.
  rewrite digits2_pos_log2 in Hd. apply Z.log2_lt_pow2; lia.
Qed.

Lemma DBL_MAX_eq :
  ∃ M, F64.DBL_MAX = S754_finite false M 971 ∧ Zpos M = 2 ^ 53 - 1.
Proof. eexists. split; [reflexivity|]. by vm_compute. Qed.

Lemma SFcompare_finite_pos m e M e0 :
  e <= e0 → Zpos m <= Zpos M →
  SFcompare (S754_finite false m e) (S754_finite false M e0) = Some Lt
  ∨ SFcompare (S754_finite false m e) (S754_finite false M e0) = Some Eq.
Proof.
  intros He Hm. cbn [SFcompare]. destruct (Z.compare_spec e e0) as [_|_|Hgt]; [|by left|lia].
  rewrite Pos.compare_cont_spec. unfold Pos.switch_Eq.
  destruct (Pos.compare_spec m M) as [_|_|Hgt]; [by right|by left|lia].
Qed.

Lemma SFcompare_finite_neg m e M e0 :
  e <= e0 → Zpos m <= Zpos M →
  SFcompare (S754_finite true M e0) (S754_finite true m e) = Some Lt
  ∨ SFcompare (S754_finite true M e0) (S754_finite true m e) = Some Eq.
Proof.
  intros He Hm. cbn [SFcompare]. destruct (Z.compare_spec e0 e) as [_|Hlt|_]; [|lia|by left].
  rewrite Pos.compare_cont_spec. unfold Pos.switch_Eq.
  destruct (Pos.compare_spec M m) as [_|Hlt|_]; [by right|lia|by left].
Qed.

(** [ImNanOrInf] on the doubles, case by case. *)
Lemma ImNanOrInf_cases val :
  F64.valid val = true →
  ImNanOrInf val = match val with
                   | S754_nan | S754_infinity _ => true
                   | _ => false
                   end.
Proof.
  intros Hv. destruct DBL_MAX_eq as (M & HM & HMv).
  unfold ImNanOrInf, ImNan. rewrite HM. unfold SFleb, SFopp.
  destruct val as [s|s| |s m e]; [by destruct s|by destruct s|done|].
  assert (Hb : Zpos m < 2 ^ 53 ∧ e <= 971) by (by apply valid_double_mantissa).
  destruct Hb as [Hm He]. cbn [negb]. destruct s.
  - destruct (SFcompare_finite_neg m e M 971 He ltac:(lia)) as [Hc|Hc]; rewrite Hc; done.
  - destruct (SFcompare_finite_pos m e M 971 He ltac:(lia)) as [Hc|Hc]; rewrite Hc; done.
Qed.

(** X22.  On the doubles, [ImNanOrInf] is true of NaN and of the two
    infinities and of nothing else: every finite double, [DBL_MAX] and
    [-DBL_MAX] included, passes. *)
Theorem ImNanOrInf_iff val :
  F64.valid val = true →
  (ImNanOrInf val = true ↔ val = S754_nan ∨ ∃ s, val = S754_infinity s)
  ∧ ImNanOrInf F64.DBL_MAX = false ∧ ImNanOrInf (SFopp F64.DBL_MAX) = false.
Proof.
  intros Hv. split; [|split; by vm_compute].
  rewrite (ImNanOrInf_cases val Hv). destruct val as [s|s| |s m e].
  - split; [done|]. intros [?|[? ?]]; done.
  - split; [eauto|done].
  - split; [eauto|done].
  - split; [done|]. intros [?|[? ?]]; done.
Qed.

Lemma SFsub_diag_finite prec emax s m e :
  SFsub prec emax (S754_finite s m e) (S754_finite s m e) = S754_zero false.
Proof.
  unfold SFsub. rewrite Z.min_id. unfold shl_align. rewrite Z.sub_diag. cbn [fst].
  rewrite ?Z.sub_diag. done.
Qed.

(** X23.  [ImAlmostEqual] of a double with itself holds exactly when
    the double is finite: an infinity minus itself is NaN, and no
    comparison with NaN holds. *)
Theorem ImAlmostEqual_same v ulp :
  F64.valid v = true → ImAlmostEqual v v ulp = negb (ImNanOrInf v).
Proof.
  intros Hv. rewrite (ImNanOrInf_cases v Hv). unfold ImAlmostEqual, ImAbs, F64.sub.
  destruct v as [s|s| |s m e].
  - assert (Hz : SFsub F64.prec F64.emax (S754_zero s) (S754_zero s) = S754_zero false)
      by (by destruct s).
    rewrite Hz. cbn [SFabs negb]. apply orb_true_iff. by right.
  - by destruct s.
  - done.
  - rewrite SFsub_diag_finite. cbn [SFabs negb]. apply orb_true_iff. by right.
Qed.

Lemma SFadd_comm prec emax x y : SFadd prec emax x y = SFadd prec emax y x.
Proof.
  destruct x as [sx|sx| |sx mx ex], y as [sy|sy| |sy my ey]; try done;
    try (by destruct sx, sy).
  unfold SFadd. by rewrite Z.min_comm, Z.add_comm.
Qed.

Lemma SFabs_binary_round_aux prec emax s s' m e l :
  SFabs (binary_round_aux prec emax s m e l) = SFabs (binary_round_aux prec emax s' m e l).
Proof.
  unfold binary_round_aux.
  destruct (shr_fexp prec emax m e l) as [r1 e1].
  destruct (shr_fexp prec emax _ e1 loc_Exact) as [r2 e2].
  destruct (shr_m r2); [done| |done]. by destruct (e2 <=? emax - prec).
Qed.

Lemma SFabs_binary_normalize_opp prec emax z e :
  SFabs (binary_normalize prec emax (- z) e false)
  = SFabs (binary_normalize prec emax z e false).
Proof.
  destruct z as [|p|p]; [done| |].
  - change (- Zpos p) with (Zneg p). cbn [binary_normalize]. unfold binary_round.
    destruct (shl_align _ _ _). apply SFabs_binary_round_aux.
  - change (- Zneg p) with (Zpos p). cbn [binary_normalize]. unfold binary_round.
    destruct (shl_align _ _ _). apply SFabs_binary_round_aux.
Qed.

Lemma SFabs_sub_swap prec emax x y :
  SFabs (SFsub prec emax x y) = SFabs (SFsub prec emax y x).
Proof.
  destruct x as [sx|sx| |sx mx ex], y as [sy|sy| |sy my ey]; try done;
    try (by destruct sx, sy).
  unfold SFsub. rewrite (Z.min_comm ey ex).
  rewrite <- SFabs_binary_normalize_opp. do 2 f_equal. lia.
Qed.

(** X24.  [ImAlmostEqual] does not depend on the order of the two
    numbers. *)
Theorem ImAlmostEqual_sym v1 v2 ulp : ImAlmostEqual v1 v2 ulp = ImAlmostEqual v2 v1 ulp.
Proof.
  unfold ImAlmostEqual, ImAbs, F64.sub, F64.add.
  by rewrite (SFabs_sub_swap _ _ v1 v2), (SFadd_comm _ _ v1 v2).
Qed.

(* ================================================================== *)
(** * [ImMixU32], byte by byte *)

Lemma split_mod_div k x y :
  0 <= k → 0 <= x < 2 ^ k → (x + 2 ^ k * y) mod 2 ^ k = x ∧ (x + 2 ^ k * y) / 2 ^ k = y.
Proof.
  intros Hk Hx. assert (Hp : 0 < 2 ^ k) by (apply Z.pow_pos_nonneg; lia).
  rewrite (Z.mul_comm (2 ^ k) y). split.
  - rewrite Z_mod_plus_full. by apply Z.mod_small.
  - rewrite Z.div_add by lia. rewrite Z.div_small by done. lia.
Qed.

Lemma land_mod_pow2 k a b :
  0 <= k → Z.land a b mod 2 ^ k = Z.land (a mod 2 ^ k) (b mod 2 ^ k).
Proof.
  intros Hk. rewrite <- !Z.land_ones by done. apply Z.bits_inj'. intros n Hn.
  rewrite !Z.land_spec. destruct (Z.testbit (Z.ones k) n); [|by rewrite !andb_false_r].
  by rewrite !andb_true_r.
Qed.

Lemma land_div_pow2 k a b :
  0 <= k → Z.land a b / 2 ^ k = Z.land (a / 2 ^ k) (b / 2 ^ k).
Proof. intros Hk. by rewrite <- !Z.shiftr_div_pow2, Z.shiftr_land by done. Qed.

Lemma lor_mod_pow2 k a b :
  0 <= k → Z.lor a b mod 2 ^ k = Z.lor (a mod 2 ^ k) (b mod 2 ^ k).
Proof. intros Hk. by rewrite <- !Z.land_ones, Z.land_lor_distr_l by done. Qed.

Lemma lor_div_pow2 k a b :
  0 <= k → Z.lor a b / 2 ^ k = Z.lor (a / 2 ^ k) (b / 2 ^ k).
Proof. intros Hk. by rewrite <- !Z.shiftr_div_pow2, Z.shiftr_lor by done. Qed.

(** Bitwise operations work field by field. *)
Lemma land_split k p q mp mq :
  0 <= k → 0 <= p < 2 ^ k → 0 <= mp < 2 ^ k →
  Z.land (p + 2 ^ k * q) (mp + 2 ^ k * mq) = Z.land p mp + 2 ^ k * Z.land q mq.
Proof.
  intros Hk Hp Hmp. assert (Hpos : 0 < 2 ^ k) by (apply Z.pow_pos_nonneg; lia).
  destruct (split_mod_div k p q Hk Hp) as [Hm1 Hd1].
  destruct (split_mod_div k mp mq Hk Hmp) as [Hm2 Hd2].
  rewrite (Z.div_mod (Z.land (p + 2 ^ k * q) (mp + 2 ^ k * mq)) (2 ^ k)) at 1 by lia.
  rewrite land_mod_pow2, land_div_pow2, Hm1, Hm2, Hd1, Hd2 by done. lia.
Qed.

Lemma lor_split k p q mp mq :
  0 <= k → 0 <= p < 2 ^ k → 0 <= mp < 2 ^ k →
  Z.lor (p + 2 ^ k * q) (mp + 2 ^ k * mq) = Z.lor p mp + 2 ^ k * Z.lor q mq.
Proof.
  intros Hk Hp Hmp. assert (Hpos : 0 < 2 ^ k) by (apply Z.pow_pos_nonneg; lia).
  destruct (split_mod_div k p q Hk Hp) as [Hm1 Hd1].
  destruct (split_mod_div k mp mq Hk Hmp) as [Hm2 Hd2].
  rewrite (Z.div_mod (Z.lor (p + 2 ^ k * q) (mp + 2 ^ k * mq)) (2 ^ k)) at 1 by lia.
  rewrite lor_mod_pow2, lor_div_pow2, Hm1, Hm2, Hd1, Hd2 by done. lia.
Qed.

Lemma land_of_channels x0 x1 x2 x3 m0 m1 m2 m3 :
  is_byte x0 → is_byte x1 → is_byte x2 → is_byte m0 → is_byte m1 → is_byte m2 →
  Z.land (of_channels x0 x1 x2 x3) (of_channels m0 m1 m2 m3)
  = of_channels (Z.land x0 m0) (Z.land x1 m1) (Z.land x2 m2) (Z.land x3 m3).
Proof.
  unfold is_byte, of_channels. intros.
  by rewrite !(land_split 8) by (done || lia).
Qed.

Lemma lor_of_channels x0 x1 x2 x3 m0 m1 m2 m3 :
  is_byte x0 → is_byte x1 → is_byte x2 → is_byte m0 → is_byte m1 → is_byte m2 →
  Z.lor (of_channels x0 x1 x2 x3) (of_channels m0 m1 m2 m3)
  = of_channels (Z.lor x0 m0) (Z.lor x1 m1) (Z.lor x2 m2) (Z.lor x3 m3).
Proof.
  unfold is_byte, of_channels. intros.
  by rewrite !(lor_split 8) by (done || lia).
Qed.

Lemma land_byte_255 c : is_byte c → Z.land c 255 = c.
Proof.
  intros Hc. change 255 with (Z.ones 8). rewrite Z.land_ones by lia.
  apply Z.mod_small. exact Hc.
Qed.

Lemma shiftr_of_channels c0 c1 c2 c3 :
  is_byte c0 → Z.shiftr (of_channels c0 c1 c2 c3) 8 = of_channels c1 c2 c3 0.
Proof.
  intros Hc. rewrite Z.shiftr_div_pow2 by lia. unfold of_channels.
  destruct (split_mod_div 8 c0 (c1 + 256 * (c2 + 256 * c3)) ltac:(lia) Hc) as [_ Hd].
  change (2 ^ 8) with 256 in *. rewrite Hd. lia.
Qed.

Lemma channel_of_channels c0 c1 c2 c3 :
  is_byte c0 → is_byte c1 → is_byte c2 → is_byte c3 →
  channel 0 (of_channels c0 c1 c2 c3) = c0 ∧ channel 1 (of_channels c0 c1 c2 c3) = c1
  ∧ channel 2 (of_channels c0 c1 c2 c3) = c2 ∧ channel 3 (of_channels c0 c1 c2 c3) = c3.
Proof.
  unfold is_byte. intros H0 H1 H2 H3. unfold channel.
  change 255 with (Z.ones 8). rewrite !Z.land_ones, !Z.shiftr_div_pow2 by lia.
  unfold of_channels. change (2 ^ (8 * 0)) with 1. change (2 ^ (8 * 1)) with 256.
  change (2 ^ (8 * 2)) with 65536. change (2 ^ (8 * 3)) with 16777216.
  change (2 ^ 8) with 256.
  repeat split.
  - rewrite Z.div_1_r. symmetry. apply (Z.mod_unique_pos _ _ (c1 + 256 * (c2 + 256 * c3))); lia.
  - replace ((c0 + 256 * (c1 + 256 * (c2 + 256 * c3))) / 256) with (c1 + 256 * (c2 + 256 * c3))
      by (apply (Z.div_unique_pos _ _ _ c0); lia).
    symmetry. apply (Z.mod_unique_pos _ _ (c2 + 256 * c3)); lia.
  - replace ((c0 + 256 * (c1 + 256 * (c2 + 256 * c3))) / 65536) with (c2 + 256 * c3)
      by (apply (Z.div_unique_pos _ _ _ (c0 + 256 * c1)); lia).
    symmetry. apply (Z.mod_unique_pos _ _ c3); lia.
  - replace ((c0 + 256 * (c1 + 256 * (c2 + 256 * c3))) / 16777216) with c3
      by (apply (Z.div_unique_pos _ _ _ (c0 + 256 * (c1 + 256 * c2))); lia).
    by apply Z.mod_small.
Qed.

Lemma channel_is_byte i x : is_byte (channel i x).
Proof.
  unfold channel, is_byte. change 255 with (Z.ones 8). rewrite Z.land_ones by lia.
  apply Z.mod_pos_bound. lia.
Qed.

(** An [ImU32] is its four bytes. *)
Lemma u32_of_channels a :
  is_u32 a → a = of_channels (channel 0 a) (channel 1 a) (channel 2 a) (channel 3 a).
Proof.
  intros [Ha0 Ha1]. unfold channel, of_channels.
  change 255 with (Z.ones 8). rewrite !Z.land_ones, !Z.shiftr_div_pow2 by lia.
  change (2 ^ (8 * 0)) with 1. change (2 ^ (8 * 1)) with 256.
  change (2 ^ (8 * 2)) with 65536. change (2 ^ (8 * 3)) with 16777216.
  change (2 ^ 8) with 256. change (2 ^ 32) with 4294967296 in Ha1.
  rewrite Z.div_1_r.
  pose proof (Z.div_mod a 256 ltac:(lia)). pose proof (Z.mod_pos_bound a 256 ltac:(lia)).
  pose proof (Z.div_mod (a / 256) 256 ltac:(lia)).
  pose proof (Z.mod_pos_bound (a / 256) 256 ltac:(lia)).
  pose proof (Z.div_mod (a / 65536) 256 ltac:(lia)).
  pose proof (Z.mod_pos_bound (a / 65536) 256 ltac:(lia)).
  assert (a / 65536 = a / 256 / 256) by (rewrite Z.div_div by lia; done).
  assert (a / 16777216 = a / 65536 / 256) by (rewrite Z.div_div by lia; done).
  assert (0 <= a / 16777216 < 256).
  { split; [apply Z.div_pos; lia|apply Z.div_lt_upper_bound; lia]. }
  rewrite (Z.mod_small (a / 16777216)) by done. lia.
Qed.

Lemma of_channels_u32 c0 c1 c2 c3 :
  is_byte c0 → is_byte c1 → is_byte c2 → is_byte c3 → is_u32 (of_channels c0 c1 c2 c3).
Proof. unfold is_byte, is_u32, of_channels. change (2 ^ 32) with 4294967296. lia. Qed.

(** One byte of the mix: [(x * (256 - s) + y * s) >> 8]. *)
Lemma mix_byte x y s :
  is_byte x → is_byte y → 0 <= s <= 256 →
  0 <= x * (256 - s) + y * s <= 65280
  ∧ is_byte ((x * (256 - s) + y * s) / 256)
  ∧ Z.min x y <= (x * (256 - s) + y * s) / 256 <= Z.max x y.
Proof.
  unfold is_byte. intros Hx Hy Hs.
  assert (Hp : 0 <= x * (256 - s) + y * s <= 65280) by nia.
  split; [done|].
  assert (Hmin : Z.min x y * 256 <= x * (256 - s) + y * s) by nia.
  assert (Hmax : x * (256 - s) + y * s <= Z.max x y * 256) by nia.
  assert (Hq : Z.min x y <= (x * (256 - s) + y * s) / 256 <= Z.max x y).
  { split; [apply Z.div_le_lower_bound; lia|apply Z.div_le_upper_bound; lia]. }
  split; [lia|done].
Qed.

(** A sum of two 16-bit fields, masked to the high byte of each. *)
Lemma mask_hi_fields P Q :
  0 <= P <= 65280 → 0 <= Q <= 65280 →
  Z.land (wrap32 (P + 65536 * Q)) 0xff00ff00 = of_channels 0 (P / 256) 0 (Q / 256).
Proof.
  intros HP HQ. unfold wrap32. rewrite Z.mod_small by (change (2 ^ 32) with 4294967296; lia).
  pose proof (Z.div_mod P 256 ltac:(lia)). pose proof (Z.mod_pos_bound P 256 ltac:(lia)).
  pose proof (Z.div_mod Q 256 ltac:(lia)). pose proof (Z.mod_pos_bound Q 256 ltac:(lia)).
  assert (0 <= P / 256 < 256).
  { split; [apply Z.div_pos; lia|apply Z.div_lt_upper_bound; lia]. }
  assert (0 <= Q / 256 < 256).
  { split; [apply Z.div_pos; lia|apply Z.div_lt_upper_bound; lia]. }
  replace (P + 65536 * Q) with (of_channels (P mod 256) (P / 256) (Q mod 256) (Q / 256))
    by (unfold of_channels; lia).
  change 0xff00ff00 with (of_channels 0 255 0 255).
  rewrite land_of_channels by (unfold is_byte; lia).
  rewrite !Z.land_0_r, !land_byte_255 by done. done.
Qed.

Lemma ImMixU32_mix32_packed a0 a1 a2 a3 b0 b1 b2 b3 s :
  is_byte a0 → is_byte a1 → is_byte a2 → is_byte a3 →
  is_byte b0 → is_byte b1 → is_byte b2 → is_byte b3 → 0 <= s <= 256 →
  ImMixU32_mix32 (of_channels a0 a1 a2 a3) (of_channels b0 b1 b2 b3) s
  = of_channels ((a0 * (256 - s) + b0 * s) / 256) ((a1 * (256 - s) + b1 * s) / 256)
      ((a2 * (256 - s) + b2 * s) / 256) ((a3 * (256 - s) + b3 * s) / 256).
Proof.
  intros Ha0 Ha1 Ha2 Ha3 Hb0 Hb1 Hb2 Hb3 Hs. unfold ImMixU32_mix32. cbv zeta.
  assert (Haf : wrap32 (256 - s) = 256 - s).
  { unfold wrap32. apply Z.mod_small. change (2 ^ 32) with 4294967296. lia. }
  rewrite Haf.
  change 0x00ff00ff with (of_channels 255 0 255 0).
  change 0xff00ff00 with (of_channels 0 255 0 255).
  rewrite !land_of_channels by (done || unfold is_byte; lia).
  rewrite !Z.land_0_r, !land_byte_255 by done.
  rewrite !shiftr_of_channels by (unfold is_byte; lia).
  destruct (mix_byte a0 b0 s Ha0 Hb0 Hs) as (HP0 & HB0 & _).
  destruct (mix_byte a1 b1 s Ha1 Hb1 Hs) as (HP1 & HB1 & _).
  destruct (mix_byte a2 b2 s Ha2 Hb2 Hs) as (HP2 & HB2 & _).
  destruct (mix_byte a3 b3 s Ha3 Hb3 Hs) as (HP3 & HB3 & _).
  replace (of_channels a0 0 a2 0 * (256 - s) + of_channels b0 0 b2 0 * s)
    with ((a0 * (256 - s) + b0 * s) + 65536 * (a2 * (256 - s) + b2 * s))
    by (unfold of_channels; ring).
  replace (of_channels a1 0 a3 0 * (256 - s) + of_channels b1 0 b3 0 * s)
    with ((a1 * (256 - s) + b1 * s) + 65536 * (a3 * (256 - s) + b3 * s))
    by (unfold of_channels; ring).
  change (of_channels 0 255 0 255) with 0xff00ff00.
  rewrite !mask_hi_fields by done.
  rewrite shiftr_of_channels by (unfold is_byte; lia).
  rewrite lor_of_channels by (done || unfold is_byte; lia).
  by rewrite !Z.lor_0_l, !Z.lor_0_r.
Qed.

Lemma ImMixU32_mix64_packed a0 a1 a2 a3 b0 b1 b2 b3 s :
  is_byte a0 → is_byte a1 → is_byte a2 → is_byte a3 →
  is_byte b0 → is_byte b1 → is_byte b2 → is_byte b3 → 0 <= s <= 256 →
  ImMixU32_mix64 (of_channels a0 a1 a2 a3) (of_channels b0 b1 b2 b3) s
  = of_channels ((a0 * (256 - s) + b0 * s) / 256) ((a1 * (256 - s) + b1 * s) / 256)
      ((a2 * (256 - s) + b2 * s) / 256) ((a3 * (256 - s) + b3 * s) / 256).
Proof.
  intros Ha0 Ha1 Ha2 Ha3 Hb0 Hb1 Hb2 Hb3 Hs. unfold ImMixU32_mix64. cbv zeta.
  assert (Haf : wrap32 (256 - s) = 256 - s).
  { unfold wrap32. apply Z.mod_small. change (2 ^ 32) with 4294967296. lia. }
  rewrite Haf.
  change 0x00ff00ff with (of_channels 255 0 255 0).
  change 0xff00ff00 with (of_channels 0 255 0 255).
  rewrite !land_of_channels by (done || unfold is_byte; lia).
  rewrite !Z.land_0_r, !land_byte_255 by done.
  destruct (mix_byte a0 b0 s Ha0 Hb0 Hs) as (HP0 & HB0 & _).
  destruct (mix_byte a1 b1 s Ha1 Hb1 Hs) as (HP1 & HB1 & _).
  destruct (mix_byte a2 b2 s Ha2 Hb2 Hs) as (HP2 & HB2 & _).
  destruct (mix_byte a3 b3 s Ha3 Hb3 Hs) as (HP3 & HB3 & _).
  (* the two 64-bit operands *)
  assert (Hwide : ∀ c0 c1 c2 c3, is_byte c0 → is_byte c1 → is_byte c2 → is_byte c3 →
            Z.lor (of_channels c0 0 c2 0) (wrap64 (Z.shiftl (of_channels 0 c1 0 c3) 24))
            = (c0 + 65536 * c2) + 2 ^ 32 * (c1 + 65536 * c3)).
  { intros c0 c1 c2 c3 H0 H1 H2 H3. unfold is_byte in *.
    rewrite Z.shiftl_mul_pow2 by lia. unfold wrap64.
    replace (of_channels 0 c1 0 c3 * 2 ^ 24) with (0 + 2 ^ 32 * (c1 + 65536 * c3))
      by (unfold of_channels; change (2 ^ 24) with 16777216;
          change (2 ^ 32) with 4294967296; lia).
    rewrite Z.mod_small
      by (change (2 ^ 32) with 4294967296; change (2 ^ 64) with 18446744073709551616; lia).
    replace (of_channels c0 0 c2 0) with ((c0 + 65536 * c2) + 2 ^ 32 * 0)
      by (unfold of_channels; lia).
    rewrite (lor_split 32) by (change (2 ^ 32) with 4294967296; lia).
    rewrite Z.lor_0_r, Z.lor_0_l. lia. }
  rewrite !Hwide by done.
  set (P0 := a0 * (256 - s) + b0 * s) in *. set (P1 := a1 * (256 - s) + b1 * s) in *.
  set (P2 := a2 * (256 - s) + b2 * s) in *. set (P3 := a3 * (256 - s) + b3 * s) in *.
  replace ((a0 + 65536 * a2 + 2 ^ 32 * (a1 + 65536 * a3)) * (256 - s)
           + (b0 + 65536 * b2 + 2 ^ 32 * (b1 + 65536 * b3)) * s)
    with ((P0 + 65536 * P2) + 2 ^ 32 * (P1 + 65536 * P3)) by (unfold P0, P1, P2, P3; ring).
  unfold wrap64 at 1 2. rewrite !Z.mod_small
    by (change (2 ^ 32) with 4294967296; change (2 ^ 64) with 18446744073709551616; lia).
  rewrite Z.shiftr_div_pow2 by lia.
  destruct (split_mod_div 32 (P0 + 65536 * P2) (P1 + 65536 * P3) ltac:(lia)
              ltac:(change (2 ^ 32) with 4294967296; lia)) as [_ Hd].
  rewrite Hd.
  change (of_channels 0 255 0 255) with (of_channels 0 255 0 255 + 2 ^ 32 * 0) at 2.
  rewrite (land_split 32)
    by (change (2 ^ 32) with 4294967296; unfold of_channels; lia).
  rewrite Z.land_0_r, Z.mul_0_r, Z.add_0_r.
  change (of_channels 0 255 0 255) with 0xff00ff00.
  assert (Hw : ∀ P Q, 0 <= P <= 65280 → 0 <= Q <= 65280 →
            P + 65536 * Q = wrap32 (P + 65536 * Q)).
  { intros P Q HP HQ. unfold wrap32. symmetry. apply Z.mod_small.
    change (2 ^ 32) with 4294967296. lia. }
  rewrite (Hw P0 P2), (Hw P1 P3) by done.
  rewrite !mask_hi_fields by done.
  rewrite shiftr_of_channels by (unfold is_byte; lia).
  rewrite lor_of_channels by (done || unfold is_byte; lia).
  rewrite !Z.lor_0_l, !Z.lor_0_r. unfold wrap32. apply Z.mod_small.
  by apply of_channels_u32.
Qed.

(** Both variants on the bytes of their arguments. *)
Lemma ImMixU32_variants_packed a b s :
  is_u32 a → is_u32 b → 0 <= s <= 256 →
  let c i := (channel i a * (256 - s) + channel i b * s) / 256 in
  ImMixU32_mix32 a b s = of_channels (c 0) (c 1) (c 2) (c 3)
  ∧ ImMixU32_mix64 a b s = of_channels (c 0) (c 1) (c 2) (c 3)
  ∧ (∀ i, is_byte (c i)).
Proof.
  intros Ha Hb Hs c.
  rewrite (u32_of_channels a Ha) at 1 2. rewrite (u32_of_channels b Hb) at 1 2.
  rewrite ImMixU32_mix32_packed, ImMixU32_mix64_packed by (done || apply channel_is_byte).
  split; [done|]. split; [done|]. intros i.
  by destruct (mix_byte (channel i a) (channel i b) s (channel_is_byte i a)
                 (channel_is_byte i b) Hs) as (_ & ? & _).
Qed.

Section MixProperties.
Context `{Host}.

Lemma ImMixU32_packed a b s :
  is_u32 a → is_u32 b → 0 <= s <= 256 →
  let c i := (channel i a * (256 - s) + channel i b * s) / 256 in
  ImMixU32 a b s = of_channels (c 0) (c 1) (c 2) (c 3) ∧ (∀ i, is_byte (c i)).
Proof.
  intros Ha Hb Hs c.
  destruct (ImMixU32_variants_packed a b s Ha Hb Hs) as (H32 & H64 & Hbytes).
  unfold ImMixU32. by destruct IMPLOT_MIX64.
Qed.

(** X25.  [ImMixU32] mixes byte by byte: each byte of the result is
    [(a_i * (256 - s) + b_i * s) >> 8] of the bytes of [a] and [b], for
    [s] in [[0, 256]], in either build. *)
Theorem ImMixU32_channels a b s i :
  is_u32 a → is_u32 b → 0 <= s <= 256 → 0 <= i <= 3 →
  is_u32 (ImMixU32 a b s)
  ∧ channel i (ImMixU32 a b s) = (channel i a * (256 - s) + channel i b * s) / 256.
Proof.
  intros Ha Hb Hs Hi. destruct (ImMixU32_packed a b s Ha Hb Hs) as [-> Hbytes].
  split; [by apply of_channels_u32|].
  destruct (channel_of_channels _ _ _ _ (Hbytes 0) (Hbytes 1) (Hbytes 2) (Hbytes 3))
    as (H0 & H1 & H2 & H3).
  assert (i = 0 ∨ i = 1 ∨ i = 2 ∨ i = 3) as [->|[->|[->| ->]]] by lia; done.
Qed.

(** X26.  The two builds of [ImMixU32], with and without
    [IMPLOT_MIX64], compute the same function on colors and weights in
    [[0, 256]]. *)
Theorem ImMixU32_variants_agree a b s :
  is_u32 a → is_u32 b → 0 <= s <= 256 →
  ImMixU32_mix64 a b s = ImMixU32_mix32 a b s.
Proof.
  intros Ha Hb Hs.
  destruct (ImMixU32_variants_packed a b s Ha Hb Hs) as (-> & -> & _). done.
Qed.

(** X27.  A mix stays between its two colors in every byte; the mix
    of a color with itself is that color, and the weight 256 gives the
    second color. *)
Theorem ImMixU32_between a b s :
  is_u32 a → is_u32 b → 0 <= s <= 256 →
  (∀ i, 0 <= i <= 3 →
     Z.min (channel i a) (channel i b) <= channel i (ImMixU32 a b s)
     <= Z.max (channel i a) (channel i b))
  ∧ ImMixU32 a a s = a
  ∧ ImMixU32 a b 256 = b.
Proof.
  intros Ha Hb Hs. split; [|split].
  - intros i Hi. destruct (ImMixU32_packed a b s Ha Hb Hs) as [-> Hbytes].
    destruct (channel_of_channels _ _ _ _ (Hbytes 0) (Hbytes 1) (Hbytes 2) (Hbytes 3))
      as (H0 & H1 & H2 & H3).
    assert (Hc : ∀ j, Z.min (channel j a) (channel j b)
                      <= (channel j a * (256 - s) + channel j b * s) / 256
                      <= Z.max (channel j a) (channel j b)).
    { intros j. by destruct (mix_byte (channel j a) (channel j b) s (channel_is_byte j a)
                               (channel_is_byte j b) Hs) as (_ & _ & ?). }
    assert (i = 0 ∨ i = 1 ∨ i = 2 ∨ i = 3) as [->|[->|[->| ->]]] by lia.
    + rewrite H0. apply Hc.
    + rewrite H1. apply Hc.
    + rewrite H2. apply Hc.
    + rewrite H3. apply Hc.
  - destruct (ImMixU32_packed a a s Ha Ha Hs) as [-> _].
    rewrite (u32_of_channels a Ha) at 9.
    assert (Hsame : ∀ x, (x * (256 - s) + x * s) / 256 = x).
    { intros x. replace (x * (256 - s) + x * s) with (x * 256) by ring.
      by rewrite Z.div_mul by lia. }
    by rewrite !Hsame.
  - destruct (ImMixU32_packed a b 256 Ha Hb ltac:(lia)) as [-> _].
    rewrite (u32_of_channels b Hb) at 5.
    assert (Hend : ∀ x y, (x * (256 - 256) + y * 256) / 256 = y).
    { intros x y. replace (x * (256 - 256) + y * 256) with (y * 256) by ring.
      by rewrite Z.div_mul by lia. }
    by rewrite !Hend.
Qed.

End MixProperties.

(* ================================================================== *)
(** * [ImAlphaU32] *)

Lemma SFmul_comm prec emax x y : SFmul prec emax x y = SFmul prec emax y x.
Proof.
  destruct x as [sx|sx| |sx mx ex], y as [sy|sy| |sy my ey]; try done;
    try (by destruct sx, sy).
  unfold SFmul. by rewrite xorb_comm, Pos.mul_comm, Z.add_comm.
Qed.

(** [1.0f - alpha] stays between 0 and 1 for [alpha] in [[0, 1]]. *)
Lemma sub_one_between alpha :
  F32.in_unit alpha = true → between 0 0 1 (F32.sub F32.one alpha).
Proof.
  intros Ha. destruct (in_unit_cases alpha Ha) as [[s ->]|(m & e & -> & He & Hm)].
  - cbn. split; [lia|]. split; lia.
  - unfold F32.sub, F32.one, SFsub. rewrite Z.min_r by lia.
    pose proof (shl_align_spec 8388608 (-23) e) as Ha1.
    destruct (shl_align 8388608 (-23) e) as [m1 e1]. destruct Ha1 as [He1 Hm1].
    pose proof (shl_align_spec m e e) as Ha2.
    destruct (shl_align m e e) as [m2 e2]. destruct Ha2 as [He2 Hm2].
    rewrite Z.min_r in He1 by lia. rewrite Z.min_id in He2. subst e1 e2.
    rewrite Z.sub_diag, Z.pow_0_r, Z.mul_1_r in Hm2.
    cbn [fst cond_Zopp]. rewrite Hm1, Hm2. change (Z.pos 8388608) with (2 ^ 23).
    rewrite <- Z.pow_add_r by lia. replace (23 + (-23 - e)) with (- e) by lia.
    destruct (2 ^ (- e) - Zpos m) as [|M|M] eqn:Hz; [cbn; lia| |lia].
    cbn [binary_normalize]. unfold binary_round.
    set (f := fexp F32.prec F32.emax (Zpos (digits2_pos M) + e)).
    pose proof (shl_align_spec M e f) as Hz'.
    destruct (shl_align M e f) as [mz e']. destruct Hz' as [He' Hmz].
    assert (P1 : 0 < 2 ^ (e - e')) by (apply Z.pow_pos_nonneg; lia).
    assert (P2 : 2 ^ (0 - e') = 2 ^ (- e) * 2 ^ (e - e')).
    { rewrite <- Z.pow_add_r by lia. f_equal. lia. }
    apply binary_round_aux_between; [lia|lia|lia|lia|].
    rewrite Hmz, P2. nia.
Qed.

Lemma to_u32_of_to_int y v : F32.to_int y = Some v → 0 <= v → F32.to_u32 y = Some v.
Proof.
  unfold F32.to_int, F32.to_u32. destruct y as [s|s| |s m e]; try done.
  set (w := if s then - F32.trunc_mag m e else F32.trunc_mag m e).
  destruct ((INT_MIN <=? w) && (w <=? INT_MAX)) eqn:Hr; [|done].
  intros [= <-] Hv. apply andb_prop in Hr as [_ Hmax]. apply Z.leb_le in Hmax.
  unfold INT_MAX in Hmax.
  replace (0 <=? w) with true by lia. by replace (w <? 2 ^ 32) with true by lia.
Qed.

Lemma floor_ceil_bounds k (m : positive) e :
  0 <= k → e <= 0 → Zpos m <= 2 ^ (- e) →
  0 <= (k * Zpos m) / 2 ^ (- e) <= - ((- (k * Zpos m)) / 2 ^ (- e))
  ∧ - ((- (k * Zpos m)) / 2 ^ (- e)) <= k.
Proof.
  intros Hk He Hm.
  assert (Hb : 0 < 2 ^ (- e)) by (apply Z.pow_pos_nonneg; lia).
  pose proof (Z.div_mod (k * Zpos m) (2 ^ (- e)) ltac:(lia)) as Hdm.
  pose proof (Z.mod_pos_bound (k * Zpos m) (2 ^ (- e)) Hb) as Hmb.
  pose proof (Z.div_mod (- (k * Zpos m)) (2 ^ (- e)) ltac:(lia)) as Hdm'.
  pose proof (Z.mod_pos_bound (- (k * Zpos m)) (2 ^ (- e)) Hb) as Hmb'.
  set (a := k * Zpos m) in *. set (b := 2 ^ (- e)) in *.
  set (lo := a / b) in *. set (q := - a / b) in *.
  assert (0 <= lo) by (apply Z.div_pos; lia).
  assert (- k <= q) by (apply Z.div_le_lower_bound; [done|]; nia).
  assert (lo <= - q) by nia. lia.
Qed.

(** The factor [(1.0f - alpha) * 255], cut to an integer, is a byte. *)
Lemma alpha_factor_byte alpha :
  F32.in_unit alpha = true →
  ∃ v, F32.to_u32 (F32.mul (F32.sub F32.one alpha) (F32.of_int 255)) = Some v
       ∧ 0 <= v <= 255.
Proof.
  intros Ha. pose proof (sub_one_between alpha Ha) as Hb.
  unfold F32.mul. rewrite SFmul_comm. fold F32.mul.
  destruct (F32.sub F32.one alpha) as [s|s| |s m e]; try done.
  - exists 0. split; [|lia]. by vm_compute.
  - destruct s; [done|]. destruct Hb as [He Hm]. rewrite Z.sub_0_l, Z.mul_1_l in Hm.
    destruct (floor_ceil_bounds 255 m e ltac:(lia) He ltac:(lia)) as [H0 H1].
    pose proof (mul_between 255 m e ltac:(lia) He ltac:(lia)) as Hmul.
    destruct (to_int_between _ _ _ H0 ltac:(unfold INT_MAX; lia) Hmul)
      as (v & Hv & Hrange).
    exists v. split; [apply to_u32_of_to_int; [done|lia]|lia].
Qed.

Lemma forall_byte (P : Z → bool) :
  forallb P (seqZ 0 256) = true → ∀ v, 0 <= v <= 255 → P v = true.
Proof.
  intros Hall v Hv. rewrite forallb_forall in Hall. apply Hall.
  apply list_elem_of_In, elem_of_seqZ. lia.
Qed.

(** The mask [~(v << 24)], byte by byte. *)
Lemma alpha_mask_channels v i :
  0 <= v <= 255 → 0 <= i <= 3 →
  channel i (not32 (wrap32 (Z.shiftl v IM_COL32_A_SHIFT)))
  = if i =? 3 then 255 - v else 255.
Proof.
  intros Hv Hi.
  assert (i = 0 ∨ i = 1 ∨ i = 2 ∨ i = 3) as [->|[->|[->| ->]]] by lia; cbn [Z.eqb Pos.eqb];
    apply Z.eqb_eq.
  - exact (forall_byte
             (λ w, channel 0 (not32 (wrap32 (Z.shiftl w IM_COL32_A_SHIFT))) =? 255)
             ltac:(by vm_compute) v Hv).
  - exact (forall_byte
             (λ w, channel 1 (not32 (wrap32 (Z.shiftl w IM_COL32_A_SHIFT))) =? 255)
             ltac:(by vm_compute) v Hv).
  - exact (forall_byte
             (λ w, channel 2 (not32 (wrap32 (Z.shiftl w IM_COL32_A_SHIFT))) =? 255)
             ltac:(by vm_compute) v Hv).
  - exact (forall_byte
             (λ w, channel 3 (not32 (wrap32 (Z.shiftl w IM_COL32_A_SHIFT))) =? 255 - w)
             ltac:(by vm_compute) v Hv).
Qed.

Lemma channel_land i x y : channel i (Z.land x y) = Z.land (channel i x) (channel i y).
Proof.
  unfold channel. rewrite Z.shiftr_land. apply Z.bits_inj'. intros n Hn.
  rewrite !Z.land_spec. destruct (Z.testbit 255 n); [|by rewrite !andb_false_r].
  by rewrite !andb_true_r.
Qed.

Lemma channel_byte i x : Z.land (channel i x) 255 = channel i x.
Proof. unfold channel. by rewrite <- Z.land_assoc, Z.land_diag. Qed.

Lemma land_u32 x y : is_u32 x → is_u32 (Z.land x y).
Proof.
  intros [Hx0 Hx1]. split.
  - apply Z.land_nonneg. by left.
  - destruct (decide (Z.land x y = 0)) as [->|Hne]; [lia|].
    assert (Hp : 0 < Z.land x y).
    { assert (0 <= Z.land x y); [apply Z.land_nonneg; by left|lia]. }
    apply Z.log2_lt_cancel. rewrite Z.log2_pow2 by lia.
    destruct (decide (x = 0)) as [->|Hx]; [by rewrite Z.land_0_l in Hne|].
    assert (Hlx : Z.log2 x < 32) by (apply Z.log2_lt_pow2; lia).
    destruct (Z_lt_le_dec (Z.log2 (Z.land x y)) 32) as [|Hge]; [done|exfalso].
    pose proof (Z.bit_log2 (Z.land x y) Hp) as Hbit. rewrite Z.land_spec in Hbit.
    apply andb_prop in Hbit as [Hbx _].
    rewrite Z.bits_above_log2 in Hbx by lia. done.
Qed.

(** X28.  For [alpha] in [[0, 1]], [ImAlphaU32] masks the alpha byte
    and nothing else: the three color bytes are those of [col], and the
    alpha byte is that of [col] with the bits of a byte [v] cleared,
    [v] being [(1.0f - alpha) * 255] cut to an integer. *)
Theorem ImAlphaU32_masks_alpha col alpha :
  is_u32 col → F32.in_unit alpha = true →
  ∃ v r,
    F32.to_u32 (F32.mul (F32.sub F32.one alpha) (F32.of_int 255)) = Some v
    ∧ 0 <= v <= 255
    ∧ ImAlphaU32 col alpha = Some r ∧ is_u32 r
    ∧ channel 0 r = channel 0 col ∧ channel 1 r = channel 1 col
    ∧ channel 2 r = channel 2 col
    ∧ channel 3 r = Z.land (channel 3 col) (255 - v).
Proof.
  intros Hc Ha. destruct (alpha_factor_byte alpha Ha) as (v & Hv & Hr).
  exists v, (Z.land col (not32 (wrap32 (Z.shiftl v IM_COL32_A_SHIFT)))).
  split; [done|]. split; [done|]. split; [unfold ImAlphaU32; by rewrite Hv|].
  split; [by apply land_u32|].
  rewrite !channel_land, !alpha_mask_channels by lia. cbn [Z.eqb].
  by rewrite !channel_byte.
Qed.

(** X29.  At the ends: [alpha = 1.0f] returns the color as it is, and
    [alpha = 0.0f] returns it with the alpha byte cleared. *)
Theorem ImAlphaU32_ends col :
  is_u32 col →
  ImAlphaU32 col F32.one = Some col
  ∧ ImAlphaU32 col F32.zero = Some (Z.land col 0x00FFFFFF).
Proof.
  intros Hc. unfold ImAlphaU32.
  replace (F32.to_u32 (F32.mul (F32.sub F32.one F32.one) (F32.of_int 255)))
    with (Some 0) by (by vm_compute).
  replace (F32.to_u32 (F32.mul (F32.sub F32.one F32.zero) (F32.of_int 255)))
    with (Some 255) by (by vm_compute).
  cbn [mbind option_bind].
  change (not32 (wrap32 (Z.shiftl 0 IM_COL32_A_SHIFT))) with (Z.ones 32).
  change (not32 (wrap32 (Z.shiftl 255 IM_COL32_A_SHIFT))) with 0x00FFFFFF.
  split; [|done]. rewrite Z.land_ones by lia. f_equal. apply Z.mod_small. exact Hc.
Qed.

(* ================================================================== *)
(** * The further properties at concrete inputs *)

Lemma registry_layout_witness :
  0 <= Count demo_two
  ∧ ImVector.size (KeyCounts demo_two) = Count demo_two
  ∧ ImVector.size (KeyOffsets demo_two) = Count demo_two
  ∧ ImVector.size (TableSizes demo_two) = Count demo_two
  ∧ ImVector.size (TableOffsets demo_two) = Count demo_two
  ∧ ImVector.size (TextOffsets demo_two) = Count demo_two
  ∧ ImVector.size (Quals demo_two) = Count demo_two
  ∧ Forall (λ n, 1 <= n) (KeyCounts demo_two)
  ∧ KeyOffsets demo_two = offsets_from 0 (KeyCounts demo_two)
  ∧ TableOffsets demo_two = offsets_from 0 (TableSizes demo_two)
  ∧ ImVector.size (Keys demo_two) = sum_sizes (KeyCounts demo_two)
  ∧ ImVector.size (Tables demo_two) = sum_sizes (TableSizes demo_two).
Proof. apply (registry_layout (H := demo_host) demo_two). apply reachable_demo_two. Defined.

Lemma registered_table_size_witness :
  ∃ n qual, GetKeyCount demo_rb 0 = Some n ∧ 1 <= n ∧ IsQual demo_rb 0 = Some qual
            ∧ GetTableSize demo_rb 0 = Some (if qual then n else 255 * (n - 1) + 1).
Proof.
  apply (registered_table_size (H := demo_host) demo_rb 0).
  - apply reachable_demo_rb.
  - by vm_compute.
Defined.

Lemma continuous_table_entries_witness :
  (∀ i, 0 <= i < 2 →
     ∃ k, GetKeyColor demo_rb 0 i = Some k ∧ GetTableColor demo_rb 0 (255 * i) = Some k)
  ∧ (∀ i s, 0 <= i < 2 - 1 → 0 <= s < 255 →
       ∃ a b, GetKeyColor demo_rb 0 i = Some a ∧ GetKeyColor demo_rb 0 (i + 1) = Some b
              ∧ GetTableColor demo_rb 0 (255 * i + s)
                = Some (ImMixU32 (H := demo_host) a b s)).
Proof.
  apply (continuous_table_entries (H := demo_host) demo_rb 0 2).
  - apply reachable_demo_rb.
  - by vm_compute.
  - by vm_compute.
Defined.

Lemma RebuildTables_changes_nothing_witness :
  RebuildTables (H := demo_host) demo_two = Some demo_two.
Proof.
  apply (RebuildTables_changes_nothing (H := demo_host) demo_two). apply reachable_demo_two.
Defined.

Lemma registered_names_round_trip_witness :
  ∃ name, GetName demo_two 1 = Some (Some name) ∧ no_nul name
          ∧ GetIndex (H := demo_host) demo_two name = 1.
Proof.
  apply (registered_names_round_trip (H := demo_host) demo_two 1).
  - apply reachable_demo_two.
  - by vm_compute.
Defined.

Lemma GetIndex_in_registry_witness :
  GetIndex (H := demo_host) demo_two "B"%string = -1
  ∨ (0 <= GetIndex (H := demo_host) demo_two "B"%string < Count demo_two
     ∧ ∃ stored, GetName demo_two (GetIndex (H := demo_host) demo_two "B"%string)
                 = Some (Some stored)
                 ∧ ImHashStr (Host := demo_host) stored = ImHashStr (Host := demo_host) "B"%string).
Proof.
  apply (GetIndex_in_registry (H := demo_host) demo_two "B"%string). apply reachable_demo_two.
Defined.

Lemma GetName_outside_registry_witness :
  (Count demo_two <= 5 → GetName demo_two 5 = Some None)
  ∧ (5 < 0 → GetName demo_two 5 = None)
  ∧ (∀ name, GetIndex (H := demo_host) demo_two name = -1 →
       GetName demo_two (GetIndex (H := demo_host) demo_two name) = None).
Proof.
  apply (GetName_outside_registry (H := demo_host) demo_two 5). apply reachable_demo_two.
Defined.

Lemma Append_keeps_registered_witness :
  1 = Count demo_one ∧ Count demo_two = Count demo_one + 1
  ∧ (∀ cmap, 0 <= cmap < Count demo_one →
       GetName demo_two cmap = GetName demo_one cmap
       ∧ IsQual demo_two cmap = IsQual demo_one cmap
       ∧ GetKeyCount demo_two cmap = GetKeyCount demo_one cmap
       ∧ key_colors demo_two cmap = key_colors demo_one cmap
       ∧ GetTableSize demo_two cmap = GetTableSize demo_one cmap
       ∧ table_contents demo_two cmap = table_contents demo_one cmap)
  ∧ (∀ other, GetIndex (H := demo_host) demo_one other ≠ -1 →
       GetIndex (H := demo_host) demo_two other = GetIndex (H := demo_host) demo_one other).
Proof.
  apply (Append_keeps_registered (H := demo_host) demo_one "B"%string [3; 4] 2 true demo_two 1).
  - apply reachable_demo_one.
  - solve_no_nul.
  - repeat constructor; unfold is_u32; lia.
  - by vm_compute.
  - lia.
Defined.

Lemma Append_without_keys_stops_witness :
  Append (H := demo_host) "Z"%string [] 0 false demo_one = None.
Proof.
  apply (Append_without_keys_stops (H := demo_host) demo_one "Z"%string [] 0 false).
  - apply reachable_demo_one.
  - by vm_compute.
  - lia.
Defined.

Lemma SetKeyColor_succeeds_iff_witness :
  is_Some (SetKeyColor (H := demo_host) demo_two 0 2 99)
  ↔ ∃ off, ImVector.at_ (KeyOffsets demo_two) 0 = Some off
           ∧ 0 <= off + 2 < ImVector.size (Keys demo_two).
Proof.
  apply (SetKeyColor_succeeds_iff (H := demo_host) demo_two 0 2 99).
  - apply reachable_demo_two.
  - unfold is_u32; lia.
Defined.

Lemma SetKeyColor_writes_one_slot_witness :
  GetKeyColor demo_two_set 0 1 = Some 99
  ∧ Count demo_two_set = Count demo_two
  ∧ (∀ j, GetKeyCount demo_two_set j = GetKeyCount demo_two j
          ∧ IsQual demo_two_set j = IsQual demo_two j
          ∧ GetName demo_two_set j = GetName demo_two j)
  ∧ (∀ name, GetIndex (H := demo_host) demo_two_set name
             = GetIndex (H := demo_host) demo_two name)
  ∧ (∀ j i off off',
       ImVector.at_ (KeyOffsets demo_two) 0 = Some off →
       ImVector.at_ (KeyOffsets demo_two) j = Some off' →
       off' + i ≠ off + 1 → GetKeyColor demo_two_set j i = GetKeyColor demo_two j i).
Proof.
  apply (SetKeyColor_writes_one_slot (H := demo_host) demo_two 0 1 99 demo_two_set).
  - apply reachable_demo_two.
  - unfold is_u32; lia.
  - by vm_compute.
Defined.

Lemma SetKeyColor_past_end_writes_next_witness :
  ∃ d', SetKeyColor (H := demo_host) demo_two 0 2 99 = Some d'
        ∧ key_colors d' 0 = key_colors demo_two 0
        ∧ GetKeyColor d' (0 + 1) 0 = Some 99.
Proof.
  apply (SetKeyColor_past_end_writes_next (H := demo_host) demo_two 0 2 99).
  - apply reachable_demo_two.
  - unfold is_u32; lia.
  - lia.
  - by vm_compute.
  - by vm_compute.
Defined.

Lemma SetKeyColor_same_value_witness :
  SetKeyColor (H := demo_host) demo_two 0 1 2 = Some demo_two.
Proof.
  apply (SetKeyColor_same_value_changes_nothing (H := demo_host) demo_two 0 1 2).
  - apply reachable_demo_two.
  - by vm_compute.
Defined.

Lemma qualitative_LerpTable_witness :
  0 <= 1 <= 2 - 1
  ∧ ∃ color, LerpTable demo_one 0 float_two = Some color
             ∧ GetKeyColor demo_one 0 1 = Some color.
Proof.
  apply (qualitative_LerpTable_returns_a_key (H := demo_host) demo_one 0 2 float_two 1).
  - apply reachable_demo_one.
  - by vm_compute.
  - by vm_compute.
  - by vm_compute.
Defined.

Lemma AddTick_label_GetText_witness :
  ∃ tk' tick,
    Ticker.AddTick_label (H := demo_host) (mkTicker [] []) double_one true true (Some "1.0"%string)
    = Some (tk', tick)
    ∧ TextOffset tick = ImGuiTextBuffer.size (TextBuffer (mkTicker [] []))
    ∧ LabelSize tick = Some (CalcTextSize (Host := demo_host) "1.0"%string)
    ∧ Idx tick = Some (Ticker.TickCount (mkTicker [] []))
    ∧ Ticker.TickCount tk' = Ticker.TickCount (mkTicker [] []) + 1
    ∧ Ticker.GetText_tick tk' tick = Some "1.0"%string
    ∧ Ticker.GetText tk' (Ticker.TickCount (mkTicker [] [])) = Some "1.0"%string.
Proof.
  apply (AddTick_label_GetText (H := demo_host) (mkTicker [] []) double_one true "1.0"%string).
  solve_no_nul.
Defined.

Lemma AddTick_formatter_GetText_witness :
  ∃ tk' tick,
    Ticker.AddTick_formatter (H := demo_host) (mkTicker [] []) double_one true true
      (Some (λ _ _, "one"%string)) = Some (tk', tick)
    ∧ PlotPos tick = F32.of_double double_one
    ∧ TextOffset tick = ImGuiTextBuffer.size (TextBuffer (mkTicker [] []))
    ∧ Ticker.GetText_tick tk' tick = Some "one"%string.
Proof.
  apply (AddTick_formatter_GetText (H := demo_host) (mkTicker [] []) double_one true
           (λ _ _, "one"%string)).
  solve_no_nul.
Defined.

Lemma labels_survive_later_ticks_witness :
  ∃ tk1 tick tk2,
    Ticker.AddTick_label (H := demo_host) (mkTicker [] []) double_one true true (Some "1.0"%string)
    = Some (tk1, tick)
    ∧ run_calls (H := demo_host) tk1
        [Call_AddTick_label double_one false true (Some "b"%string)] = Some tk2
    ∧ Ticker.TickCount tk2
      = Ticker.TickCount (mkTicker [] []) + 1
        + Z.of_nat (length [Call_AddTick_label double_one false true (Some "b"%string)])
    ∧ Ticker.GetText_tick tk2 tick = Some "1.0"%string.
Proof.
  apply (labels_survive_later_ticks (H := demo_host) (mkTicker [] []) double_one true "1.0"%string
           [Call_AddTick_label double_one false true (Some "b"%string)]).
  solve_no_nul.
Defined.

Lemma AddTick_without_label_witness :
  ∃ tk' tick,
    Ticker.AddTick_label (H := demo_host) (mkTicker [] []) double_one true false (Some "a"%string)
    = Some (tk', tick)
    ∧ TextBuffer tk' = TextBuffer (mkTicker [] [])
    ∧ TextOffset tick = -1 ∧ LabelSize tick = None
    ∧ Idx tick = Some (Ticker.TickCount (mkTicker [] []))
    ∧ Ticker.GetText_tick tk' tick = None.
Proof.
  apply (AddTick_without_label (H := demo_host) (mkTicker [] []) double_one true false
           (Some "a"%string)).
  by left.
Defined.

Lemma ImNanOrInf_iff_witness :
  (ImNanOrInf (S754_infinity false) = true
   ↔ S754_infinity false = S754_nan ∨ ∃ s, S754_infinity false = S754_infinity s)
  ∧ ImNanOrInf F64.DBL_MAX = false ∧ ImNanOrInf (SFopp F64.DBL_MAX) = false.
Proof. apply (ImNanOrInf_iff (S754_infinity false)). reflexivity. Defined.

Lemma ImAlmostEqual_same_witness :
  ImAlmostEqual double_one double_one 2 = negb (ImNanOrInf double_one).
Proof. apply (ImAlmostEqual_same double_one 2). by vm_compute. Defined.

Lemma ImAlphaU32_masks_alpha_witness :
  ∃ v r,
    F32.to_u32 (F32.mul (F32.sub F32.one F32.half) (F32.of_int 255)) = Some v
    ∧ 0 <= v <= 255
    ∧ ImAlphaU32 0xFF336699 F32.half = Some r ∧ is_u32 r
    ∧ channel 0 r = channel 0 0xFF336699 ∧ channel 1 r = channel 1 0xFF336699
    ∧ channel 2 r = channel 2 0xFF336699
    ∧ channel 3 r = Z.land (channel 3 0xFF336699) (255 - v).
Proof.
  apply (ImAlphaU32_masks_alpha 0xFF336699 F32.half).
  - unfold is_u32; lia.
  - by vm_compute.
Defined.

Lemma ImAlphaU32_ends_witness :
  ImAlphaU32 0xFF336699 F32.one = Some 0xFF336699
  ∧ ImAlphaU32 0xFF336699 F32.zero = Some (Z.land 0xFF336699 0x00FFFFFF).
Proof. apply (ImAlphaU32_ends 0xFF336699). unfold is_u32; lia. Defined.

Lemma ImMixU32_channels_witness :
  is_u32 (ImMixU32 (H := demo_host) 0xFF0000FF 0x0000FFFF 128)
  ∧ channel 1 (ImMixU32 (H := demo_host) 0xFF0000FF 0x0000FFFF 128)
    = (channel 1 0xFF0000FF * (256 - 128) + channel 1 0x0000FFFF * 128) / 256.
Proof.
  apply (ImMixU32_channels (H := demo_host) 0xFF0000FF 0x0000FFFF 128 1);
    unfold is_u32; lia.
Defined.

Lemma ImMixU32_variants_agree_witness :
  ImMixU32_mix64 0xFF0000FF 0x0000FFFF 128 = ImMixU32_mix32 0xFF0000FF 0x0000FFFF 128.
Proof. apply (ImMixU32_variants_agree 0xFF0000FF 0x0000FFFF 128); unfold is_u32; lia. Defined.

Lemma ImMixU32_between_witness :
  (∀ i, 0 <= i <= 3 →
     Z.min (channel i 0xFF0000FF) (channel i 0x0000FFFF)
     <= channel i (ImMixU32 (H := length_host) 0xFF0000FF 0x0000FFFF 128)
     <= Z.max (channel i 0xFF0000FF) (channel i 0x0000FFFF))
  ∧ ImMixU32 (H := length_host) 0xFF0000FF 0xFF0000FF 128 = 0xFF0000FF
  ∧ ImMixU32 (H := length_host) 0xFF0000FF 0x0000FFFF 256 = 0x0000FFFF.
Proof.
  apply (ImMixU32_between (H := length_host) 0xFF0000FF 0x0000FFFF 128);
    unfold is_u32; lia.
Defined.

Lemma reachable_demo_length : reachable (H := length_host) demo_length.
Proof.
  apply (reachable_Append ImPlot3DColormapData_new "A"%string [1; 2] 2 true demo_length 0).
  - apply reachable_new.
  - solve_no_nul.
  - repeat constructor; unfold is_u32; lia.
  - by vm_compute.
Qed.

Lemma Append_rejects_colliding_name_witness :
  0 <= GetIndex (H := length_host) demo_length "A"%string < Count demo_length
  ∧ GetIndex (H := length_host) demo_length "B"%string = GetIndex (H := length_host) demo_length "A"%string
  ∧ Append (H := length_host) "B"%string [5] 1 false demo_length = Some (demo_length, -1).
Proof.
  apply (Append_rejects_colliding_name (H := length_host) demo_length "A"%string "B"%string [5] 1 false).
  - apply reachable_demo_length.
  - exists 0. split; by vm_compute.
  - reflexivity.
Defined.

Lemma GetTableColor_past_end_witness :
  ∃ color, GetTableColor demo_two 0 2 = Some color
           ∧ GetTableColor demo_two (0 + 1) 0 = Some color.
Proof.
  apply (GetTableColor_past_end_reads_next (H := demo_host) demo_two 0 2).
  - apply reachable_demo_two.
  - lia.
  - by vm_compute.
  - by vm_compute.
Defined.
